(** * Fuzzy playlist deduplication: a model of [index.py] and [shazam_import.py]

    The development embeds the pure core of the two scripts:

    - [calculate_similarity] (index.py), which lower-cases both strings and
      asks Python's [difflib.SequenceMatcher] for its [ratio()];
    - [remove_similar_songs] (index.py), the dual-threshold deduplication loop;
    - the CSV row filter of [import_songs_from_csv], the playlist set-up
      branch and the candidate scoring loop of [add_songs_to_shazam_playlist]
      (shazam_import.py).

    Conventions.  Python [int]s are [Z].  Python [str]s are Rocq [string]s,
    read as sequences of code points below 256.  Python [float]s are carried
    as rationals ([Q], compared with [Qle_bool] and [==]):
    [calculate_similarity] gives the exact ratio, and the thresholds are the
    rationals of their decimal literals; where the code computes with the
    floats ([round] in the evidence records, the mean of the two scores of a
    candidate) the model rounds as binary64 does, through [binary64].  Every
    float the scripts compute lies in the interval from 0 to 2, so no
    infinity or NaN arises.  Python [dict]s and [set]s are stdpp's [gmap]
    and [gset]. *)

From Stdlib Require Import ZArith QArith Qround Qpower Ascii.
From stdpp Require Import gmap strings list list_numbers fin_maps sorting.

Set Warnings "-clear-no-such-hyp".

Local Open Scope Z_scope.

(** ** Strings *)

(** [list(s)]: the characters of a Python string. *)
Definition chars (s : string) : list ascii := String.list_ascii_of_string s.

(** [c.lower()] for one code point below 256: the ASCII capitals and the
    Latin-1 capitals (all of U+00C0..U+00DE but the multiplication sign
    U+00D7) move up by 32; every other code point is its own lower case. *)
Definition lower_char (c : ascii) : ascii :=
  let n := Z.of_N (N_of_ascii c) in
  if bool_decide (65 ≤ n ≤ 90) || (bool_decide (192 ≤ n ≤ 222) && negb (bool_decide (n = 215)))
  then ascii_of_N (Z.to_N (n + 32))
  else c.

(** [s.lower()]. *)
Fixpoint lower (s : string) : string :=
  match s with
  | EmptyString => EmptyString
  | String c s' => String (lower_char c) (lower s')
  end.

(** ** [difflib.SequenceMatcher(None, a, b)]

    The matcher is the one of CPython's [Lib/difflib.py], with
    [isjunk = None] and [autojunk = True] as [calculate_similarity]
    constructs it. *)
Module difflib.

(** [Match(a, b, size)]. *)
Definition Match : Type := Z * Z * Z.

Definition size (m : Match) : Z := m.2.

(** [s[i]] for an index that the callers keep inside the sequence. *)
Definition get (s : list ascii) (i : Z) : option ascii :=
  if bool_decide (0 ≤ i) then s !! Z.to_nat i else None.

(** [enumerate(l)]. *)
Definition enumerate {A} (l : list A) : list (Z * A) :=
  zip (seqZ 0 (Z.of_nat (length l))) l.

(** One round of [for i, elt in enumerate(b)]:
    [b2j.setdefault(elt, []).append(i)]. *)
Definition chain_b_step (b2j : gmap ascii (list Z)) (ie : Z * ascii)
  : gmap ascii (list Z) :=
  <[ie.2 := default [] (b2j !! ie.2) ++ [ie.1]]> b2j.

Definition b2j_full (b : list ascii) : gmap ascii (list Z) :=
  fold_left chain_b_step (enumerate b) ∅.

(** [bjunk]: empty, because [isjunk] is [None]. *)
Definition bjunk : gset ascii := ∅.

Definition isbjunk (c : ascii) : bool := bool_decide (c ∈ bjunk).

(** [bpopular]: with [autojunk] and [len(b) >= 200], the elements that occur
    more than [len(b) // 100 + 1] times. *)
Definition bpopular (b : list ascii) : gset ascii :=
  let n := Z.of_nat (length b) in
  if bool_decide (200 ≤ n) then
    let ntest := n `div` 100 + 1 in
    dom (filter (λ kv : ascii * list Z, ntest < Z.of_nat (length kv.2)) (b2j_full b))
  else ∅.

(** [__chain_b]: the index of [b], with the popular elements deleted. *)
Definition chain_b (b : list ascii) : gmap ascii (list Z) :=
  filter (λ kv : ascii * list Z, kv.1 ∉ bpopular b) (b2j_full b).

Section Matcher.

Variables a b : list ascii.

Let b2j := chain_b b.

(** The inner loop [for j in b2j.get(a[i], nothing)] of
    [find_longest_match], with its [continue] and [break]. *)
Fixpoint scan_row (i blo bhi : Z) (js : list Z)
    (j2len newj2len : gmap Z Z) (best : Match) : gmap Z Z * Match :=
  match js with
  | [] => (newj2len, best)
  | j :: js' =>
    if bool_decide (j < blo) then scan_row i blo bhi js' j2len newj2len best
    else if bool_decide (bhi ≤ j) then (newj2len, best)
    else
      let k := default 0 (j2len !! (j - 1)) + 1 in
      let newj2len' := <[j := k]> newj2len in
      let best' := if bool_decide (best.2 < k) then (i - k + 1, j - k + 1, k) else best in
      scan_row i blo bhi js' j2len newj2len' best'
  end.

(** One round of [for i in range(alo, ahi)]; the state is [(j2len, best)]. *)
Definition row_step (blo bhi : Z) (st : gmap Z Z * Match) (i : Z)
  : gmap Z Z * Match :=
  match get a i with
  | Some ai => scan_row i blo bhi (default [] (b2j !! ai)) st.1 ∅ st.2
  | None => st
  end.

(** [a[x] == b[y]]. *)
Definition same_elt (x y : Z) : bool :=
  match get a x, get b y with
  | Some c, Some d => bool_decide (c = d)
  | _, _ => false
  end.

(** [isbjunk(b[y])], compared with the flag [junk]. *)
Definition junk_is (junk : bool) (y : Z) : bool :=
  match get b y with
  | Some d => bool_decide (isbjunk d = junk)
  | None => false
  end.

(** [while besti > alo and bestj > blo and ... a[besti-1] == b[bestj-1]]. *)
Fixpoint extend_left (fuel : nat) (junk : bool) (alo blo : Z) (m : Match) : Match :=
  match fuel with
  | O => m
  | S fuel' =>
    let '(besti, bestj, bestsize) := m in
    if bool_decide (alo < besti) && bool_decide (blo < bestj)
       && junk_is junk (bestj - 1) && same_elt (besti - 1) (bestj - 1)
    then extend_left fuel' junk alo blo (besti - 1, bestj - 1, bestsize + 1)
    else m
  end.

(** [while besti+bestsize < ahi and bestj+bestsize < bhi and ...]. *)
Fixpoint extend_right (fuel : nat) (junk : bool) (ahi bhi : Z) (m : Match) : Match :=
  match fuel with
  | O => m
  | S fuel' =>
    let '(besti, bestj, bestsize) := m in
    if bool_decide (besti + bestsize < ahi) && bool_decide (bestj + bestsize < bhi)
       && junk_is junk (bestj + bestsize) && same_elt (besti + bestsize) (bestj + bestsize)
    then extend_right fuel' junk ahi bhi (besti, bestj, bestsize + 1)
    else m
  end.

(** The number of rounds after which the guard of a left (right) extension
    loop is certainly false. *)
Definition left_fuel (alo : Z) (m : Match) : nat := Z.to_nat (m.1.1 - alo).
Definition right_fuel (ahi : Z) (m : Match) : nat := Z.to_nat (ahi - (m.1.1 + m.2)).

Definition find_longest_match (alo ahi blo bhi : Z) : Match :=
  let m0 := (fold_left (row_step blo bhi) (seqZ alo (ahi - alo)) (∅, (alo, blo, 0))).2 in
  let m1 := extend_left (left_fuel alo m0) false alo blo m0 in
  let m2 := extend_right (right_fuel ahi m1) false ahi bhi m1 in
  let m3 := extend_left (left_fuel alo m2) true alo blo m2 in
  let m4 := extend_right (right_fuel ahi m3) true ahi bhi m3 in
  m4.

(** The [while queue:] loop of [get_matching_blocks].  The Python list
    [queue] is used as a stack whose top is its last element; here the top
    is the head.  [None] means that [fuel] rounds did not empty the queue. *)
Fixpoint queue_loop (fuel : nat) (queue : list (Z * Z * Z * Z))
    (matching_blocks : list Match) : option (list Match) :=
  match queue with
  | [] => Some matching_blocks
  | (alo, ahi, blo, bhi) :: queue' =>
    match fuel with
    | O => None
    | S fuel' =>
      let x := find_longest_match alo ahi blo bhi in
      let '(i, j, k) := x in
      if bool_decide (k ≠ 0) then
        let q1 := if bool_decide (alo < i) && bool_decide (blo < j)
                  then [(alo, i, blo, j)] else [] in
        let q2 := if bool_decide (i + k < ahi) && bool_decide (j + k < bhi)
                  then [(i + k, ahi, j + k, bhi)] else [] in
        queue_loop fuel' (q2 ++ q1 ++ queue') (matching_blocks ++ [x])
      else queue_loop fuel' queue' matching_blocks
    end
  end.

End Matcher.

(** The order of [matching_blocks.sort()] on triples. *)
Definition match_le (x y : Match) : bool :=
  bool_decide (x.1.1 < y.1.1)
  || (bool_decide (x.1.1 = y.1.1)
      && (bool_decide (x.1.2 < y.1.2)
          || (bool_decide (x.1.2 = y.1.2) && bool_decide (x.2 ≤ y.2)))).

Fixpoint insert_sorted (x : Match) (l : list Match) : list Match :=
  match l with
  | [] => [x]
  | y :: l' => if match_le x y then x :: l else y :: insert_sorted x l'
  end.

Definition sort (l : list Match) : list Match := foldr insert_sorted [] l.

(** One round of the loop that collapses adjacent blocks; the state is
    [((i1, j1, k1), non_adjacent)]. *)
Definition collapse_step (st : Match * list Match) (x : Match) : Match * list Match :=
  let '((i1, j1, k1), non_adjacent) := st in
  let '(i2, j2, k2) := x in
  if bool_decide (i1 + k1 = i2) && bool_decide (j1 + k1 = j2)
  then ((i1, j1, k1 + k2), non_adjacent)
  else ((i2, j2, k2), if bool_decide (k1 ≠ 0) then non_adjacent ++ [(i1, j1, k1)] else non_adjacent).

Definition collapse (blocks : list Match) : list Match :=
  let '((i1, j1, k1), non_adjacent) := fold_left collapse_step blocks ((0, 0, 0), []) in
  if bool_decide (k1 ≠ 0) then non_adjacent ++ [(i1, j1, k1)] else non_adjacent.

(** Rounds that empty the queue started at [(0, la, 0, lb)]. *)
Definition queue_fuel (a : list ascii) : nat := S (2 * length a).

Definition get_matching_blocks (a b : list ascii) : option (list Match) :=
  let la := Z.of_nat (length a) in
  let lb := Z.of_nat (length b) in
  blocks ← queue_loop a b (queue_fuel a) [(0, la, 0, lb)] [];
  Some (collapse (sort blocks) ++ [(la, lb, 0)]).

Definition sum_sizes (l : list Match) : Z := foldr (λ m acc, size m + acc) 0 l.

(** [_calculate_ratio(matches, length)]. *)
Definition calculate_ratio (matches length : Z) : Q :=
  if bool_decide (length ≠ 0) then (2 * inject_Z matches / inject_Z length)%Q else 1%Q.

(** [ratio()]; [None] only if [get_matching_blocks] ran out of fuel, which
    [ratio_total] below excludes. *)
Definition ratio_opt (a b : list ascii) : option Q :=
  blocks ← get_matching_blocks a b;
  Some (calculate_ratio (sum_sizes blocks) (Z.of_nat (length a) + Z.of_nat (length b))).

Definition ratio (a b : list ascii) : Q := default 0%Q (ratio_opt a b).

(** ** Invariants of the matcher *)

(** The block [m] lies inside the window [alo..ahi) x [blo..bhi). *)
Definition in_box (alo ahi blo bhi : Z) (m : Match) : Prop :=
  alo ≤ m.1.1 ∧ m.1.1 + m.2 ≤ ahi ∧ blo ≤ m.1.2 ∧ m.1.2 + m.2 ≤ bhi ∧ 0 ≤ m.2.

(** Every run length stored in [j2len] fits between the window's corner and
    the cell it ends in; [i] is the number of the row about to be scanned. *)
Definition lens_ok (alo blo bhi i : Z) (j2len : gmap Z Z) : Prop :=
  ∀ j v, j2len !! j = Some v → 1 ≤ v ∧ v ≤ i - alo ∧ v ≤ j - blo + 1 ∧ j < bhi.

(** A queue entry with a non-negative extent in both sequences. *)
Definition window_ok (w : Z * Z * Z * Z) : Prop :=
  w.1.1.1 ≤ w.1.1.2 ∧ w.1.2 ≤ w.2.

(** Rounds of the queue loop that a queue entry can cause. *)
Definition window_cost (w : Z * Z * Z * Z) : Z := 2 * (w.1.1.2 - w.1.1.1) + 1.

Definition queue_cost (q : list (Z * Z * Z * Z)) : Z := foldr (λ w acc, window_cost w + acc) 0 q.

(** [b2j] lists, for each element it knows, the positions of that element
    in [b], in increasing order. *)
Definition index_ok (b : list ascii) (b2j : gmap ascii (list Z)) : Prop :=
  ∀ c js, b2j !! c = Some js →
    StronglySorted Z.lt js ∧ ∀ j, j ∈ js ↔ get b j = Some c.

(** The length of the run of indexed (not popular) elements of [s] that
    ends at position [r]. *)
Fixpoint run_to (b2j : gmap ascii (list Z)) (s : list ascii) (r : nat) : Z :=
  match s !! r with
  | Some c =>
    if bool_decide (is_Some (b2j !! c))
    then match r with O => 0 | S r' => run_to b2j s r' end + 1
    else 0
  | None => 0
  end.

Definition run (b2j : gmap ascii (list Z)) (s : list ascii) (j : Z) : Z :=
  if bool_decide (0 ≤ j) then run_to b2j s (Z.to_nat j) else 0.

(** The state of the row loop when a sequence is matched against itself and
    the rows before [i] are done: the best block lies on the diagonal and is
    at least as long as every run that ends before row [i]; no entry of
    [j2len] exceeds the run ending in its column or in row [i - 1], and the
    diagonal entry is that run. *)
Definition diag_ok (s : list ascii) (i : Z) (st : gmap Z Z * Match) : Prop :=
  st.2.1.1 = st.2.1.2
  ∧ 0 ≤ st.2.2
  ∧ (∀ r, 0 ≤ r < i → run (chain_b s) s r ≤ st.2.2)
  ∧ (∀ j v, st.1 !! j = Some v →
       v ≤ run (chain_b s) s j ∧ v ≤ run (chain_b s) s (i - 1))
  ∧ default 0 (st.1 !! (i - 1)) = run (chain_b s) s (i - 1).

(** The block [m] pairs equal elements of [a] and [b]. *)
Definition is_match (a b : list ascii) (m : Match) : Prop :=
  ∀ t, 0 ≤ t < m.2 → ∃ c, get a (m.1.1 + t) = Some c ∧ get b (m.1.2 + t) = Some c.

(** Every run length stored in [j2len] counts equal elements that end in
    row [i - 1] of [a] and in the entry's column of [b]. *)
Definition lens_match (a b : list ascii) (i : Z) (j2len : gmap Z Z) : Prop :=
  ∀ j v, j2len !! j = Some v →
    ∀ t, 0 ≤ t < v → ∃ c, get a (i - 1 - t) = Some c ∧ get b (j - t) = Some c.

(** A queue entry that lies inside the two sequences. *)
Definition window_in (a b : list ascii) (w : Z * Z * Z * Z) : Prop :=
  0 ≤ w.1.1.1 ∧ w.1.1.1 ≤ w.1.1.2 ∧ w.1.1.2 ≤ Z.of_nat (length a)
  ∧ 0 ≤ w.1.2 ∧ w.1.2 ≤ w.2 ∧ w.2 ≤ Z.of_nat (length b).

(** The two segments that a queue entry delimits are equal. *)
Definition seg_eq (a b : list ascii) (w : Z * Z * Z * Z) : Prop :=
  w.1.1.2 - w.1.1.1 = w.2 - w.1.2
  ∧ ∀ t, 0 ≤ t < w.1.1.2 - w.1.1.1 → get a (w.1.1.1 + t) = get b (w.1.2 + t).

(** The room that the queued windows offer to matches, in [a] and in [b]. *)
Definition queue_room_a (q : list (Z * Z * Z * Z)) : Z :=
  foldr (λ w acc, (w.1.1.2 - w.1.1.1) + acc) 0 q.
Definition queue_room_b (q : list (Z * Z * Z * Z)) : Z :=
  foldr (λ w acc, (w.2 - w.1.2) + acc) 0 q.

End difflib.

(** ** index.py *)

(** [calculate_similarity(str1, str2)]. *)
Definition calculate_similarity (str1 str2 : string) : Q :=
  difflib.ratio (chars (lower str1)) (chars (lower str2)).


(** A playlist entry: the dict built by [get_playlist_songs]. *)
Record Song := {
  id : string;
  playlistItemId : string;
  titulo : string;
  artista : string
}.

#[global] Instance Song_eq_dec : EqDecision Song.
Proof. solve_decision. Defined.

(** An entry of [removed_songs]. *)
Record Removed := {
  cancion : Song;
  similar_a : Song;
  similaridad_titulo : Q;
  similaridad_artista : Q
}.

(** [round(x)]: to the nearest integer, halves to the even neighbour. *)
Definition round_half_even (x : Q) : Z :=
  let f := Qfloor x in
  match (x - inject_Z f ?= 1 # 2)%Q with
  | Lt => f
  | Gt => f + 1
  | Eq => if Z.even f then f else f + 1
  end.

(** [floor (log2 x)] for a positive [x]. *)
Definition ilog2 (x : Q) : Z :=
  let e := Z.log2 (Qnum x) - Z.log2 (Z.pos (Qden x)) in
  if Qle_bool (2 ^ e) x then e else e - 1.

(** The value of the binary64 number nearest to [x], halves going to the
    even mantissa: 53 bits from the leading one, and below [2 ^ -1022] the
    multiples of [2 ^ -1074].  It is what a Python float holds after an
    operation whose exact result is [x]; the numbers met here lie between
    0 and 2, far from overflow. *)
Definition binary64 (x : Q) : Q :=
  match (x ?= 0)%Q with
  | Eq => 0%Q
  | Gt =>
    let ulp := (2 ^ (Z.max (ilog2 x) (-1022) - 52))%Q in
    (inject_Z (round_half_even (x / ulp)) * ulp)%Q
  | Lt =>
    let ulp := (2 ^ (Z.max (ilog2 (- x)) (-1022) - 52))%Q in
    (- (inject_Z (round_half_even (- x / ulp)) * ulp))%Q
  end.

(** [round(x, 2)] for the float of the exact ratio [x]: the float is
    [binary64 x]; [round] takes its exact value to two decimals, halves to
    the even digit, and answers the float nearest to that decimal. *)
Definition round2 (x : Q) : Q :=
  binary64 (inject_Z (round_half_even (binary64 x * 100)) / 100)%Q.

Arguments binary64 : simpl never.
Arguments round2 : simpl never.

(** The inner loop [for filtered_song in filtered_songs] with its [break]:
    the evidence appended for [song], or [None] when the loop runs to its
    end with [is_duplicate] still false. *)
Fixpoint scan_filtered (title_threshold artist_threshold : Q) (song : Song)
    (filtered_songs : list Song) : option Removed :=
  match filtered_songs with
  | [] => None
  | filtered_song :: rest =>
    let title_similarity := calculate_similarity (titulo song) (titulo filtered_song) in
    let artist_similarity := calculate_similarity (artista song) (artista filtered_song) in
    if Qle_bool title_threshold title_similarity && Qle_bool artist_threshold artist_similarity
    then Some {| cancion := song;
                 similar_a := filtered_song;
                 similaridad_titulo := round2 title_similarity;
                 similaridad_artista := round2 artist_similarity |}
    else scan_filtered title_threshold artist_threshold song rest
  end.

(** One round of [for i, song in enumerate(songs)]; the state is
    [(filtered_songs, removed_songs)]. *)
Definition song_step (title_threshold artist_threshold : Q)
    (st : list Song * list Removed) (song : Song) : list Song * list Removed :=
  match scan_filtered title_threshold artist_threshold song st.1 with
  | Some r => (st.1, st.2 ++ [r])
  | None => (st.1 ++ [song], st.2)
  end.

Definition remove_similar_songs (songs : list Song)
    (title_threshold artist_threshold : Q) : list Song * list Removed :=
  fold_left (song_step title_threshold artist_threshold) songs ([], []).

(** The defaults [title_threshold=0.8, artist_threshold=0.9]. *)
Definition default_title_threshold : Q := 8 # 10.
Definition default_artist_threshold : Q := 9 # 10.

(** ** shazam_import.py *)

(** [c.isspace()] for a code point below 256. *)
Definition is_space (c : ascii) : bool :=
  let n := Z.of_N (N_of_ascii c) in
  bool_decide (9 ≤ n ≤ 13) || bool_decide (28 ≤ n ≤ 32)
  || bool_decide (n = 133) || bool_decide (n = 160).

Fixpoint lstrip (s : string) : string :=
  match s with
  | EmptyString => EmptyString
  | String c s' => if is_space c then lstrip s' else s
  end.

Fixpoint rstrip (s : string) : string :=
  match s with
  | EmptyString => EmptyString
  | String c s' =>
    match rstrip s' with
    | EmptyString => if is_space c then EmptyString else String c EmptyString
    | r => String c r
    end
  end.

(** [s.strip()]. *)
Definition strip (s : string) : string := rstrip (lstrip s).

(** Truth value of a Python string: non-empty. *)
Definition truthy (s : string) : bool := negb (bool_decide (s = "")).

(** The test of [import_songs_from_csv] on one row of the reader:
    [Some key] when the row is long enough, both fields are non-empty and
    the row is not a header row. *)
Definition row_key (row : list string) : option (string * string) :=
  if bool_decide (4 ≤ Z.of_nat (length row)) then
    match row !! 2%nat, row !! 3%nat with
    | Some title, Some artist =>
      if truthy title && truthy artist
         && negb (bool_decide (lower (strip title) = "title")
                  && bool_decide (lower (strip artist) = "artist"))
      then Some (title, artist)
      else None
    | _, _ => None
    end
  else None.

(** One round of [for row in reader]; the state is [(songs, seen)]. *)
Definition csv_step (st : list (string * string) * gset (string * string))
    (row : list string) : list (string * string) * gset (string * string) :=
  match row_key row with
  | Some key =>
    if bool_decide (key ∉ st.2) then (st.1 ++ [key], st.2 ∪ {[key]}) else st
  | None => st
  end.

(** The body of the [with open(...)] block on the rows that [csv.reader]
    yields: [next(reader, None)] drops the first one. *)
Definition read_rows (rows : list (list string)) : list (string * string) :=
  (fold_left csv_step (tail rows) ([], ∅)).1.

(** [import_songs_from_csv()]: [answer] is the line typed at the prompt and
    [open_csv path] the rows of the file, or [None] when opening or reading
    it raises. *)
Definition import_songs_from_csv (answer : string)
    (open_csv : string → option (list (list string))) : list (string * string) :=
  let csv_path := strip answer in
  if truthy csv_path then
    match open_csv csv_path with
    | Some rows => read_rows rows
    | None => []
    end
  else [].

(** What a call does: return a value or raise an exception with a message. *)
Inductive outcome (A : Type) : Type :=
  | Returns (x : A)
  | Raises (msg : string).
Arguments Returns {A} x.
Arguments Raises {A} msg.

(** What the remote service answers during the playlist set-up. *)
Record YouTube := {
  client : outcome bool;                          (* get_youtube_client() *)
  playlists_list : outcome (list (string * string)); (* (id, snippet title) *)
  playlists_insert : outcome string               (* id of the new playlist *)
}.

(** [get_or_create_shazam_playlist()]. *)
Definition get_or_create_shazam_playlist (yt : YouTube) : outcome (option string) :=
  match client yt with
  | Raises msg => Raises msg
  | Returns false => Returns None
  | Returns true =>
    let playlist_title := "Shazam Songs" in
    match playlists_list yt with
    | Raises _ => Returns None
    | Returns items =>
      match find (λ item : string * string,
                    bool_decide (lower (strip item.2) = playlist_title)) items with
      | Some item => Returns (Some item.1)
      | None =>
        match playlists_insert yt with
        | Raises _ => Returns None
        | Returns playlist_id => Returns (Some playlist_id)
        end
      end
    end
  end.

Fixpoint starts_with (p s : string) : bool :=
  match p, s with
  | EmptyString, _ => true
  | String c p', String d s' => bool_decide (c = d) && starts_with p' s'
  | String _ _, EmptyString => false
  end.

(** [needle in s]. *)
Fixpoint contains (needle s : string) : bool :=
  starts_with needle s
  || match s with
     | EmptyString => false
     | String _ s' => contains needle s'
     end.

(** The quota test that the script applies to an error message. *)
Definition mentions_quota (error_str : string) : bool :=
  contains "quota" (lower error_str) || contains "quotaExceeded" error_str
  || contains "403" error_str.

(** How the set-up part of [add_songs_to_shazam_playlist] ends. *)
Inductive Setup : Type :=
  | NoSongs
  | FallbackWritten (deduplicated_songs_csv : list (list string))
  | ErrorReported (error_str : string)
  | PlaylistReady (playlist_id : string).

(** The rows written to [deduplicated_songs.csv]. *)
Definition fallback_rows (songs : list (string * string)) : list (list string) :=
  ["Title"; "Artist"] :: ((λ ta : string * string, [ta.1; ta.2]) <$> songs).

(** [add_songs_to_shazam_playlist()] up to the point where the playlist is
    known, given the imported [songs]. *)
Definition playlist_setup (songs : list (string * string)) (yt : YouTube) : Setup :=
  match songs with
  | [] => NoSongs
  | _ :: _ =>
    let '(playlist_id, error_str) :=
      match get_or_create_shazam_playlist yt with
      | Returns p => (p, None)
      | Raises msg => (None, Some msg)
      end in
    if negb (from_option truthy false playlist_id) then
      let error_str := if from_option truthy false error_str
                       then default "" error_str else "" in
      if (truthy error_str && mentions_quota error_str) || bool_decide (playlist_id = None)
      then FallbackWritten (fallback_rows songs)
      else ErrorReported error_str
    else PlaylistReady (default "" playlist_id)
  end.

(** An element of the search response's [items]. *)
Record SearchItem := {
  videoId : string;
  title : string;
  channelTitle : option string
}.

Definition Qlt_bool (x y : Q) : bool := negb (Qle_bool y x).

(** [score = (score_title + score_artist) / 2] on floats: the two
    similarities are the floats of the exact ratios, and the sum and the
    quotient are rounded as binary64 rounds them. *)
Definition score (query_title query_artist : string) (item : SearchItem) : Q :=
  let video_title := title item in
  let channel_title := default "" (channelTitle item) in
  let score_title := binary64 (calculate_similarity query_title video_title) in
  let score_artist := binary64 (calculate_similarity query_artist channel_title) in
  binary64 (binary64 (score_title + score_artist) / 2)%Q.

Arguments score : simpl never.

(** One round of [for item in search_response.get("items", [])]; the state
    is [(best_score, best_video)]. *)
Definition best_step (query_title query_artist : string)
    (st : Q * option SearchItem) (item : SearchItem) : Q * option SearchItem :=
  let s := score query_title query_artist item in
  if Qlt_bool st.1 s then (s, Some item) else st.

(** The scoring loop followed by [if best_video and best_score > 0.5]. *)
Definition select_best (query_title query_artist : string)
    (items : list SearchItem) : option SearchItem :=
  let '(best_score, best_video) :=
    fold_left (best_step query_title query_artist) items (0%Q, None) in
  match best_video with
  | Some v => if Qlt_bool (1 # 2) best_score then Some v else None
  | None => None
  end.

(** ** Notions used in the statements *)

(** [l] is a shuffle of [l1] and [l2] that keeps the order of each: every
    position of [l] comes from exactly one of the two lists. *)
Inductive interleaved {A : Type} : list A → list A → list A → Prop :=
  | interleaved_nil : interleaved [] [] []
  | interleaved_left x l1 l2 l :
      interleaved l1 l2 l → interleaved (x :: l1) l2 (x :: l)
  | interleaved_right x l1 l2 l :
      interleaved l1 l2 l → interleaved l1 (x :: l2) (x :: l).

(** Deduplication that keeps the first occurrence of each element. *)
Fixpoint first_seen {A : Type} `{EqDecision A} (l : list A) : list A :=
  match l with
  | [] => []
  | x :: l' => x :: filter (λ y, y ≠ x) (first_seen l')
  end.

(** [song] meets both thresholds against [kept]: the test of line 157. *)
Definition both_meet (title_threshold artist_threshold : Q) (song kept : Song) : Prop :=
  (title_threshold <= calculate_similarity (titulo song) (titulo kept))%Q
  ∧ (artist_threshold <= calculate_similarity (artista song) (artista kept))%Q.

(** The evidence recorded when [song] is removed as a duplicate of [kept]. *)
Definition evidence (song kept : Song) : Removed :=
  {| cancion := song;
     similar_a := kept;
     similaridad_titulo := round2 (calculate_similarity (titulo song) (titulo kept));
     similaridad_artista := round2 (calculate_similarity (artista song) (artista kept)) |}.

(** ** Sample data *)

Definition mk_song (n : string) (t a : string) : Song :=
  {| id := "v" +:+ n; playlistItemId := "p" +:+ n; titulo := t; artista := a |}.

(** The end-to-end scenario: a case variant of a kept song is removed. *)
Definition hey_jude : Song := mk_song "1" "Hey Jude" "The Beatles".
Definition hey_jude_lc : Song := mk_song "2" "hey jude" "The Beatles".
Definition let_it_be : Song := mk_song "3" "Let It Be" "The Beatles".

(** Same title, unrelated artist. *)
Definition imagine : Song := mk_song "4" "Imagine" "John Lennon".


(** Two titles of 200 and 198 characters: at 200 characters the matcher
    stops indexing elements that occur more than three times. *)
Definition abab (n : nat) : string := String.concat "" (replicate n "ab").
Definition baba (n : nat) : string := String.concat "" (replicate n "ba").

(** Five search results for one query: the second and the fourth tie for
    the best score. *)
Definition candidates : list SearchItem :=
  [ {| videoId := "a1"; title := "Hey Jude (Remastered)"; channelTitle := Some "The Beatles" |};
    {| videoId := "a2"; title := "hey jude"; channelTitle := Some "the beatles" |};
    {| videoId := "a3"; title := "Let It Be"; channelTitle := None |};
    {| videoId := "a4"; title := "HEY JUDE"; channelTitle := Some "THE BEATLES" |};
    {| videoId := "a5"; title := "Jude"; channelTitle := Some "Beatles" |} ].

(** Two candidates for the song ["abc"] by ["abcd"] whose exact means are
    both 7/12, while the floats of the means differ in the last place. *)
Definition tied_candidates : list SearchItem :=
  [ {| videoId := "t1"; title := "a"; channelTitle := Some "ab" |};
    {| videoId := "t2"; title := "abc"; channelTitle := Some "a0123456" |} ].

(** Rows of an import file: a title line, the column header, three songs
    (one of them twice), a short row and a row without artist. *)
Definition shazam_rows : list (list string) :=
  [ ["Shazam Library"];
    ["Index"; "TagTime"; "Title"; "Artist"; "URL"];
    ["1"; "2024-01-01"; "Hey Jude"; "The Beatles"; "u1"];
    ["2"; "2024-01-02"; "Imagine"; "John Lennon"; "u2"];
    ["3"; "2024-01-03"; "Hey Jude"; "The Beatles"; "u1"];
    ["4"; "2024-01-04"; "Broken"];
    ["5"; "2024-01-05"; "Untitled"; ""; "u5"];
    ["6"; "2024-01-06"; "hey jude"; "The Beatles"; "u6"] ].

(** Rows of a file without title line, and with a song that has no artist. *)
Definition bare_rows : list (list string) :=
  [ ["1"; "2024-01-01"; "Hey Jude"; "The Beatles"];
    ["2"; "2024-01-02"; "Untitled"; ""] ].

(** A service whose playlist listing fails with a server error. *)
Definition server_error_service : YouTube :=
  {| client := Returns true;
     playlists_list := Raises "HttpError 500: backendError";
     playlists_insert := Returns "PL1" |}.

(** ** The client, the playlist and the two programs *)

(** *** [get_youtube_client] *)

(** The attributes of a credentials object that the script reads. *)
Module Credentials.
Record t := {
  valid : bool;
  expired : bool;
  refresh_token : option string
}.
End Credentials.

(** What [get_youtube_client] finds outside the program: [token.pickle]
    ([None] when the file does not exist, otherwise what [pickle.load]
    does), [creds.refresh], [config.json] ([None] when the file does not
    exist, otherwise what [json.load] does: the values under ['client_id']
    and ['client_secret'], each [None] when the key is missing), the login
    flow, [pickle.dump] and [build]. *)
Record Auth := {
  token_pickle : option (outcome Credentials.t);
  refresh : Credentials.t → outcome Credentials.t;
  config_json : option (outcome (option string * option string));
  run_local_server : string → string → outcome Credentials.t;
  pickle_dump : Credentials.t → outcome unit;
  build : Credentials.t → outcome unit
}.

(** What the function does outside the program. *)
Inductive AuthEvent : Type :=
  | Refreshed
  | RefreshFailed
  | LoginStarted (client_id client_secret : string)
  | TokenSaved (creds : Credentials.t).

(** Lines 34-40: the refresh of stored credentials. *)
Definition refresh_stored (env : Auth) (creds : option Credentials.t)
    : list AuthEvent * option Credentials.t :=
  match creds with
  | Some c =>
    if Credentials.expired c && from_option truthy false (Credentials.refresh_token c)
    then match refresh env c with
         | Returns c' => ([Refreshed], Some c')
         | Raises _ => ([RefreshFailed], None)
         end
    else ([], creds)
  | None => ([], None)
  end.

(** Lines 42-107: the login from [config.json].  [Returns None] is the
    early [return None, False]. *)
Definition login_from_config (placeholder : string) (env : Auth)
    : list AuthEvent * outcome (option Credentials.t) :=
  match config_json env with
  | None => ([], Returns None)
  | Some (Raises msg) => ([], Raises msg)
  | Some (Returns config_data) =>
    let client_id := default "" config_data.1 in
    let client_secret := default "" config_data.2 in
    if negb (truthy client_id) || negb (truthy client_secret)
       || bool_decide (client_id = placeholder)
    then ([], Returns None)
    else
      match run_local_server env client_id client_secret with
      | Raises _ => ([LoginStarted client_id client_secret], Returns None)
      | Returns creds =>
        match pickle_dump env creds with
        | Raises _ => ([LoginStarted client_id client_secret], Returns None)
        | Returns _ =>
          ([LoginStarted client_id client_secret; TokenSaved creds], Returns (Some creds))
        end
      end
  end.

(** The function, with the client id that it refuses as a parameter: the
    events in their order, and the pair [(youtube, authenticated)] where
    the client is given by the credentials it was built with. *)
Definition get_youtube_client_with (placeholder : string) (env : Auth)
    : list AuthEvent * outcome (option Credentials.t * bool) :=
  match token_pickle env with
  | Some (Raises msg) => ([], Raises msg)
  | stored =>
    let creds := match stored with Some (Returns c) => Some c | _ => None end in
    let '(events, creds) :=
      if negb (bool_decide (is_Some creds)) || negb (from_option Credentials.valid false creds)
      then
        let '(events, creds) := refresh_stored env creds in
        match creds with
        | None =>
          let '(events', creds) := login_from_config placeholder env in
          (events ++ events', creds)
        | Some c => (events, Returns (Some c))
        end
      else ([], Returns creds) in
    match creds with
    | Raises msg => (events, Raises msg)
    | Returns None => (events, Returns (None, false))
    | Returns (Some c) =>
      match build env c with
      | Returns _ => (events, Returns (Some c, true))
      | Raises _ => (events, Returns (None, false))
      end
    end
  end.

(** index.py, line 70. *)
Definition get_youtube_client : Auth → list AuthEvent * outcome (option Credentials.t * bool) :=
  get_youtube_client_with "TU_CLIENT_ID_AQUI".

(** shazam_import.py, lines 62-161: the module defines the function
    again, after importing the one of index.py.  This is its own text,
    line by line. *)
Module shazam_import.
Definition get_youtube_client (env : Auth)
    : list AuthEvent * outcome (option Credentials.t * bool) :=
  (* lines 90-153, after the events so far; [Returns None] is the early
     [return None, False] *)
  let login (events : list AuthEvent) : list AuthEvent * outcome (option Credentials.t) :=
    match config_json env with
    | None => (events, Returns None)
    | Some (Raises msg) => (events, Raises msg)
    | Some (Returns config_data) =>
      let client_id := default "" config_data.1 in
      let client_secret := default "" config_data.2 in
      if negb (truthy client_id) then (events, Returns None)
      else if negb (truthy client_secret) then (events, Returns None)
      else if bool_decide (client_id = "YOUR_CLIENT_ID_HERE") then (events, Returns None)
      else
        match run_local_server env client_id client_secret with
        | Raises _ => (events ++ [LoginStarted client_id client_secret], Returns None)
        | Returns credentials =>
          match pickle_dump env credentials with
          | Raises _ => (events ++ [LoginStarted client_id client_secret], Returns None)
          | Returns _ =>
            (events ++ [LoginStarted client_id client_secret; TokenSaved credentials],
             Returns (Some credentials))
          end
        end
    end in
  (* lines 74-76 *)
  match token_pickle env with
  | Some (Raises msg) => ([], Raises msg)
  | token =>
    let credentials := match token with Some (Returns c) => Some c | _ => None end in
    let '(events, credentials) :=
      (* line 79 *)
      match credentials with
      | None => login []
      | Some c =>
        if Credentials.valid c then ([], Returns (Some c))
        else
          (* lines 80-86 *)
          let '(events, credentials) :=
            if Credentials.expired c
            then match Credentials.refresh_token c with
                 | Some refresh_token =>
                   if truthy refresh_token
                   then match refresh env c with
                        | Returns c' => ([Refreshed], Some c')
                        | Raises _ => ([RefreshFailed], None)
                        end
                   else ([], Some c)
                 | None => ([], Some c)
                 end
            else ([], Some c) in
          (* line 88 *)
          match credentials with
          | None => login events
          | Some c => (events, Returns (Some c))
          end
      end in
    (* lines 156-161 *)
    match credentials with
    | Raises msg => (events, Raises msg)
    | Returns None => (events, Returns (None, false))
    | Returns (Some c) =>
      match build env c with
      | Returns _ => (events, Returns (Some c, true))
      | Raises _ => (events, Returns (None, false))
      end
    end
  end.
End shazam_import.

(** *** The service *)

(** An element of a [playlistItems().list] response: [item['id']],
    [item['contentDetails']['videoId']] and the keys of [item['snippet']];
    [None] stands for a missing key. *)
Module PlaylistItem.
Record t := {
  id : option string;
  videoId : option string;
  title : option string;
  videoOwnerChannelTitle : option string;
  channelTitle : option string
}.
End PlaylistItem.

(** A [playlistItems().list] response: [response.get('items', [])] and
    [response.get('nextPageToken')]. *)
Record Page := {
  items : list PlaylistItem.t;
  nextPageToken : option string
}.

(** What [json.dump] receives. *)
Inductive Document : Type :=
  | PlaylistSongs (playlist_title : string) (total_songs : Z) (songs : list Song)
  | RemovedSongs (total_removed : Z) (removed_songs : list Removed).

(** The requests of the two programs.  Each one is answered from the state
    of the world and changes it.  [playlists_list_id] answers [None] when
    the response has no items and otherwise the title of the first one; it
    raises when the request does or when that item lacks its title or its
    item count.  [csv_write] stands for a [with open(...)] block and the
    rows written in it. *)
Record World (St : Type) := {
  playlists_list_id : string → St → outcome (option string) * St;
  playlistItems_list : string → option string → St → outcome Page * St;
  playlistItems_delete : string → St → outcome unit * St;
  playlistItems_insert : string → string → St → outcome unit * St;
  search_list : string → St → outcome (list SearchItem) * St;
  json_dump : string → Document → St → outcome unit * St;
  csv_write : string → list (list string) → St → outcome unit * St
}.
Arguments playlists_list_id {St}.
Arguments playlistItems_list {St}.
Arguments playlistItems_delete {St}.
Arguments playlistItems_insert {St}.
Arguments search_list {St}.
Arguments json_dump {St}.
Arguments csv_write {St}.

(** Truth value of a Python list. *)
Definition nonempty {A : Type} (l : list A) : bool :=
  match l with [] => false | _ :: _ => true end.

Section Programs.

Context {St : Type}.

(** *** index.py: [get_playlist_items] *)

(** The [while True] loop; [fuel] bounds the number of requests. *)
Fixpoint get_playlist_items_loop (fuel : nat) (youtube : World St) (playlist_id : string)
    (next_page_token : option string) (playlist_items : list PlaylistItem.t) (σ : St)
    : option (list PlaylistItem.t * St) :=
  match fuel with
  | O => None
  | S fuel =>
    match playlistItems_list youtube playlist_id next_page_token σ with
    | (Returns response, σ) =>
      let playlist_items := playlist_items ++ items response in
      let next_page_token := nextPageToken response in
      if negb (from_option truthy false next_page_token)
      then Some (playlist_items, σ)
      else get_playlist_items_loop fuel youtube playlist_id next_page_token playlist_items σ
    | (Raises _, σ) => Some (playlist_items, σ)
    end
  end.

Definition get_playlist_items (fuel : nat) (youtube : World St) (playlist_id : string)
    (σ : St) : option (list PlaylistItem.t * St) :=
  get_playlist_items_loop fuel youtube playlist_id None [] σ.

(** *** [remove_videos_from_playlist] *)

(** One round of the loop; the state is [(success_count, failed_count)]. *)
Definition delete_step (youtube : World St) (st : Z * Z * St) (item_id : string)
    : Z * Z * St :=
  let '(success_count, failed_count, σ) := st in
  match playlistItems_delete youtube item_id σ with
  | (Returns _, σ) => (success_count + 1, failed_count, σ)
  | (Raises _, σ) => (success_count, failed_count + 1, σ)
  end.

Definition remove_videos_from_playlist (youtube : World St)
    (playlist_item_ids : list string) (σ : St) : Z * Z * St :=
  fold_left (delete_step youtube) playlist_item_ids (0, 0, σ).

(** *** [get_playlist_songs] *)

(** The dict built for one item; [None] when a subscript raises. *)
Definition song_info (item : PlaylistItem.t) : option Song :=
  video_id ← PlaylistItem.videoId item;
  playlist_item_id ← PlaylistItem.id item;
  title ← PlaylistItem.title item;
  let channel_title :=
    default (default "Unknown" (PlaylistItem.channelTitle item))
            (PlaylistItem.videoOwnerChannelTitle item) in
  Some {| id := video_id; playlistItemId := playlist_item_id;
          titulo := title; artista := channel_title |}.

(** [key=lambda x: x['titulo'].lower()]. *)
Definition sort_key (x : Song) : string := lower (titulo x).

(** [songs.sort(key=...)]: the sort is stable, and strings compare by code
    point.  The first song goes before the first sorted song whose key is
    not below its own. *)
Fixpoint insert_by_key (x : Song) (l : list Song) : list Song :=
  match l with
  | [] => [x]
  | y :: l' =>
    if String.leb (sort_key x) (sort_key y) then x :: y :: l'
    else y :: insert_by_key x l'
  end.

Definition sort_by_key (songs : list Song) : list Song :=
  foldr insert_by_key [] songs.

Definition get_playlist_songs (fuel : nat) (playlist_id : string) (youtube : World St)
    (σ : St) : option (list Song * St) :=
  match playlists_list_id youtube playlist_id σ with
  | (Raises _, σ) => Some ([], σ)
  | (Returns None, σ) => Some ([], σ)
  | (Returns (Some playlist_title), σ) =>
    '(playlist_items, σ) ← get_playlist_items fuel youtube playlist_id σ;
    match mapM song_info playlist_items with
    | None => Some ([], σ)
    | Some songs =>
      let songs := sort_by_key songs in
      match json_dump youtube "playlist_songs.json"
              (PlaylistSongs playlist_title (Z.of_nat (length songs)) songs) σ with
      | (Raises _, σ) => Some ([], σ)
      | (Returns _, σ) => Some (songs, σ)
      end
    end
  end.

(** *** [main] *)

(** [input(...).strip().lower() in ['s', 'y']]. *)
Definition confirms (answer : string) : bool :=
  let eliminar := lower (strip answer) in
  bool_decide (eliminar = "s") || bool_decide (eliminar = "y").

(** The program; the three answers are the lines typed at the prompts. *)
Definition main (fuel : nat) (auth : Auth) (youtube : World St)
    (playlist_answer eliminar_answer eliminar_youtube_answer : string) (σ : St)
    : option (outcome unit * St) :=
  match (get_youtube_client auth).2 with
  | Raises msg => Some (Raises msg, σ)
  | Returns (client, is_authenticated) =>
    if negb is_authenticated || negb (bool_decide (is_Some client))
    then Some (Returns (), σ)
    else
      let playlist_id := strip playlist_answer in
      if negb (truthy playlist_id) then Some (Returns (), σ)
      else
        '(songs, σ) ← get_playlist_songs fuel playlist_id youtube σ;
        if nonempty songs then
          let '(filtered_songs, removed_songs, σ) :=
            if confirms eliminar_answer then
              let '(filtered_songs, removed_songs) :=
                remove_similar_songs songs (8 # 10) (9 # 10) in
              if nonempty removed_songs && confirms eliminar_youtube_answer then
                let items_to_remove :=
                  (λ item, playlistItemId (cancion item)) <$> removed_songs in
                let '(success, failed, σ) :=
                  remove_videos_from_playlist youtube items_to_remove σ in
                (filtered_songs, removed_songs, σ)
              else (filtered_songs, removed_songs, σ)
            else (songs, [], σ) in
          if nonempty removed_songs then
            match json_dump youtube "playlist_songs_removed.json"
                    (RemovedSongs (Z.of_nat (length removed_songs)) removed_songs) σ with
            | (Raises msg, σ) => Some (Raises msg, σ)
            | (Returns _, σ) => Some (Returns (), σ)
            end
          else Some (Returns (), σ)
        else Some (Returns (), σ)
  end.

(** *** shazam_import.py: [add_songs_to_shazam_playlist] *)

(** The nested [get_playlist_video_ids]; a request that raises and an item
    without its video id end the call with the exception. *)
Fixpoint get_playlist_video_ids (fuel : nat) (youtube : World St) (playlist_id : string)
    (next_page_token : option string) (video_ids : gset string) (σ : St)
    : option (outcome (gset string) * St) :=
  match fuel with
  | O => None
  | S fuel =>
    match playlistItems_list youtube playlist_id next_page_token σ with
    | (Raises msg, σ) => Some (Raises msg, σ)
    | (Returns pl_response, σ) =>
      match mapM PlaylistItem.videoId (items pl_response) with
      | None => Some (Raises "'videoId'", σ)
      | Some ids =>
        let video_ids := video_ids ∪ list_to_set ids in
        let next_page_token := nextPageToken pl_response in
        if negb (from_option truthy false next_page_token)
        then Some (Returns video_ids, σ)
        else get_playlist_video_ids fuel youtube playlist_id next_page_token video_ids σ
      end
    end
  end.

(** The variables of the loop over the songs. *)
Record Progress := {
  playlist_video_ids : gset string;
  unmatched_songs : list (string * string * option string);
  failed_to_add_songs : list (string * string * string)
}.

(** [search_query = f"{title} {artist} music"]. *)
Definition search_query (title artist : string) : string :=
  title +:+ " " +:+ artist +:+ " music".

(** One round of [for idx, (title, artist) in enumerate(songs, 1)]. *)
Definition song_round (youtube : World St) (playlist_id : string)
    (st : Progress * St) (song : string * string) : Progress * St :=
  let '(title, artist) := song in
  let p := st.1 in
  match search_list youtube (search_query title artist) st.2 with
  | (Returns search_items, σ) =>
    match select_best title artist search_items with
    | Some best_video =>
      let video_id := videoId best_video in
      if bool_decide (video_id ∈ playlist_video_ids p) then (p, σ)
      else
        match playlistItems_insert youtube playlist_id video_id σ with
        | (Returns _, σ) =>
          ({| playlist_video_ids := playlist_video_ids p ∪ {[video_id]};
              unmatched_songs := unmatched_songs p;
              failed_to_add_songs := failed_to_add_songs p |}, σ)
        | (Raises _, σ) => (p, σ)
        end
    | None =>
      ({| playlist_video_ids := playlist_video_ids p;
          unmatched_songs := unmatched_songs p ++ [(title, artist, None)];
          failed_to_add_songs := failed_to_add_songs p |}, σ)
    end
  | (Raises error_str, σ) =>
    ({| playlist_video_ids := playlist_video_ids p;
        unmatched_songs := unmatched_songs p ++ [(title, artist, Some error_str)];
        failed_to_add_songs :=
          if mentions_quota error_str
          then failed_to_add_songs p ++ [(title, artist, error_str)]
          else failed_to_add_songs p |}, σ)
  end.

(** The function from line 219 on, [songs] being what
    [import_songs_from_csv] returned and [client_again] the second call of
    [get_youtube_client].  Line 349 reads [max_songs], a name that the
    module never binds. *)
Definition add_songs_to_shazam_playlist (fuel : nat) (songs : list (string * string))
    (yt : YouTube) (client_again : outcome bool) (youtube : World St) (σ : St)
    : option (outcome unit * St) :=
  match playlist_setup songs yt with
  | PlaylistReady playlist_id =>
    match client_again with
    | Raises msg => Some (Raises msg, σ)
    | Returns false => Some (Returns (), σ)
    | Returns true =>
      '(ids, σ) ← get_playlist_video_ids fuel youtube playlist_id None ∅ σ;
      match ids with
      | Raises msg => Some (Raises msg, σ)
      | Returns video_ids =>
        let '(p, σ) :=
          fold_left (song_round youtube playlist_id) songs
            ({| playlist_video_ids := video_ids; unmatched_songs := [];
                failed_to_add_songs := [] |}, σ) in
        if nonempty (unmatched_songs p) then
          match csv_write youtube "unmatched_songs.csv" [["Title"; "Artist"; "Error"]] σ with
          | (Raises msg, σ) => Some (Raises msg, σ)
          | (Returns _, σ) => Some (Raises "name 'max_songs' is not defined", σ)
          end
        else Some (Returns (), σ)
      end
    end
  | _ => Some (Returns (), σ)
  end.

End Programs.

(** ** The requests a program makes *)

(** A request as it is seen from outside. *)
Inductive Call : Type :=
  | PlaylistsList (id : string)
  | PlaylistItemsList (playlist_id : string) (page_token : option string)
  | PlaylistItemsDelete (id : string)
  | PlaylistItemsInsert (playlist_id video_id : string)
  | SearchList (q : string)
  | JsonDump (path : string) (doc : Document)
  | CsvWrite (path : string) (rows : list (list string)).

(** Whether a request was answered. *)
Definition succeeded {A : Type} (o : outcome A) : bool :=
  match o with Returns _ => true | Raises _ => false end.

(** The requests made so far, each with its success. *)
Abbreviation Log := (list (Call * bool)).

(** A request answered by [f] and written down as [c]. *)
Definition recorded {St A : Type} (c : Call) (f : St → outcome A * St)
    (σ : St * Log) : outcome A * (St * Log) :=
  let '(o, s) := f σ.1 in (o, (s, σ.2 ++ [(c, succeeded o)])).

(** The world [w] with a log beside its state: every request is answered
    as [w] answers it and is appended to the log with its success. *)
Definition logged {St : Type} (w : World St) : World (St * Log) :=
  {| playlists_list_id id := recorded (PlaylistsList id) (playlists_list_id w id);
     playlistItems_list pid tok :=
       recorded (PlaylistItemsList pid tok) (playlistItems_list w pid tok);
     playlistItems_delete id := recorded (PlaylistItemsDelete id) (playlistItems_delete w id);
     playlistItems_insert pid vid :=
       recorded (PlaylistItemsInsert pid vid) (playlistItems_insert w pid vid);
     search_list q := recorded (SearchList q) (search_list w q);
     json_dump path doc := recorded (JsonDump path doc) (json_dump w path doc);
     csv_write path rows := recorded (CsvWrite path rows) (csv_write w path rows) |}.

(** The queries searched and the videos added, read off a log. *)
Definition searches (calls : Log) : list string :=
  omap (λ c : Call * bool, match c.1 with SearchList q => Some q | _ => None end) calls.

Definition added (calls : Log) : list string :=
  omap (λ c : Call * bool,
          match c with (PlaylistItemsInsert _ video_id, true) => Some video_id | _ => None end)
       calls.

(** The insert requests with their success. *)
Definition inserts (calls : Log) : list (string * bool) :=
  omap (λ c : Call * bool,
          match c.1 with PlaylistItemsInsert _ video_id => Some (video_id, c.2) | _ => None end)
       calls.

(** The requests that read the playlist and save its songs. *)
Definition loading_call (c : Call) : bool :=
  match c with
  | PlaylistsList _ | PlaylistItemsList _ _ => true
  | JsonDump path _ => bool_decide (path = "playlist_songs.json")
  | _ => false
  end.


(** ** Further notions used in the statements *)

(** The songs are in the order of their keys. *)
Definition key_le (x y : Song) : Prop := String.leb (sort_key x) (sort_key y) = true.

(** The pages that the listing loop receives from state [σ] and token
    [tok] on: each page but the last carries a token, which the next
    request sends; the last page carries none, or the request after it
    raises ([error] tells which), and the world is left in [σ']. *)
Inductive pages_until {St : Type} (w : World St) (playlist_id : string)
    : option string → St → list Page → bool → St → Prop :=
  | pages_error tok σ msg σ' :
      playlistItems_list w playlist_id tok σ = (Raises msg, σ') →
      pages_until w playlist_id tok σ [] true σ'
  | pages_last tok σ p σ' :
      playlistItems_list w playlist_id tok σ = (Returns p, σ') →
      from_option truthy false (nextPageToken p) = false →
      pages_until w playlist_id tok σ [p] false σ'
  | pages_next tok σ p σ1 ps error σ' :
      playlistItems_list w playlist_id tok σ = (Returns p, σ1) →
      from_option truthy false (nextPageToken p) = true →
      pages_until w playlist_id (nextPageToken p) σ1 ps error σ' →
      pages_until w playlist_id tok σ (p :: ps) error σ'.

(** The number of [true] and of [false] in a list of results. *)
Definition count_of (b : bool) (results : list bool) : Z :=
  Z.of_nat (length (filter (λ r, r = b) results)).

(** The entry of [failed_to_add_songs] that goes with an unmatched song. *)
Definition quota_failure (u : string * string * option string)
    : option (string * string * string) :=
  match u.2 with
  | Some error_str => if mentions_quota error_str then Some (u.1.1, u.1.2, error_str) else None
  | None => None
  end.

(** ** Further sample data *)

(** A service on which a playlist with the wanted title already exists. *)
Definition service_with_playlist : YouTube :=
  {| client := Returns true;
     playlists_list := Returns [("PL7", "Road Trip"); ("PL8", "Shazam Songs")];
     playlists_insert := Returns "PL9" |}.

(** A service that found the set-up playlist. *)
Definition ready_service : YouTube :=
  {| client := Returns true;
     playlists_list := Returns [];
     playlists_insert := Returns "PL9" |}.

(** The playlist item of a song. *)
Definition item_of (s : Song) : PlaylistItem.t :=
  {| PlaylistItem.id := Some (playlistItemId s);
     PlaylistItem.videoId := Some (id s);
     PlaylistItem.title := Some (titulo s);
     PlaylistItem.videoOwnerChannelTitle := Some (artista s);
     PlaylistItem.channelTitle := Some "uploader" |}.

(** A playlist served in two pages, on a service that accepts every
    request; the state counts the requests. *)
Definition paged (first second : list PlaylistItem.t) : World nat :=
  {| playlists_list_id _ σ := (Returns (Some "Mix"), S σ);
     playlistItems_list _ tok σ :=
       (Returns match tok with
                | None => {| items := first; nextPageToken := Some "page2" |}
                | Some _ => {| items := second; nextPageToken := None |}
                end, S σ);
     playlistItems_delete _ σ := (Returns (), S σ);
     playlistItems_insert _ _ σ := (Returns (), S σ);
     search_list _ σ := (Returns candidates, S σ);
     json_dump _ _ σ := (Returns (), S σ);
     csv_write _ _ σ := (Returns (), S σ) |}.

Definition two_pages : World nat :=
  paged [item_of let_it_be; item_of hey_jude] [item_of hey_jude_lc].

(** An item without its video id, and a playlist that holds it. *)
Definition no_video_id : PlaylistItem.t :=
  {| PlaylistItem.id := Some "p9";
     PlaylistItem.videoId := None;
     PlaylistItem.title := Some "Private video";
     PlaylistItem.videoOwnerChannelTitle := None;
     PlaylistItem.channelTitle := Some "uploader" |}.

Definition with_no_video_id : World nat :=
  paged [item_of let_it_be; item_of hey_jude] [item_of hey_jude_lc; no_video_id].

(** The same playlist on a service whose second listing request fails. *)
Definition second_page_fails : World nat :=
  {| playlists_list_id _ σ := (Returns (Some "Mix"), S σ);
     playlistItems_list _ tok σ :=
       (match tok with
        | None => Returns {| items := [item_of let_it_be; item_of hey_jude];
                             nextPageToken := Some "page2" |}
        | Some _ => Raises "HttpError 500: backendError"
        end, S σ);
     playlistItems_delete _ σ := (Returns (), S σ);
     playlistItems_insert _ _ σ := (Returns (), S σ);
     search_list _ σ := (Returns candidates, S σ);
     json_dump _ _ σ := (Returns (), S σ);
     csv_write _ _ σ := (Returns (), S σ) |}.

(** What the program asks of [two_pages] when both questions are answered
    with yes. *)
Definition two_pages_log : Log :=
  [ (PlaylistsList "PL1", true);
    (PlaylistItemsList "PL1" None, true);
    (PlaylistItemsList "PL1" (Some "page2"), true);
    (JsonDump "playlist_songs.json"
       (PlaylistSongs "Mix" 3 [hey_jude; hey_jude_lc; let_it_be]), true);
    (PlaylistItemsDelete "p2", true);
    (JsonDump "playlist_songs_removed.json"
       (RemovedSongs 1 [evidence hey_jude_lc hey_jude]), true) ].

(** Valid stored credentials and a working [build]. *)
Definition valid_token : Auth :=
  {| token_pickle := Some (Returns {| Credentials.valid := true; Credentials.expired := false;
                                      Credentials.refresh_token := Some "r1" |});
     refresh c := Returns c;
     config_json := None;
     run_local_server _ _ := Raises "no browser";
     pickle_dump _ := Returns ();
     build _ := Returns () |}.

(** Stored credentials that are not valid and cannot be refreshed. *)
Definition stale_token : Auth :=
  {| token_pickle := Some (Returns {| Credentials.valid := false; Credentials.expired := true;
                                      Credentials.refresh_token := None |});
     refresh c := Returns c;
     config_json := Some (Returns (Some "id.apps.googleusercontent.com", Some "secret"));
     run_local_server _ _ :=
       Returns {| Credentials.valid := true; Credentials.expired := false;
                  Credentials.refresh_token := Some "r2" |};
     pickle_dump _ := Returns ();
     build _ := Returns () |}.

(** No stored credentials, and a configuration to log in with. *)
Definition first_login : Auth :=
  {| token_pickle := None;
     refresh c := Returns c;
     config_json := Some (Returns (Some "id.apps.googleusercontent.com", Some "secret"));
     run_local_server _ _ :=
       Returns {| Credentials.valid := true; Credentials.expired := false;
                  Credentials.refresh_token := Some "r2" |};
     pickle_dump _ := Returns ();
     build _ := Returns () |}.

(** A world whose searches fail from the third request on: the state
    counts the requests. *)
Definition quota_after_two : World nat :=
  {| playlists_list_id _ σ := (Returns (Some "Shazam Songs"), S σ);
     playlistItems_list _ _ σ :=
       (Returns {| items := [item_of let_it_be]; nextPageToken := None |}, S σ);
     playlistItems_delete _ σ := (Returns (), S σ);
     playlistItems_insert _ _ σ := (Returns (), S σ);
     search_list _ σ :=
       (if bool_decide (σ < 3)%nat then Returns candidates
        else Raises "HttpError 403: quotaExceeded", S σ);
     json_dump _ _ σ := (Returns (), S σ);
     csv_write _ _ σ := (Returns (), S σ) |}.

(** Two imported songs, and what the import asks of [quota_after_two]. *)
Definition two_songs : list (string * string) :=
  [("Hey Jude", "The Beatles"); ("Imagine", "John Lennon")].


(** ** Facts about the matcher *)

Module difflib_facts.

Import difflib.

Section MatcherBounds.

Variables a b : list ascii.

Lemma scan_row_box i alo ahi blo bhi js j2len newj2len best :
  alo ≤ i < ahi →
  lens_ok alo blo bhi i j2len →
  lens_ok alo blo bhi (i + 1) newj2len →
  in_box alo ahi blo bhi best →
  lens_ok alo blo bhi (i + 1) (scan_row i blo bhi js j2len newj2len best).1
  ∧ in_box alo ahi blo bhi (scan_row i blo bhi js j2len newj2len best).2.
Proof.
  intros Hi Hold. revert newj2len best.
  induction js as [|j js IH]; intros newj2len best Hnew Hbest; simpl; [done|].
  case_bool_decide as Hlo; [by apply IH|].
  case_bool_decide as Hhi; [done|].
  assert (1 ≤ default 0 (j2len !! (j - 1)) + 1
          ∧ default 0 (j2len !! (j - 1)) + 1 ≤ i + 1 - alo
          ∧ default 0 (j2len !! (j - 1)) + 1 ≤ j - blo + 1) as Hk.
  { destruct (j2len !! (j - 1)) as [v|] eqn:E; simpl; [|lia].
    apply Hold in E. lia. }
  apply IH.
  - intros j' v. rewrite lookup_insert. case_decide as Hj.
    + intros [= <-]. subst j'. lia.
    + apply Hnew.
  - case_bool_decide; [|done]. unfold in_box in *. simpl. lia.
Qed.

Lemma lens_ok_mono alo blo bhi i j2len :
  lens_ok alo blo bhi i j2len → lens_ok alo blo bhi (i + 1) j2len.
Proof. intros H j v Hj. apply H in Hj. lia. Qed.

Lemma row_step_box i alo ahi blo bhi (st : gmap Z Z * Match) :
  alo ≤ i < ahi →
  lens_ok alo blo bhi i st.1 → in_box alo ahi blo bhi st.2 →
  lens_ok alo blo bhi (i + 1) (row_step a b blo bhi st i).1
  ∧ in_box alo ahi blo bhi (row_step a b blo bhi st i).2.
Proof.
  intros Hi Hl Hb. unfold row_step. destruct (get a i) as [ai|].
  - apply (scan_row_box i alo ahi); [done..| |done].
    intros j v. by rewrite lookup_empty.
  - split; [by apply lens_ok_mono|done].
Qed.

Lemma rows_box (n : nat) i alo ahi blo bhi (st : gmap Z Z * Match) :
  alo ≤ i → i + Z.of_nat n ≤ ahi →
  lens_ok alo blo bhi i st.1 → in_box alo ahi blo bhi st.2 →
  in_box alo ahi blo bhi (fold_left (row_step a b blo bhi) (seqZ i (Z.of_nat n)) st).2.
Proof.
  revert i st. induction n as [|n IH]; intros i st Hlo Hhi Hl Hb.
  - by rewrite seqZ_nil.
  - rewrite seqZ_cons by lia. simpl.
    replace (Z.pred (Z.of_nat (S n))) with (Z.of_nat n) by lia.
    destruct (row_step_box i alo ahi blo bhi st) as [Hl' Hb']; [lia|done..|].
    apply IH; [lia|lia|done..].
Qed.

Lemma extend_left_box fuel junk alo ahi blo bhi m :
  in_box alo ahi blo bhi m → in_box alo ahi blo bhi (extend_left a b fuel junk alo blo m).
Proof.
  revert m. induction fuel as [|fuel IH]; intros [[bi bj] bs] Hm; simpl; [done|].
  destruct (_ && _) eqn:G; [|done].
  apply IH. rewrite !andb_true_iff, !bool_decide_eq_true in G.
  unfold in_box in *. simpl in *. lia.
Qed.

Lemma extend_right_box fuel junk alo ahi blo bhi m :
  in_box alo ahi blo bhi m → in_box alo ahi blo bhi (extend_right a b fuel junk ahi bhi m).
Proof.
  revert m. induction fuel as [|fuel IH]; intros [[bi bj] bs] Hm; simpl; [done|].
  destruct (_ && _) eqn:G; [|done].
  apply IH. rewrite !andb_true_iff, !bool_decide_eq_true in G.
  unfold in_box in *. simpl in *. lia.
Qed.

Lemma find_longest_match_box alo ahi blo bhi :
  alo ≤ ahi → blo ≤ bhi →
  in_box alo ahi blo bhi (find_longest_match a b alo ahi blo bhi).
Proof.
  intros Ha Hb. unfold find_longest_match.
  apply extend_right_box, extend_left_box, extend_right_box, extend_left_box.
  replace (ahi - alo) with (Z.of_nat (Z.to_nat (ahi - alo))) by lia.
  apply rows_box; simpl; [lia|lia| |].
  - intros j v. by rewrite lookup_empty.
  - unfold in_box. simpl. lia.
Qed.

End MatcherBounds.

Lemma sum_sizes_app l1 l2 : sum_sizes (l1 ++ l2) = sum_sizes l1 + sum_sizes l2.
Proof. induction l1 as [|m l1 IH]; simpl; [done|]. rewrite IH. lia. Qed.

Lemma queue_cost_app q1 q2 : queue_cost (q1 ++ q2) = queue_cost q1 + queue_cost q2.
Proof. unfold queue_cost. induction q1 as [|w q1 IH]; simpl; [done|]. rewrite IH. lia. Qed.

Lemma queue_cost_nonneg q : Forall window_ok q → 0 ≤ queue_cost q.
Proof.
  induction 1 as [|w q Hw _ IH]; simpl; [done|].
  unfold window_cost, window_ok in *. fold (queue_cost q). lia.
Qed.

Lemma optional_window (c : bool) (w : Z * Z * Z * Z) (cost : Z) :
  (c = true → window_ok w ∧ window_cost w ≤ cost) → 0 ≤ cost →
  Forall window_ok (if c then [w] else [])
  ∧ queue_cost (if c then [w] else []) ≤ cost.
Proof.
  intros H Hc. destruct c; simpl.
  - destruct H as (H1 & H2); [done|].
    split; [apply Forall_cons_2; [done|constructor]|lia].
  - split; [constructor|lia].
Qed.

Section QueueLoop.

Variables a b : list ascii.

Lemma queue_loop_nil fuel blocks : queue_loop a b fuel [] blocks = Some blocks.
Proof. by destruct fuel. Qed.

(** The queue loop empties its queue within the rounds that [queue_cost]
    counts: every round that finds a block replaces a window by windows of
    smaller total extent. *)
Lemma queue_loop_total fuel queue blocks :
  Forall window_ok queue →
  queue_cost queue ≤ Z.of_nat fuel →
  is_Some (queue_loop a b fuel queue blocks).
Proof.
  revert queue blocks. induction fuel as [|fuel IH]; intros queue blocks Hok Hcost.
  - destruct queue as [|w queue]; [done|].
    exfalso. apply Forall_cons in Hok as [Hw Hq].
    apply queue_cost_nonneg in Hq. simpl in Hcost. fold (queue_cost queue) in Hcost.
    unfold window_cost, window_ok in *. lia.
  - destruct queue as [|[[[alo ahi] blo] bhi] queue]; [done|].
    apply Forall_cons in Hok as [Hw Hq]. unfold window_ok in Hw. simpl in Hw.
    simpl in Hcost. fold (queue_cost queue) in Hcost. unfold window_cost in Hcost.
    simpl in Hcost.
    pose proof (find_longest_match_box a b alo ahi blo bhi) as Hbox.
    simpl. destruct (find_longest_match a b alo ahi blo bhi) as [[i j] k].
    unfold in_box in Hbox. simpl in Hbox.
    destruct Hbox as (H1 & H2 & H3 & H4 & H5); [lia..|].
    case_bool_decide as Hk.
    + destruct (optional_window (bool_decide (alo < i) && bool_decide (blo < j))
                  (alo, i, blo, j) (2 * (i - alo) + 1)) as (Hq1 & Hc1); [|lia|].
      { rewrite andb_true_iff, !bool_decide_eq_true.
        unfold window_ok, window_cost. simpl. lia. }
      destruct (optional_window (bool_decide (i + k < ahi) && bool_decide (j + k < bhi))
                  (i + k, ahi, j + k, bhi) (2 * (ahi - (i + k)) + 1))
        as (Hq2 & Hc2); [|lia|].
      { rewrite andb_true_iff, !bool_decide_eq_true.
        unfold window_ok, window_cost. simpl. lia. }
      apply IH; [by repeat apply Forall_app_2|].
      rewrite !queue_cost_app. lia.
    + apply IH; [done|lia].
Qed.

End QueueLoop.

Lemma sum_sizes_insert_sorted x l : sum_sizes (insert_sorted x l) = size x + sum_sizes l.
Proof.
  induction l as [|y l IH]; simpl; [done|].
  destruct (match_le x y); simpl; [done|]. rewrite IH. lia.
Qed.

Lemma sum_sizes_sort l : sum_sizes (sort l) = sum_sizes l.
Proof.
  induction l as [|x l IH]; simpl; [done|].
  by rewrite sum_sizes_insert_sorted, IH.
Qed.

Lemma collapse_fold_sum blocks (st : Match * list Match) :
  let st' := fold_left collapse_step blocks st in
  st'.1.2 + sum_sizes st'.2 = st.1.2 + sum_sizes st.2 + sum_sizes blocks.
Proof.
  revert st. induction blocks as [|[[i2 j2] k2] blocks IH]; intros [[[i1 j1] k1] na]; simpl.
  - lia.
  - rewrite IH. destruct (_ && _); simpl.
    + unfold size. simpl. lia.
    + case_bool_decide as Hk; simpl.
      * rewrite sum_sizes_app. unfold size. simpl. lia.
      * unfold size. simpl. lia.
Qed.

Lemma sum_sizes_collapse blocks : sum_sizes (collapse blocks) = sum_sizes blocks.
Proof.
  unfold collapse.
  pose proof (collapse_fold_sum blocks ((0, 0, 0), [])) as H. simpl in H.
  destruct (fold_left collapse_step blocks ((0, 0, 0), [])) as [[[i1 j1] k1] na].
  simpl in H. case_bool_decide as Hk.
  - rewrite sum_sizes_app. simpl. unfold size. simpl. lia.
  - lia.
Qed.

Lemma get_Some_range (s : list ascii) j c : get s j = Some c → 0 ≤ j < Z.of_nat (length s).
Proof.
  unfold get. case_bool_decide; [|done]. intros Hl%lookup_lt_Some. lia.
Qed.

Lemma get_in_range (s : list ascii) j : 0 ≤ j < Z.of_nat (length s) → is_Some (get s j).
Proof.
  intros H. unfold get. rewrite bool_decide_eq_true_2 by lia.
  apply lookup_lt_is_Some. lia.
Qed.

Lemma get_snoc (s : list ascii) x j c :
  get (s ++ [x]) j = Some c ↔ get s j = Some c ∨ (j = Z.of_nat (length s) ∧ c = x).
Proof.
  unfold get. case_bool_decide as Hj; [|naive_solver lia].
  destruct (decide (Z.to_nat j < length s)%nat) as [Hlt|Hge].
  - rewrite lookup_app_l by done. naive_solver lia.
  - rewrite lookup_app_r by lia. rewrite (lookup_ge_None_2 s) by lia.
    destruct (Z.to_nat j - length s)%nat as [|k] eqn:E; simpl.
    + split; [intros [= ->]; right; split; [lia|done]|].
      intros [?|[_ ->]]; done.
    + split; [done|]. intros [?|[-> _]]; [done|lia].
Qed.

Lemma enumerate_snoc {A} (l : list A) x :
  enumerate (l ++ [x]) = enumerate l ++ [(Z.of_nat (length l), x)].
Proof.
  unfold enumerate. rewrite length_app. simpl.
  replace (Z.of_nat (length l + 1)) with (Z.of_nat (length l) + 1) by lia.
  rewrite seqZ_app by lia. rewrite zip_with_app.
  - rewrite (seqZ_cons _ 1) by lia. rewrite (seqZ_nil _ (Z.pred 1)) by lia. simpl. by rewrite Z.add_0_l.
  - rewrite length_seqZ. lia.
Qed.

Lemma b2j_full_snoc (b : list ascii) x :
  b2j_full (b ++ [x]) = chain_b_step (b2j_full b) (Z.of_nat (length b), x).
Proof. unfold b2j_full. by rewrite enumerate_snoc, fold_left_app. Qed.

Lemma b2j_full_ok (b : list ascii) :
  index_ok b (b2j_full b) ∧ ∀ j c, get b j = Some c → is_Some (b2j_full b !! c).
Proof.
  induction b as [|x b [IH1 IH2]] using rev_ind.
  - split.
    + intros c js. unfold b2j_full. simpl. by rewrite lookup_empty.
    + intros j c H. apply get_Some_range in H. simpl in H. lia.
  - rewrite b2j_full_snoc. unfold chain_b_step. simpl. split.
    + intros c js. rewrite lookup_insert. case_decide as Hc.
      * subst c. intros [= <-].
        destruct (b2j_full b !! x) as [old|] eqn:E; simpl.
        -- destruct (IH1 x old E) as [Hs Hm]. split.
           ++ apply StronglySorted_app_2; [|done|repeat constructor].
              intros x1 x2 H1%Hm%get_Some_range ->%list_elem_of_singleton. lia.
           ++ intros j. rewrite elem_of_app, list_elem_of_singleton, get_snoc, Hm.
              naive_solver.
        -- split; [repeat constructor|].
           intros j. rewrite list_elem_of_singleton, get_snoc. split; [naive_solver|].
           intros [H|[-> _]]; [|done]. apply IH2 in H. rewrite E in H. by destruct H.
      * intros E. destruct (IH1 c js E) as [Hs Hm]. split; [done|].
        intros j. rewrite get_snoc, Hm. naive_solver.
    + intros j c [H|[-> ->]]%get_snoc.
      * rewrite lookup_insert. case_decide; [done|]. by eapply IH2.
      * by rewrite lookup_insert_eq.
Qed.

Lemma chain_b_ok (b : list ascii) : index_ok b (chain_b b).
Proof.
  intros c js H. unfold chain_b in H.
  apply map_lookup_filter_Some in H as [H _].
  by apply b2j_full_ok.
Qed.

Section Run.

Variables (b2j : gmap ascii (list Z)) (s : list ascii).

Lemma run_to_nonneg r : 0 ≤ run_to b2j s r.
Proof.
  induction r as [|r IH]; simpl; destruct (s !! _); try case_bool_decide; lia.
Qed.

Lemma run_nonneg j : 0 ≤ run b2j s j.
Proof. unfold run. case_bool_decide; [apply run_to_nonneg|done]. Qed.

Lemma run_step j c :
  get s j = Some c → is_Some (b2j !! c) → run b2j s j = run b2j s (j - 1) + 1.
Proof.
  intros Hg Hc. pose proof (get_Some_range _ _ _ Hg) as Hj.
  unfold get in Hg. unfold run. rewrite !bool_decide_eq_true_2 in * by lia.
  destruct (Z.to_nat j) as [|r] eqn:E; simpl; rewrite Hg, bool_decide_eq_true_2 by done.
  - rewrite bool_decide_eq_false_2 by lia. done.
  - rewrite bool_decide_eq_true_2 by lia.
    replace (Z.to_nat (j - 1)) with r by lia. done.
Qed.

Lemma run_popular j c : get s j = Some c → b2j !! c = None → run b2j s j = 0.
Proof.
  intros Hg Hc. pose proof (get_Some_range _ _ _ Hg) as Hj.
  unfold get in Hg. unfold run. rewrite !bool_decide_eq_true_2 in * by lia.
  destruct (Z.to_nat j) as [|r] eqn:E; simpl; rewrite Hg, bool_decide_eq_false_2; try done.
  all: rewrite Hc; by intros [].
Qed.

End Run.

Section ScanRow.

Variables (i blo bhi : Z) (j2len : gmap Z Z).

Local Abbreviation klen := (λ j : Z, default 0 (j2len !! (j - 1)) + 1).

Lemma scan_row_app js1 js2 newj2len best :
  (∀ j, j ∈ js1 → blo ≤ j < bhi) →
  scan_row i blo bhi (js1 ++ js2) j2len newj2len best
  = scan_row i blo bhi js2 j2len
      (scan_row i blo bhi js1 j2len newj2len best).1
      (scan_row i blo bhi js1 j2len newj2len best).2.
Proof.
  revert newj2len best. induction js1 as [|j js1 IH]; intros newj2len best Hr; simpl.
  - done.
  - assert (blo ≤ j < bhi) as Hj by (apply Hr; left).
    rewrite !bool_decide_eq_false_2 by lia.
    apply IH. intros j' Hj'. apply Hr. by right.
Qed.

Lemma scan_row_lookup js newj2len best j :
  (∀ j, j ∈ js → blo ≤ j < bhi) →
  (scan_row i blo bhi js j2len newj2len best).1 !! j
  = if decide (j ∈ js) then Some (klen j) else newj2len !! j.
Proof.
  revert newj2len best. induction js as [|j0 js IH]; intros newj2len best Hr; cbn [scan_row fst].
  - rewrite decide_False; [done|]. apply not_elem_of_nil.
  - assert (blo ≤ j0 < bhi) as Hj by (apply Hr; left).
    rewrite !bool_decide_eq_false_2 by lia.
    rewrite IH by (intros j' Hj'; apply Hr; by right).
    destruct (decide (j ∈ js)) as [Hin|Hnin].
    + rewrite decide_True; [done|by right].
    + rewrite lookup_insert. destruct (decide (j0 = j)) as [->|Hne].
      * rewrite decide_True; [done|by left].
      * rewrite decide_False; [done|]. intros [->|?]%elem_of_cons; done.
Qed.

Lemma scan_row_keep js newj2len best :
  (∀ j, j ∈ js → blo ≤ j < bhi ∧ klen j ≤ best.2) →
  (scan_row i blo bhi js j2len newj2len best).2 = best.
Proof.
  revert newj2len. induction js as [|j0 js IH]; intros newj2len Hr; simpl.
  - done.
  - destruct (Hr j0) as [Hj Hk]; [left|].
    rewrite !bool_decide_eq_false_2 by lia.
    apply IH. intros j' Hj'. apply Hr. by right.
Qed.

End ScanRow.

Section SelfMatch.

Variable s : list ascii.

Local Abbreviation n := (Z.of_nat (length s)).
Local Abbreviation runs := (run (chain_b s) s).

Lemma row_step_diag i (st : gmap Z Z * Match) :
  0 ≤ i < n → diag_ok s i st → diag_ok s (i + 1) (row_step s s 0 n st i).
Proof.
  intros Hi (Hd & Hbs & Hrows & Hprev & Hdiag). unfold row_step.
  destruct (get_in_range s i Hi) as [ai Hai]. rewrite Hai.
  destruct st as [j2len [[bi bj] bs]]. simpl in *. subst bj.
  unfold diag_ok. replace (i + 1 - 1) with i by lia.
  destruct (chain_b s !! ai) as [js|] eqn:Hjs; simpl.
  - destruct (chain_b_ok s ai js Hjs) as [Hsorted Hmem].
    assert (∀ j, j ∈ js → 0 ≤ j < n) as Hrange.
    { intros j Hj%Hmem. by eapply get_Some_range. }
    assert (∀ j, j ∈ js →
              default 0 (j2len !! (j - 1)) + 1 ≤ runs j
              ∧ default 0 (j2len !! (j - 1)) + 1 ≤ runs i) as Hk.
    { intros j Hj%Hmem.
      rewrite (run_step _ _ j ai), (run_step _ _ i ai) by done.
      destruct (j2len !! (j - 1)) as [v|] eqn:E; simpl.
      - apply Hprev in E. lia.
      - pose proof (run_nonneg (chain_b s) s (j - 1)).
        pose proof (run_nonneg (chain_b s) s (i - 1)). lia. }
    assert (i ∈ js) as Hin by by apply Hmem.
    apply list_elem_of_split in Hin as (js1 & js2 & ->).
    apply StronglySorted_app in Hsorted as (Hlt & _ & Hs2).
    apply StronglySorted_cons in Hs2 as [Hgt _]. rewrite Forall_forall in Hgt.
    assert (∀ j, j ∈ js1 → j < i) as Hjs1.
    { intros j Hj. apply (Hlt j i); [done|left]. }
    assert (∀ j, j ∈ js1 → 0 ≤ j < n) as Hr1.
    { intros j Hj. apply Hrange, elem_of_app. by left. }
    assert (∀ j, j ∈ js2 → 0 ≤ j < n) as Hr2.
    { intros j Hj. apply Hrange, elem_of_app. right. by right. }
    split_and!.
    + rewrite scan_row_app by done.
      rewrite (scan_row_keep i 0 n j2len js1).
      2:{ intros j Hj. split; [by apply Hr1|]. simpl.
          destruct (Hk j) as [Hkj _]; [apply elem_of_app; by left|].
          pose proof (Hrows j). pose proof (Hr1 j Hj). pose proof (Hjs1 j Hj). lia. }
      cbn [scan_row]. rewrite !bool_decide_eq_false_2 by lia.
      rewrite scan_row_keep.
      * simpl; case_bool_decide; simpl; [lia|done].
      * intros j Hj. split; [by apply Hr2|].
        destruct (Hk j) as [_ Hki]; [apply elem_of_app; right; by right|].
        rewrite (run_step _ _ i ai), <- Hdiag in Hki by done.
        simpl; case_bool_decide; simpl; lia.
    + rewrite scan_row_app by done.
      rewrite (scan_row_keep i 0 n j2len js1).
      2:{ intros j Hj. split; [by apply Hr1|]. simpl.
          destruct (Hk j) as [Hkj _]; [apply elem_of_app; by left|].
          pose proof (Hrows j). pose proof (Hr1 j Hj). pose proof (Hjs1 j Hj). lia. }
      cbn [scan_row]. rewrite !bool_decide_eq_false_2 by lia.
      rewrite scan_row_keep.
      * simpl; case_bool_decide; simpl; lia.
      * intros j Hj. split; [by apply Hr2|].
        destruct (Hk j) as [_ Hki]; [apply elem_of_app; right; by right|].
        rewrite (run_step _ _ i ai), <- Hdiag in Hki by done.
        simpl; case_bool_decide; simpl; lia.
    + intros r Hr.
      rewrite scan_row_app by done.
      rewrite (scan_row_keep i 0 n j2len js1).
      2:{ intros j Hj. split; [by apply Hr1|]. simpl.
          destruct (Hk j) as [Hkj _]; [apply elem_of_app; by left|].
          pose proof (Hrows j). pose proof (Hr1 j Hj). pose proof (Hjs1 j Hj). lia. }
      cbn [scan_row]. rewrite !bool_decide_eq_false_2 by lia.
      rewrite scan_row_keep.
      * destruct (decide (r = i)) as [->|Hne].
        -- rewrite (run_step _ _ i ai), <- Hdiag by done.
           simpl; case_bool_decide; simpl; lia.
        -- assert (runs r ≤ bs) by (apply Hrows; lia).
           simpl; case_bool_decide; simpl; lia.
      * intros j Hj. split; [by apply Hr2|].
        destruct (Hk j) as [_ Hki]; [apply elem_of_app; right; by right|].
        rewrite (run_step _ _ i ai), <- Hdiag in Hki by done.
        simpl; case_bool_decide; simpl; lia.
    + intros j v. rewrite scan_row_lookup by done.
      case_decide as Hj; [|by rewrite lookup_empty].
      intros [= <-]. by apply Hk.
    + rewrite scan_row_lookup by done.
      rewrite decide_True by (apply elem_of_app; right; left).
      simpl. rewrite (run_step _ _ i ai) by done. lia.
  - split_and!; [done|done| | |].
    + intros r Hr. destruct (decide (r = i)) as [->|Hne].
      * rewrite (run_popular _ _ i ai) by done. done.
      * apply Hrows. lia.
    + intros j v. by rewrite lookup_empty.
    + rewrite lookup_empty. simpl. by rewrite (run_popular _ _ i ai).
Qed.

Lemma rows_diag (k : nat) i (st : gmap Z Z * Match) :
  0 ≤ i → i + Z.of_nat k ≤ n → diag_ok s i st →
  diag_ok s (i + Z.of_nat k) (fold_left (row_step s s 0 n) (seqZ i (Z.of_nat k)) st).
Proof.
  revert i st. induction k as [|k IH]; intros i st Hlo Hhi Hst.
  - rewrite seqZ_nil by lia. simpl. by rewrite Z.add_0_r.
  - rewrite seqZ_cons by lia. simpl.
    replace (Z.pred (Z.of_nat (S k))) with (Z.of_nat k) by lia.
    replace (i + Z.of_nat (S k)) with (Z.succ i + Z.of_nat k) by lia.
    apply IH; [lia|lia|].
    replace (Z.succ i) with (i + 1) by lia. apply row_step_diag; [lia|done].
Qed.

Lemma extend_left_self (fuel : nat) bi bs :
  Z.of_nat fuel = bi → 0 ≤ bs → bi + bs ≤ n →
  extend_left s s fuel false 0 0 (bi, bi, bs) = (0, 0, bs + bi).
Proof.
  revert bi bs. induction fuel as [|fuel IH]; intros bi bs Hf H0 Hn; simpl.
  - assert (bi = 0) as -> by lia. by rewrite Z.add_0_r.
  - rewrite !bool_decide_eq_true_2 by lia. unfold junk_is, same_elt.
    destruct (get_in_range s (bi - 1)) as [c ->]; [lia|].
    unfold isbjunk, bjunk. rewrite !bool_decide_eq_true_2; [|done|].
    + simpl. rewrite IH by lia. f_equal; lia.
    + apply bool_decide_eq_false_2. apply not_elem_of_empty.
Qed.

Lemma extend_right_self (fuel : nat) bs :
  0 ≤ bs → Z.of_nat fuel = n - bs →
  extend_right s s fuel false n n (0, 0, bs) = (0, 0, n).
Proof.
  revert bs. induction fuel as [|fuel IH]; intros bs H0 Hf; simpl.
  - f_equal; lia.
  - rewrite !bool_decide_eq_true_2 by lia. unfold junk_is, same_elt.
    rewrite !Z.add_0_l.
    destruct (get_in_range s bs) as [c ->]; [lia|].
    unfold isbjunk, bjunk. rewrite !bool_decide_eq_true_2; [|done|].
    + simpl. rewrite IH by lia. done.
    + apply bool_decide_eq_false_2. apply not_elem_of_empty.
Qed.

(** Matched against itself, a sequence is one block. *)
Lemma find_longest_match_self : find_longest_match s s 0 n 0 n = (0, 0, n).
Proof.
  unfold find_longest_match.
  pose proof (rows_diag (length s) 0 (∅, (0, 0, 0))) as Hd.
  pose proof (rows_box s s (length s) 0 0 n 0 n (∅, (0, 0, 0))) as Hb.
  rewrite Z.sub_0_r.
  destruct (fold_left (row_step s s 0 n) (seqZ 0 n) (∅, (0, 0, 0))) as [j2len [[bi bj] bs]].
  destruct Hd as (Hdiag & _); [lia|lia| |].
  { unfold diag_ok. simpl. split_and!; [done|done|intros; lia| |].
    - intros j v. by rewrite lookup_empty.
    - done. }
  destruct Hb as (H1 & H2 & H3 & H4 & H5); [lia|lia| | |].
  { intros j v. simpl. by rewrite lookup_empty. }
  { unfold in_box. simpl. lia. }
  simpl in *. subst bj.
  rewrite extend_left_self by (unfold left_fuel; simpl; lia).
  rewrite extend_right_self by (unfold right_fuel; simpl; lia).
  unfold left_fuel, right_fuel. simpl.
  replace (Z.to_nat (0 - 0)) with 0%nat by lia.
  replace (Z.to_nat (n - (0 + n))) with 0%nat by lia. done.
Qed.

Lemma get_matching_blocks_self :
  option_map sum_sizes (get_matching_blocks s s) = Some n.
Proof.
  unfold get_matching_blocks, queue_fuel. simpl.
  rewrite find_longest_match_self. case_bool_decide as Hn; simpl.
  - rewrite (bool_decide_eq_false_2 (0 + n < n)) by lia. simpl.
    rewrite queue_loop_nil. simpl.
    unfold collapse. simpl. rewrite bool_decide_eq_true_2 by lia. simpl.
    unfold size. simpl. f_equal. lia.
  - rewrite queue_loop_nil. simpl. f_equal. unfold size. simpl. lia.
Qed.

Lemma ratio_self : (ratio s s == 1)%Q.
Proof.
  unfold ratio, ratio_opt.
  pose proof get_matching_blocks_self as H.
  destruct (get_matching_blocks s s) as [blocks|]; [|done].
  simpl in *. injection H as ->.
  unfold calculate_ratio. case_bool_decide as Hn; [|done].
  replace 2%Q with (inject_Z 2) by done.
  rewrite <- inject_Z_mult.
  replace (n + n) with (2 * n) in * by lia.
  apply Qmult_inv_r. change 0%Q with (inject_Z 0). rewrite inject_Z_injective. lia.
Qed.

End SelfMatch.

Section MatcherBlocks.

Variables a b : list ascii.

Lemma scan_row_match i ai blo bhi js j2len newj2len best :
  get a i = Some ai →
  (∀ j, j ∈ js → get b j = Some ai) →
  lens_match a b i j2len →
  lens_match a b (i + 1) newj2len →
  is_match a b best →
  lens_match a b (i + 1) (scan_row i blo bhi js j2len newj2len best).1
  ∧ is_match a b (scan_row i blo bhi js j2len newj2len best).2.
Proof.
  intros Hai Hjs Hold. revert newj2len best.
  induction js as [|j js IH]; intros newj2len best Hnew Hbest; simpl; [done|].
  assert (∀ j', j' ∈ js → get b j' = Some ai) as Hjs' by (intros; apply Hjs; by right).
  assert (get b j = Some ai) as Hbj by (apply Hjs; left).
  case_bool_decide as Hlo; [by apply IH|].
  case_bool_decide as Hhi; [done|].
  set (k := default 0 (j2len !! (j - 1)) + 1).
  assert (∀ t, 0 ≤ t < k → ∃ c, get a (i - t) = Some c ∧ get b (j - t) = Some c) as Hk.
  { intros t Ht. destruct (decide (t = 0)) as [->|Hne].
    - exists ai. by rewrite !Z.sub_0_r.
    - subst k. destruct (j2len !! (j - 1)) as [v|] eqn:E; simpl in Ht; [|lia].
      destruct (Hold _ _ E (t - 1)) as (c & H1 & H2); [lia|].
      exists c. split; [rewrite <- H1|rewrite <- H2]; f_equal; lia. }
  apply IH; [done| |].
  - intros j' v. rewrite lookup_insert. case_decide as Hj.
    + intros [= <-]. subst j'. intros t Ht.
      destruct (Hk t Ht) as (c & H1 & H2).
      exists c. split; [rewrite <- H1; f_equal; lia|done].
    + apply Hnew.
  - case_bool_decide; [|done]. intros t Ht. simpl in *.
    destruct (Hk (k - 1 - t)) as (c & H1 & H2); [lia|].
    exists c. split; [rewrite <- H1|rewrite <- H2]; f_equal; lia.
Qed.

Lemma row_step_match i blo bhi (st : gmap Z Z * Match) :
  0 ≤ i < Z.of_nat (length a) →
  lens_match a b i st.1 → is_match a b st.2 →
  lens_match a b (i + 1) (row_step a b blo bhi st i).1
  ∧ is_match a b (row_step a b blo bhi st i).2.
Proof.
  intros Hi Hl Hb. unfold row_step.
  destruct (get_in_range a i Hi) as [ai Hai]. rewrite Hai.
  apply (scan_row_match i ai); [done| |done| |done].
  - intros j Hj. destruct (chain_b b !! ai) as [js|] eqn:E; simpl in Hj.
    + by apply (chain_b_ok b ai js E).
    + by apply elem_of_nil in Hj.
  - intros j v. by rewrite lookup_empty.
Qed.

Lemma rows_match (n : nat) i blo bhi (st : gmap Z Z * Match) :
  0 ≤ i → i + Z.of_nat n ≤ Z.of_nat (length a) →
  lens_match a b i st.1 → is_match a b st.2 →
  is_match a b (fold_left (row_step a b blo bhi) (seqZ i (Z.of_nat n)) st).2.
Proof.
  revert i st. induction n as [|n IH]; intros i st Hlo Hhi Hl Hb.
  - by rewrite seqZ_nil.
  - rewrite seqZ_cons by lia. simpl.
    replace (Z.pred (Z.of_nat (S n))) with (Z.of_nat n) by lia.
    destruct (row_step_match i blo bhi st) as [Hl' Hb']; [lia|done..|].
    apply IH; [lia|lia|by replace (Z.succ i) with (i + 1) by lia|done].
Qed.

Lemma same_elt_Some x y :
  same_elt a b x y = true → ∃ c, get a x = Some c ∧ get b y = Some c.
Proof.
  unfold same_elt. destruct (get a x) as [c|], (get b y) as [d|]; try done.
  intros ->%bool_decide_eq_true. by exists d.
Qed.

Lemma extend_left_match fuel junk alo blo m :
  is_match a b m → is_match a b (extend_left a b fuel junk alo blo m).
Proof.
  revert m. induction fuel as [|fuel IH]; intros [[bi bj] bs] Hm; simpl; [done|].
  destruct (_ && _) eqn:G; [|done].
  apply IH. rewrite !andb_true_iff in G. destruct G as [_ (c & H1 & H2)%same_elt_Some].
  intros t Ht. simpl in *. destruct (decide (t = 0)) as [->|Hne].
  - exists c. by rewrite !Z.add_0_r.
  - destruct (Hm (t - 1)) as (d & H3 & H4); [simpl; lia|]. simpl in *.
    exists d. split; [rewrite <- H3|rewrite <- H4]; f_equal; lia.
Qed.

Lemma extend_right_match fuel junk ahi bhi m :
  is_match a b m → is_match a b (extend_right a b fuel junk ahi bhi m).
Proof.
  revert m. induction fuel as [|fuel IH]; intros [[bi bj] bs] Hm; simpl; [done|].
  destruct (_ && _) eqn:G; [|done].
  apply IH. rewrite !andb_true_iff in G. destruct G as [_ (c & H1 & H2)%same_elt_Some].
  intros t Ht. simpl in *. destruct (decide (t = bs)) as [->|Hne].
  - by exists c.
  - apply Hm. simpl. lia.
Qed.

(** The block that [find_longest_match] answers pairs equal elements. *)
Lemma find_longest_match_match alo ahi blo bhi :
  0 ≤ alo → alo ≤ ahi → ahi ≤ Z.of_nat (length a) →
  is_match a b (find_longest_match a b alo ahi blo bhi).
Proof.
  intros H0 H1 H2. unfold find_longest_match.
  apply extend_right_match, extend_left_match, extend_right_match, extend_left_match.
  replace (ahi - alo) with (Z.of_nat (Z.to_nat (ahi - alo))) by lia.
  apply rows_match; simpl; [lia|lia| |].
  - intros j v. by rewrite lookup_empty.
  - intros t Ht. simpl in Ht. lia.
Qed.

End MatcherBlocks.

Lemma queue_room_a_app q1 q2 : queue_room_a (q1 ++ q2) = queue_room_a q1 + queue_room_a q2.
Proof. unfold queue_room_a. induction q1 as [|w q1 IH]; simpl; [done|]. rewrite IH. lia. Qed.

Lemma queue_room_b_app q1 q2 : queue_room_b (q1 ++ q2) = queue_room_b q1 + queue_room_b q2.
Proof. unfold queue_room_b. induction q1 as [|w q1 IH]; simpl; [done|]. rewrite IH. lia. Qed.

Lemma window_in_ok a b w : window_in a b w → window_ok w.
Proof. unfold window_in, window_ok. lia. Qed.

(** An optional queue entry, pushed under the guard [c]: when it is not
    pushed it has no room, and then it delimits two empty segments. *)
Lemma optional_window_in (a b : list ascii) (c : bool) (w : Z * Z * Z * Z) :
  0 ≤ w.1.1.2 - w.1.1.1 → 0 ≤ w.2 - w.1.2 →
  (c = true → window_in a b w) →
  (c = false → w.1.1.2 - w.1.1.1 = 0 ∨ w.2 - w.1.2 = 0) →
  Forall (window_in a b) (if c then [w] else [])
  ∧ 0 ≤ queue_room_a (if c then [w] else []) ≤ w.1.1.2 - w.1.1.1
  ∧ 0 ≤ queue_room_b (if c then [w] else []) ≤ w.2 - w.1.2
  ∧ (queue_room_a (if c then [w] else []) = w.1.1.2 - w.1.1.1 →
     queue_room_b (if c then [w] else []) = w.2 - w.1.2 →
     Forall (seg_eq a b) (if c then [w] else []) → seg_eq a b w).
Proof.
  intros Ha Hb Ht Hf. destruct c; simpl.
  - split_and!; [apply Forall_cons_2; [by apply Ht|constructor]|lia..|].
    intros _ _ Hs. by apply Forall_cons in Hs as [Hs _].
  - split_and!; [constructor|lia..|].
    intros Ea Eb _. split; [lia|]. intros t Hlt. lia.
Qed.

Lemma seg_eq_join (a b : list ascii) alo ahi blo bhi i j k :
  alo ≤ i → 0 ≤ k → i + k ≤ ahi →
  seg_eq a b (alo, i, blo, j) → is_match a b (i, j, k) →
  seg_eq a b (i + k, ahi, j + k, bhi) →
  seg_eq a b (alo, ahi, blo, bhi).
Proof.
  unfold seg_eq, is_match. simpl. intros H1 H2 H3 [Wl El] Hm [Wr Er].
  split; [lia|]. intros t Ht.
  destruct (decide (t < i - alo)) as [Hlt|Hge]; [apply El; lia|].
  destruct (decide (t < i - alo + k)) as [Hlt|Hge'].
  - destruct (Hm (t - (i - alo))) as (c & Ea & Eb); [lia|].
    replace (alo + t) with (i + (t - (i - alo))) by lia.
    replace (blo + t) with (j + (t - (i - alo))) by lia.
    by rewrite Ea, Eb.
  - replace (alo + t) with (i + k + (t - (i - alo + k))) by lia.
    replace (blo + t) with (j + k + (t - (i - alo + k))) by lia.
    apply Er. lia.
Qed.

Section QueueBlocks.

Variables a b : list ascii.

(** What the queue loop adds: blocks that pair equal elements, of no more
    elements than the queue has room for in either sequence; and when they
    fill that room in both sequences, every queued window delimits two equal
    segments. *)
Lemma queue_loop_tight fuel queue blocks res :
  Forall (window_in a b) queue →
  queue_loop a b fuel queue blocks = Some res →
  0 ≤ sum_sizes res - sum_sizes blocks
  ∧ sum_sizes res - sum_sizes blocks ≤ queue_room_a queue
  ∧ sum_sizes res - sum_sizes blocks ≤ queue_room_b queue
  ∧ (sum_sizes res - sum_sizes blocks = queue_room_a queue →
     sum_sizes res - sum_sizes blocks = queue_room_b queue →
     Forall (seg_eq a b) queue)
  ∧ (∀ m, m ∈ res → m ∈ blocks ∨ (is_match a b m ∧ 0 < m.2)).
Proof.
  revert queue blocks. induction fuel as [|fuel IH]; intros queue blocks Hin Hres.
  - destruct queue as [|w queue]; [|by destruct w as [[[??]?]?]].
    simpl in Hres. injection Hres as <-. simpl.
    split_and!; [lia|lia|lia|constructor|by left].
  - destruct queue as [|[[[alo ahi] blo] bhi] queue].
    { simpl in Hres. injection Hres as <-. simpl.
      split_and!; [lia|lia|lia|constructor|by left]. }
    apply Forall_cons in Hin as [Hw Hq]. unfold window_in in Hw. simpl in Hw.
    pose proof (find_longest_match_box a b alo ahi blo bhi) as Hbox.
    pose proof (find_longest_match_match a b alo ahi blo bhi) as Hmatch.
    simpl in Hres. destruct (find_longest_match a b alo ahi blo bhi) as [[i j] k].
    unfold in_box in Hbox. simpl in Hbox.
    destruct Hbox as (H1 & H2 & H3 & H4 & H5); [lia..|].
    specialize (Hmatch ltac:(lia) ltac:(lia) ltac:(lia)).
    simpl. fold (queue_room_a queue). fold (queue_room_b queue).
    case_bool_decide as Hk.
    + destruct (optional_window_in a b (bool_decide (alo < i) && bool_decide (blo < j))
                  (alo, i, blo, j)) as (Hq1 & Ha1 & Hb1 & Hs1); simpl; [lia|lia|..].
      { rewrite andb_true_iff, !bool_decide_eq_true. unfold window_in. simpl. lia. }
      { rewrite andb_false_iff, !bool_decide_eq_false. lia. }
      destruct (optional_window_in a b
                  (bool_decide (i + k < ahi) && bool_decide (j + k < bhi))
                  (i + k, ahi, j + k, bhi)) as (Hq2 & Ha2 & Hb2 & Hs2); simpl; [lia|lia|..].
      { rewrite andb_true_iff, !bool_decide_eq_true. unfold window_in. simpl. lia. }
      { rewrite andb_false_iff, !bool_decide_eq_false. lia. }
      simpl in Ha1, Hb1, Ha2, Hb2, Hs1, Hs2.
      set (q1 := if bool_decide (alo < i) && bool_decide (blo < j)
                 then [(alo, i, blo, j)] else []) in *.
      set (q2 := if bool_decide (i + k < ahi) && bool_decide (j + k < bhi)
                 then [(i + k, ahi, j + k, bhi)] else []) in *.
      apply IH in Hres as (B0 & Ba & Bb & Heq & Hm);
        [|by repeat apply Forall_app_2].
      rewrite sum_sizes_app in B0, Ba, Bb, Heq.
      change (sum_sizes [(i, j, k)]) with (k + 0) in B0, Ba, Bb, Heq.
      rewrite !queue_room_a_app in Ba, Heq. rewrite !queue_room_b_app in Bb, Heq.
      split_and!; [lia|lia|lia| |].
      * intros Ea Eb. assert (Forall (seg_eq a b) (q2 ++ q1 ++ queue)) as Hs.
        { apply Heq; lia. }
        apply Forall_app in Hs as [Hs2' Hs]. apply Forall_app in Hs as [Hs1' Hs].
        constructor; [|done].
        apply (seg_eq_join a b alo ahi blo bhi i j k); [lia|lia|lia| |done|].
        -- apply Hs1; [lia|lia|done].
        -- apply Hs2; [lia|lia|done].
      * intros m Hm'.
        apply Hm in Hm' as [[Hm'| ->%list_elem_of_singleton]%elem_of_app|Hm'];
          [by left|right; split; [done|simpl; lia]|by right].
    + apply IH in Hres as (B0 & Ba & Bb & Heq & Hm); [|done].
      split_and!; [lia|lia|lia| |done].
      intros Ea Eb. constructor; [|apply Heq; lia].
      split; simpl; [lia|]. intros t Ht. lia.
Qed.

End QueueBlocks.

Lemma seg_eq_whole (a b : list ascii) :
  seg_eq a b (0, Z.of_nat (length a), 0, Z.of_nat (length b)) → a = b.
Proof.
  unfold seg_eq. simpl. intros [Hlen Hget]. apply list_eq. intros i.
  destruct (decide (i < length a)%nat) as [Hlt|Hge].
  - specialize (Hget (Z.of_nat i) ltac:(lia)). unfold get in Hget.
    rewrite !bool_decide_eq_true_2 in Hget by lia.
    by rewrite !Z.add_0_l, !Nat2Z.id in Hget.
  - rewrite !lookup_ge_None_2; [done|lia|lia].
Qed.

Lemma get_elem_of (s : list ascii) j c : get s j = Some c → c ∈ s.
Proof.
  unfold get. case_bool_decide; [|done]. apply list_elem_of_lookup_2.
Qed.

(** The number of matched elements behind [ratio()]: it is at most either
    length, it reaches both lengths only for equal sequences, and it is
    positive only if the sequences share an element. *)
Lemma ratio_matches (a b : list ascii) :
  ∃ matches,
    ratio a b = calculate_ratio matches (Z.of_nat (length a) + Z.of_nat (length b))
    ∧ 0 ≤ matches ∧ matches ≤ Z.of_nat (length a) ∧ matches ≤ Z.of_nat (length b)
    ∧ (matches = Z.of_nat (length a) → matches = Z.of_nat (length b) → a = b)
    ∧ (0 < matches → ∃ c, c ∈ a ∧ c ∈ b)
    ∧ ratio_opt a b = Some (ratio a b).
Proof.
  unfold ratio, ratio_opt, get_matching_blocks.
  destruct (queue_loop_total a b (queue_fuel a)
              [(0, Z.of_nat (length a), 0, Z.of_nat (length b))] [])
    as (res & Hres).
  { repeat constructor; unfold window_ok; simpl; lia. }
  { unfold queue_fuel. simpl. unfold window_cost. simpl. lia. }
  rewrite Hres. simpl.
  apply queue_loop_tight in Hres as (B0 & Ba & Bb & Heq & Hm).
  2:{ repeat constructor; unfold window_in; simpl; lia. }
  simpl in *. rewrite !Z.sub_0_r, !Z.add_0_r in *.
  exists (sum_sizes res).
  rewrite sum_sizes_app, sum_sizes_collapse, sum_sizes_sort.
  change (sum_sizes [(Z.of_nat (length a), Z.of_nat (length b), 0)]) with (0 + 0).
  rewrite !Z.add_0_r. split_and!; [done|lia|lia|lia| | |done].
  - intros Ea Eb. apply seg_eq_whole.
    specialize (Heq Ea Eb). by apply Forall_cons in Heq as [Heq _].
  - intros Hpos. destruct res as [|m res]; [simpl in Hpos; lia|].
    destruct (Hm m) as [Hin|[Hmatch Hsize]]; [left|by apply elem_of_nil in Hin|].
    destruct (Hmatch 0) as (c & Hc1 & Hc2); [lia|].
    exists c. split; by eapply get_elem_of.
Qed.

Lemma calculate_ratio_range (matches length : Z) :
  0 ≤ matches → 2 * matches ≤ length →
  (0 <= calculate_ratio matches length)%Q ∧ (calculate_ratio matches length <= 1)%Q.
Proof.
  intros H0 H1. unfold calculate_ratio. case_bool_decide as Hl; [|done].
  assert (0 < inject_Z length)%Q as Hpos.
  { rewrite <- (Zlt_Qlt 0). lia. }
  split.
  - apply Qle_shift_div_l; [done|]. rewrite Qmult_0_l.
    replace 2%Q with (inject_Z 2) by done.
    rewrite <- inject_Z_mult. rewrite <- (Zle_Qle 0). lia.
  - apply Qle_shift_div_r; [done|]. rewrite Qmult_1_l.
    replace 2%Q with (inject_Z 2) by done.
    rewrite <- inject_Z_mult. rewrite <- Zle_Qle. lia.
Qed.

(** [ratio()] returns (the fuel of the queue loop is never used up) a value
    between 0 and 1. *)
Lemma ratio_total (a b : list ascii) :
  ratio_opt a b = Some (ratio a b) ∧ (0 <= ratio a b)%Q ∧ (ratio a b <= 1)%Q.
Proof.
  destruct (ratio_matches a b) as (M & E & H0 & Ha & Hb & _ & _ & Hopt).
  split; [done|]. rewrite E. apply calculate_ratio_range; lia.
Qed.

Lemma calculate_ratio_one (matches length : Z) :
  (calculate_ratio matches length == 1)%Q ↔ length = 0 ∨ 2 * matches = length.
Proof.
  unfold calculate_ratio. case_bool_decide as Hl.
  - assert (¬ (inject_Z length == 0)%Q) as Hnz.
    { change 0%Q with (inject_Z 0). rewrite inject_Z_injective. done. }
    replace 2%Q with (inject_Z 2) by done. rewrite <- inject_Z_mult. split.
    + intros E. right. apply inject_Z_injective.
      rewrite <- (Qmult_div_r (inject_Z (2 * matches)) (inject_Z length)) by done.
      rewrite E. apply Qmult_1_r.
    + intros [?| ->]; [done|]. by apply Qmult_inv_r.
  - split; [|done]. intros _. left. by destruct (decide (length = 0)).
Qed.

(** [ratio()] is 1 exactly for equal sequences. *)
Lemma ratio_one_iff (a b : list ascii) : (ratio a b == 1)%Q ↔ a = b.
Proof.
  split; [|intros ->; apply ratio_self].
  destruct (ratio_matches a b) as (M & -> & H0 & Ha & Hb & Heq & _ & _).
  intros [Hz|HM]%calculate_ratio_one.
  - assert (length a = 0%nat) as ->%nil_length_inv by lia.
    assert (length b = 0%nat) as ->%nil_length_inv by lia. done.
  - apply Heq; lia.
Qed.

(** Sequences without a common element have no matching block at all. *)
Lemma ratio_disjoint (a b : list ascii) :
  (∀ c, c ∈ a → c ∉ b) →
  ratio a b = calculate_ratio 0 (Z.of_nat (length a) + Z.of_nat (length b)).
Proof.
  intros Hd. destruct (ratio_matches a b) as (M & -> & H0 & _ & _ & _ & Hc & _).
  destruct (decide (M = 0)) as [->|Hne]; [done|].
  destruct Hc as (c & Hca & Hcb); [lia|]. by apply Hd in Hca.
Qed.

End difflib_facts.

(** ** Claims about [calculate_similarity] *)

Lemma chars_inj (s1 s2 : string) : chars s1 = chars s2 → s1 = s2.
Proof.
  unfold chars. intros E.
  rewrite <- (String.string_of_list_ascii_of_string s1),
          <- (String.string_of_list_ascii_of_string s2).
  by rewrite E.
Qed.

Lemma calculate_similarity_one (str1 str2 : string) :
  (calculate_similarity str1 str2 == 1)%Q ↔ lower str1 = lower str2.
Proof.
  unfold calculate_similarity. rewrite difflib_facts.ratio_one_iff.
  split; [apply chars_inj|by intros ->].
Qed.

(** The popular-element heuristic at work: from 200 characters on, the
    shifted copy of a two-letter pattern no longer matches at all. *)
Example calculate_similarity_autojunk :
  (calculate_similarity (abab 99) (baba 99) == 197 # 198)%Q
  ∧ (calculate_similarity (abab 100) (baba 100) == 0)%Q
  ∧ (calculate_similarity (abab 100) (abab 100) == 1)%Q.
Proof. split_and!; vm_compute; reflexivity. Qed.

(** C5, as stated, fails: the ratio depends on the order of the arguments. *)
Lemma calculate_similarity_not_symmetric :
  (calculate_similarity "tide" "diet" == 1 # 4)%Q
  ∧ (calculate_similarity "diet" "tide" == 1 # 2)%Q
  ∧ ¬ (calculate_similarity "tide" "diet" == calculate_similarity "diet" "tide")%Q.
Proof.
  split_and!; [reflexivity|reflexivity|]. vm_compute. discriminate.
Qed.

(** C5, as the code has it.  The two orders of the arguments give the same
    value when the strings are equal up to letter case, and when their
    lower-case forms share no character (so also when one of them is
    empty).  The value is 1 exactly when the strings are equal up to letter
    case, so the two orders always agree on whether it is 1. *)
Theorem calculate_similarity_symmetric_cases (str1 str2 : string) :
  (lower str1 = lower str2
   ∨ (∀ c, c ∈ chars (lower str1) → c ∉ chars (lower str2)) →
   (calculate_similarity str1 str2 == calculate_similarity str2 str1)%Q)
  ∧ ((calculate_similarity str1 str2 == 1)%Q ↔ lower str1 = lower str2)
  ∧ ((calculate_similarity str1 str2 == 1)%Q ↔ (calculate_similarity str2 str1 == 1)%Q).
Proof.
  split_and!.
  - unfold calculate_similarity. intros [E|Hd].
    + rewrite E. reflexivity.
    + rewrite !difflib_facts.ratio_disjoint.
      * by rewrite Z.add_comm.
      * intros c Hc2 Hc1. by apply (Hd c).
      * done.
  - apply calculate_similarity_one.
  - rewrite !calculate_similarity_one. split; by intros ->.
Qed.

Lemma calculate_similarity_symmetric_cases_witness :
  (lower "ABC" = lower "abc"
   ∨ (∀ c, c ∈ chars (lower "ABC") → c ∉ chars (lower "abc")))
  ∧ (calculate_similarity "ABC" "abc" == calculate_similarity "abc" "ABC")%Q
  ∧ (lower "Abba" = lower "Queen"
     ∨ (∀ c, c ∈ chars (lower "Abba") → c ∉ chars (lower "Queen")))
  ∧ (calculate_similarity "Abba" "Queen" == calculate_similarity "Queen" "Abba")%Q.
Proof.
  assert (lower "ABC" = lower "abc"
          ∨ (∀ c, c ∈ chars (lower "ABC") → c ∉ chars (lower "abc"))) as H1
    by (left; reflexivity).
  assert (lower "Abba" = lower "Queen"
          ∨ (∀ c, c ∈ chars (lower "Abba") → c ∉ chars (lower "Queen"))) as H2.
  { right. apply Forall_forall. apply (bool_decide_unpack _). vm_compute. exact I. }
  exact (conj H1 (conj (proj1 (calculate_similarity_symmetric_cases "ABC" "abc") H1)
          (conj H2 (proj1 (calculate_similarity_symmetric_cases "Abba" "Queen") H2)))).
Defined.

(** C6.  The similarity is computed for every pair of strings (the matcher
    returns), lies between 0 and 1, is 1 for a string against itself and,
    more generally, for two strings with the same lower-case form, such as
    ["ABC"] and ["abc"]. *)
Theorem calculate_similarity_range_reflexive :
  (∀ str1 str2,
     difflib.ratio_opt (chars (lower str1)) (chars (lower str2))
     = Some (calculate_similarity str1 str2)
     ∧ (0 <= calculate_similarity str1 str2)%Q
     ∧ (calculate_similarity str1 str2 <= 1)%Q)
  ∧ (∀ str, (calculate_similarity str str == 1)%Q)
  ∧ (∀ str1 str2, lower str1 = lower str2 → (calculate_similarity str1 str2 == 1)%Q)
  ∧ (calculate_similarity "ABC" "abc" == 1)%Q.
Proof.
  split_and!.
  - intros str1 str2. unfold calculate_similarity.
    apply difflib_facts.ratio_total.
  - intros str. apply difflib_facts.ratio_self.
  - intros str1 str2 E. unfold calculate_similarity. rewrite E.
    apply difflib_facts.ratio_self.
  - apply difflib_facts.ratio_self.
Qed.

Lemma calculate_similarity_range_reflexive_witness :
  lower "Hey Jude" = lower "hey jude"
  ∧ (calculate_similarity "Hey Jude" "hey jude" == 1)%Q.
Proof.
  assert (lower "Hey Jude" = lower "hey jude") as E by reflexivity.
  split; [exact E|].
  exact (proj1 (proj2 (proj2 calculate_similarity_range_reflexive)) _ _ E).
Defined.

(** ** The deduplication loop *)

Section Dedup.

Variables title_threshold artist_threshold : Q.

Local Abbreviation scan := (scan_filtered title_threshold artist_threshold).
Local Abbreviation step := (song_step title_threshold artist_threshold).
Local Abbreviation meets := (both_meet title_threshold artist_threshold).
Local Abbreviation rss := (λ songs, remove_similar_songs songs title_threshold artist_threshold).

Lemma meets_test song kept :
  Qle_bool title_threshold (calculate_similarity (titulo song) (titulo kept))
  && Qle_bool artist_threshold (calculate_similarity (artista song) (artista kept)) = true
  ↔ meets song kept.
Proof.
  unfold both_meet. rewrite andb_true_iff, !Qle_bool_iff. tauto.
Qed.

Lemma scan_Some song filtered r :
  scan song filtered = Some r ↔
  ∃ l1 k l2, filtered = l1 ++ k :: l2
             ∧ (∀ k', k' ∈ l1 → ¬ meets song k')
             ∧ meets song k ∧ r = evidence song k.
Proof.
  induction filtered as [|f rest IH]; simpl.
  - split; [done|]. intros (l1 & k & l2 & E & _). by destruct l1.
  - destruct (Qle_bool _ _ && Qle_bool _ _) eqn:T.
    + apply meets_test in T. split.
      * intros [= <-]. exists [], f, rest. split_and!; [done| |done|done].
        intros k' Hk'. by apply elem_of_nil in Hk'.
      * intros (l1 & k & l2 & E & Hno & Hk & ->).
        destruct l1 as [|x l1]; simplify_eq/=; [done|].
        exfalso. apply (Hno x); [left|done].
    + assert (¬ meets song f) as Hf.
      { rewrite <- meets_test, T. done. }
      rewrite IH. split.
      * intros (l1 & k & l2 & -> & Hno & Hk & ->).
        exists (f :: l1), k, l2. split_and!; [done| |done|done].
        intros k' [->|Hk']%elem_of_cons; auto.
      * intros (l1 & k & l2 & E & Hno & Hk & ->).
        destruct l1 as [|x l1]; simplify_eq/=; [done|].
        exists l1, k, l2. split_and!; [done| |done|done].
        intros k' Hk'. apply Hno. by right.
Qed.

Lemma scan_None song filtered :
  scan song filtered = None ↔ ∀ k, k ∈ filtered → ¬ meets song k.
Proof.
  induction filtered as [|f rest IH]; simpl.
  - split; [|done]. intros _ k Hk. by apply elem_of_nil in Hk.
  - destruct (Qle_bool _ _ && Qle_bool _ _) eqn:T.
    + apply meets_test in T. split; [done|].
      intros H. exfalso. apply (H f); [left|done].
    + assert (¬ meets song f) as Hf.
      { rewrite <- meets_test, T. done. }
      rewrite IH. split.
      * intros H k [->|Hk]%elem_of_cons; auto.
      * intros H k Hk. apply H. by right.
Qed.

(** The loop only appends: the state it reaches extends the state it
    starts from, and the appended parts share out the songs it consumed. *)
Lemma run_extends songs kept removed :
  ∃ kept' removed',
    fold_left step songs (kept, removed) = (kept ++ kept', removed ++ removed')
    ∧ interleaved kept' (cancion <$> removed') songs.
Proof.
  revert kept removed. induction songs as [|s songs IH]; intros kept removed; simpl.
  - exists [], []. rewrite !app_nil_r. split; [done|constructor].
  - unfold song_step at 2. simpl. destruct (scan s kept) as [r|] eqn:Hs.
    + destruct (IH kept (removed ++ [r])) as (k' & r' & -> & Hil).
      exists k', (r :: r'). rewrite <- app_assoc. split; [done|].
      apply scan_Some in Hs as (? & ? & ? & _ & _ & _ & ->).
      simpl. by constructor.
    + destruct (IH (kept ++ [s]) removed) as (k' & r' & -> & Hil).
      exists (s :: k'), r'. rewrite <- app_assoc. split; [done|].
      by constructor.
Qed.

Lemma run_app l1 l2 :
  remove_similar_songs (l1 ++ l2) title_threshold artist_threshold
  = fold_left step l2 (remove_similar_songs l1 title_threshold artist_threshold).
Proof. unfold remove_similar_songs. by rewrite fold_left_app. Qed.

(** Where each evidence record comes from: the song it removes, scanned
    against the songs kept so far. *)
Lemma run_records songs kept removed r :
  r ∈ (fold_left step songs (kept, removed)).2 →
  r ∈ removed
  ∨ ∃ pre post, songs = pre ++ cancion r :: post
      ∧ scan (cancion r) (fold_left step pre (kept, removed)).1 = Some r.
Proof.
  revert kept removed. induction songs as [|s songs IH]; intros kept removed; simpl.
  - by left.
  - intros Hr. destruct (step (kept, removed) s) as [k1 r1] eqn:Hstep.
    apply IH in Hr as [Hr|(pre & post & -> & Hs)].
    + unfold song_step in Hstep. simpl in Hstep.
      destruct (scan s kept) as [r'|] eqn:Hs; simplify_eq; [|by left].
      apply elem_of_app in Hr as [Hr|Hr]; [by left|].
      apply list_elem_of_singleton in Hr as ->. right.
      pose proof Hs as Hs'.
      apply scan_Some in Hs' as (? & ? & ? & _ & _ & _ & ->). simpl.
      exists [], songs. done.
    + right. exists (s :: pre), post. simpl. by rewrite Hstep.
Qed.

(** A list in which no song meets both thresholds against an earlier one. *)
Lemma run_stable songs kept removed :
  (∀ l1 e l2, songs = l1 ++ e :: l2 → scan e (kept ++ l1) = None) →
  fold_left step songs (kept, removed) = (kept ++ songs, removed).
Proof.
  revert kept. induction songs as [|s songs IH]; intros kept H; simpl.
  - by rewrite app_nil_r.
  - unfold song_step at 2. simpl.
    pose proof (H [] s songs eq_refl) as H0. rewrite app_nil_r in H0. rewrite H0.
    rewrite IH; [by rewrite <- app_assoc|].
    intros l1 e l2 ->. rewrite <- app_assoc. apply (H (s :: l1) e l2 eq_refl).
Qed.

Lemma run_kept_stable songs (st : list Song * list Removed) :
  (∀ l1 e l2, st.1 = l1 ++ e :: l2 → scan e l1 = None) →
  ∀ l1 e l2, (fold_left step songs st).1 = l1 ++ e :: l2 → scan e l1 = None.
Proof.
  revert st. induction songs as [|s songs IH]; intros [kept removed] H; simpl in *.
  - done.
  - apply IH. unfold song_step. simpl.
    destruct (scan s kept) as [r|] eqn:Hs; simpl; [done|].
    intros l1 e l2 E.
    destruct (decide (length l1 < length kept)%nat) as [Hlt|Hge].
    + assert (∃ l2', l2 = l2' ++ [s] ∧ kept = l1 ++ e :: l2') as (l2' & -> & ->).
      { destruct l2 as [|x l2 _] using rev_ind.
        - apply (f_equal length) in E. rewrite !length_app in E. simpl in E. lia.
        - exists l2. rewrite app_comm_cons, app_assoc in E.
          apply app_inj_tail in E as [-> ->]. done. }
      by eapply H.
    + assert (l1 = kept ∧ e = s) as [-> ->]; [|done].
      destruct l2 as [|x l2 _] using rev_ind.
      * by apply app_inj_tail in E as [-> ->].
      * rewrite app_comm_cons, app_assoc in E.
        apply app_inj_tail in E as [-> _].
        rewrite length_app in Hge. simpl in Hge. lia.
Qed.

End Dedup.

Lemma interleaved_length {A} (l1 l2 l : list A) :
  interleaved l1 l2 l → (length l1 + length l2 = length l)%nat.
Proof. induction 1; simpl; lia. Qed.

Lemma interleaved_Permutation {A} (l1 l2 l : list A) :
  interleaved l1 l2 l → l ≡ₚ l1 ++ l2.
Proof.
  induction 1; simpl; [done|by f_equiv|].
  rewrite IHinterleaved. apply Permutation_middle.
Qed.

Lemma interleaved_sublist_l {A} (l1 l2 l : list A) :
  interleaved l1 l2 l → sublist l1 l.
Proof. induction 1; by constructor. Qed.

(** ** Claims about [remove_similar_songs] *)

(** C1.  The result shares out the input exactly: the numbers of kept songs
    and of evidence records add up to the number of input songs; the input
    is an order-preserving shuffle of the kept songs and the removed songs,
    so that every input position goes either to [kept] or to exactly one
    evidence record and never to both; [kept] is a subsequence of the
    input; and when the input entries are pairwise distinct, no entry is
    both kept and removed and no entry is removed twice. *)
Theorem remove_similar_songs_partition (songs : list Song) (title_threshold artist_threshold : Q) :
  let kept := (remove_similar_songs songs title_threshold artist_threshold).1 in
  let removed := (remove_similar_songs songs title_threshold artist_threshold).2 in
  (length kept + length removed = length songs)%nat
  ∧ interleaved kept (cancion <$> removed) songs
  ∧ songs ≡ₚ kept ++ (cancion <$> removed)
  ∧ sublist kept songs
  ∧ (NoDup songs → NoDup (kept ++ (cancion <$> removed))).
Proof.
  intros kept removed. subst kept removed. unfold remove_similar_songs.
  destruct (run_extends title_threshold artist_threshold songs [] [])
    as (k & r & -> & Hil). simpl.
  split_and!.
  - apply interleaved_length in Hil. by rewrite length_fmap in Hil.
  - done.
  - by apply interleaved_Permutation.
  - by eapply interleaved_sublist_l.
  - intros Hnd. by rewrite <- (interleaved_Permutation _ _ _ Hil).
Qed.

Lemma remove_similar_songs_partition_witness :
  NoDup [hey_jude; hey_jude_lc; let_it_be]
  ∧ (remove_similar_songs [hey_jude; hey_jude_lc; let_it_be]
       default_title_threshold default_artist_threshold).1
    = [hey_jude; let_it_be]
  ∧ cancion <$> (remove_similar_songs [hey_jude; hey_jude_lc; let_it_be]
                   default_title_threshold default_artist_threshold).2
    = [hey_jude_lc]
  ∧ NoDup ((remove_similar_songs [hey_jude; hey_jude_lc; let_it_be]
              default_title_threshold default_artist_threshold).1
           ++ (cancion <$> (remove_similar_songs [hey_jude; hey_jude_lc; let_it_be]
                              default_title_threshold default_artist_threshold).2)).
Proof.
  assert (NoDup [hey_jude; hey_jude_lc; let_it_be]) as Hnd.
  { apply (bool_decide_unpack _). vm_compute. exact I. }
  split_and!; [exact Hnd|vm_compute; reflexivity|vm_compute; reflexivity|].
  exact (proj2 (proj2 (proj2 (proj2
           (remove_similar_songs_partition [hey_jude; hey_jude_lc; let_it_be]
              default_title_threshold default_artist_threshold)))) Hnd).
Defined.



(** C9.  Running the loop again on the kept songs, with the same
    thresholds, keeps all of them in the same order and removes none. *)
Theorem remove_similar_songs_idempotent (songs : list Song) (title_threshold artist_threshold : Q) :
  remove_similar_songs
    (remove_similar_songs songs title_threshold artist_threshold).1
    title_threshold artist_threshold
  = ((remove_similar_songs songs title_threshold artist_threshold).1, []).
Proof.
  unfold remove_similar_songs at 1.
  rewrite run_stable; [done|].
  intros l1 e l2 E. simpl.
  eapply (run_kept_stable _ _ songs ([], [])); [|exact E].
  intros [|??] ?? [=].
Qed.

(** C10.  The kept song named by an evidence record is in the returned
    [kept] list.  It was already kept when the record was made, and the
    removed song itself was not added to [kept] at that step; so, when the
    input entries are pairwise distinct, the kept song of a record is never
    the removed song of any record. *)
Theorem remove_similar_songs_evidence_kept (songs : list Song) (title_threshold artist_threshold : Q)
    (r : Removed) :
  r ∈ (remove_similar_songs songs title_threshold artist_threshold).2 →
  similar_a r ∈ (remove_similar_songs songs title_threshold artist_threshold).1
  ∧ (∃ pre post,
       songs = pre ++ cancion r :: post
       ∧ similar_a r ∈ (remove_similar_songs pre title_threshold artist_threshold).1
       ∧ (remove_similar_songs (pre ++ [cancion r]) title_threshold artist_threshold).1
         = (remove_similar_songs pre title_threshold artist_threshold).1)
  ∧ (NoDup songs →
     similar_a r ∉ cancion <$> (remove_similar_songs songs title_threshold artist_threshold).2).
Proof.
  intros Hr. pose proof Hr as Hr'. unfold remove_similar_songs in Hr.
  apply run_records in Hr as [Hr|(pre & post & E & Hs)].
  { by apply elem_of_nil in Hr. }
  fold (remove_similar_songs pre title_threshold artist_threshold) in Hs.
  pose proof Hs as (l1 & k & l2 & Hkept & _ & _ & Hrk)%scan_Some.
  assert (similar_a r ∈ (remove_similar_songs pre title_threshold artist_threshold).1) as Hin.
  { rewrite Hkept, Hrk. simpl. apply elem_of_app. right. left. }
  assert (similar_a r ∈ (remove_similar_songs songs title_threshold artist_threshold).1) as Hfin.
  { rewrite E, run_app.
    destruct (remove_similar_songs pre title_threshold artist_threshold) as [kept removed].
    destruct (run_extends title_threshold artist_threshold (cancion r :: post) kept removed)
      as (k' & r' & -> & _).
    simpl in *. apply elem_of_app. by left. }
  split_and!.
  - exact Hfin.
  - exists pre, post. split_and!; [done..|].
    rewrite run_app. simpl. unfold song_step. by rewrite Hs.
  - intros Hnd Hrem. unfold remove_similar_songs in Hfin, Hrem.
    destruct (run_extends title_threshold artist_threshold songs [] [])
      as (k' & r' & Hrun & Hil).
    rewrite Hrun in Hfin, Hrem. simpl in Hfin, Hrem.
    rewrite (interleaved_Permutation _ _ _ Hil) in Hnd.
    apply NoDup_app in Hnd as (_ & Hdisj & _). by eapply Hdisj.
Qed.



Lemma remove_similar_songs_evidence_kept_witness :
  let songs := [hey_jude; hey_jude_lc; let_it_be] in
  let tt := default_title_threshold in
  let at_ := default_artist_threshold in
  let r := evidence hey_jude_lc hey_jude in
  r ∈ (remove_similar_songs songs tt at_).2
  ∧ NoDup songs
  ∧ similar_a r ∈ (remove_similar_songs songs tt at_).1
  ∧ (∃ pre post,
       songs = pre ++ cancion r :: post
       ∧ similar_a r ∈ (remove_similar_songs pre tt at_).1
       ∧ (remove_similar_songs (pre ++ [cancion r]) tt at_).1
         = (remove_similar_songs pre tt at_).1)
  ∧ (similar_a r ∉ cancion <$> (remove_similar_songs songs tt at_).2).
Proof.
  intros songs tt at_ r.
  assert (r ∈ (remove_similar_songs songs tt at_).2) as Hin.
  { vm_compute. left. }
  assert (NoDup songs) as Hnd.
  { apply (bool_decide_unpack _). vm_compute. exact I. }
  pose proof (remove_similar_songs_evidence_kept songs tt at_ r Hin) as (H1 & H2 & H3).
  exact (conj Hin (conj Hnd (conj H1 (conj H2 (H3 Hnd))))).
Defined.

(** The scenarios of the specification: a case variant of a kept song is
    removed with both similarities 1.0, and the empty playlist yields two
    empty lists. *)
Example hey_jude_scenario :
  (remove_similar_songs [hey_jude; hey_jude_lc; let_it_be]
     default_title_threshold default_artist_threshold).1
  = [hey_jude; let_it_be]
  ∧ ∃ r, (remove_similar_songs [hey_jude; hey_jude_lc; let_it_be]
            default_title_threshold default_artist_threshold).2 = [r]
         ∧ cancion r = hey_jude_lc ∧ similar_a r = hey_jude
         ∧ (similaridad_titulo r == 1)%Q ∧ (similaridad_artista r == 1)%Q.
Proof.
  split; [vm_compute; reflexivity|].
  exists (evidence hey_jude_lc hey_jude).
  split_and!; [vm_compute; reflexivity|reflexivity|reflexivity|..];
    vm_compute; reflexivity.
Qed.

Example empty_playlist (title_threshold artist_threshold : Q) :
  remove_similar_songs [] title_threshold artist_threshold = ([], []).
Proof. reflexivity. Qed.

(** ** Binary64 rounding *)

Lemma round_half_even_le (x : Q) (n : Z) : (x <= inject_Z n)%Q → round_half_even x ≤ n.
Proof.
  intros Hx. unfold round_half_even.
  assert (Qfloor x ≤ n) as Hle.
  { rewrite <- (Qfloor_Z n). by apply Qfloor_resp_le. }
  destruct (Z.eq_dec (Qfloor x) n) as [E|Hne].
  - assert (x - inject_Z (Qfloor x) <= 0)%Q as Hd.
    { rewrite E. unfold Qminus. rewrite <- (Qplus_opp_r (inject_Z n)).
      by apply Qplus_le_compat; [|apply Qle_refl]. }
    assert ((x - inject_Z (Qfloor x) ?= 1 # 2)%Q = Lt) as ->; [|lia].
    apply Qlt_alt. eapply Qle_lt_trans; [exact Hd|reflexivity].
  - destruct (_ ?= _)%Q; [destruct (Z.even _)|..]; lia.
Qed.

Lemma round_half_even_nonneg (x : Q) : (0 <= x)%Q → 0 ≤ round_half_even x.
Proof.
  intros Hx. unfold round_half_even.
  assert (0 ≤ Qfloor x) as Hle.
  { rewrite <- (Qfloor_Z 0). by apply Qfloor_resp_le. }
  destruct (_ ?= _)%Q; [destruct (Z.even _)|..]; lia.
Qed.

Lemma pow2_pos (e : Z) : (0 < 2 ^ e)%Q.
Proof. by apply Qpower_0_lt. Qed.

(** [ilog2] does not overshoot. *)
Lemma ilog2_le (x : Q) : (0 < x)%Q → (2 ^ ilog2 x <= x)%Q.
Proof.
  intros Hx. unfold ilog2.
  set (e := Z.log2 (Qnum x) - Z.log2 (Z.pos (Qden x))).
  destruct (Qle_bool (2 ^ e) x) eqn:T; [by apply Qle_bool_iff|].
  destruct x as [n d]. simpl in e.
  assert (0 < n) as Hn.
  { unfold Qlt in Hx. simpl in Hx. lia. }
  pose proof (Z.log2_spec n Hn) as [Hn1 _].
  pose proof (Z.log2_spec (Z.pos d) (Pos2Z.is_pos d)) as [_ Hd2].
  pose proof (Z.log2_nonneg n) as Hln. pose proof (Z.log2_nonneg (Z.pos d)) as Hld.
  replace (e - 1) with (Z.log2 n - Z.succ (Z.log2 (Z.pos d))) by (subst e; simpl; lia).
  rewrite Qpower_minus by done. change 2%Q with (inject_Z 2).
  rewrite <- !Zpower_Qpower by lia.
  set (A := 2 ^ Z.log2 n) in *. set (B := 2 ^ Z.succ (Z.log2 (Z.pos d))) in *.
  assert (0 < B) as HB by lia.
  apply Qle_shift_div_r; [by rewrite <- (Zlt_Qlt 0)|].
  unfold Qle, Qmult. simpl. nia.
Qed.

Lemma binary64_zero (x : Q) : (x == 0)%Q → binary64 x = 0%Q.
Proof. intros E. unfold binary64. apply Qeq_alt in E. by rewrite E. Qed.

Lemma binary64_nonneg (x : Q) : (0 <= x)%Q → (0 <= binary64 x)%Q.
Proof.
  intros Hx. unfold binary64. destruct (x ?= 0)%Q eqn:E.
  - apply Qle_refl.
  - apply Qlt_alt in E. by apply Qlt_not_le in E.
  - apply Qmult_le_0_compat; [|apply Qlt_le_weak, pow2_pos].
    rewrite <- (Zle_Qle 0). apply round_half_even_nonneg.
    apply Qle_shift_div_l; [apply pow2_pos|]. by rewrite Qmult_0_l.
Qed.

(** Rounding does not cross a power of two. *)
Lemma binary64_le_pow2 (x : Q) (k : Z) :
  (0 <= x)%Q → (x <= 2 ^ k)%Q → -1022 ≤ k → (binary64 x <= 2 ^ k)%Q.
Proof.
  intros H0 Hx Hk. unfold binary64. destruct (x ?= 0)%Q eqn:E.
  - apply Qlt_le_weak, pow2_pos.
  - apply Qlt_alt in E. by apply Qlt_not_le in E.
  - apply Qgt_alt in E.
    set (e := Z.max (ilog2 x) (-1022)).
    assert (e ≤ k) as He.
    { unfold e. apply Z.max_lub; [|done].
      apply (Qpower_le_compat_l_inv 2); [|done].
      eapply Qle_trans; [by apply ilog2_le|done]. }
    assert (2 ^ k == inject_Z (2 ^ (k - (e - 52))) * 2 ^ (e - 52))%Q as Hk2.
    { rewrite Zpower_Qpower by lia. change (inject_Z 2) with 2%Q.
      rewrite <- Qpower_plus by done.
      by replace (k - (e - 52) + (e - 52)) with k by lia. }
    rewrite Hk2. apply Qmult_le_compat_r; [|apply Qlt_le_weak, pow2_pos].
    rewrite <- Zle_Qle. apply round_half_even_le.
    apply Qle_shift_div_r; [apply pow2_pos|]. by rewrite <- Hk2.
Qed.

Lemma round_half_even_ge (x : Q) (n : Z) : (inject_Z n <= x)%Q → n ≤ round_half_even x.
Proof.
  intros Hx. unfold round_half_even.
  assert (n ≤ Qfloor x) as Hle.
  { rewrite <- (Qfloor_Z n). by apply Qfloor_resp_le. }
  destruct (_ ?= _)%Q; [destruct (Z.even _)|..]; lia.
Qed.

Lemma round_half_even_mono (x y : Q) : (x <= y)%Q → round_half_even x ≤ round_half_even y.
Proof.
  intros Hxy.
  pose proof (Qfloor_resp_le _ _ Hxy) as Hf.
  destruct (Z.eq_dec (Qfloor x) (Qfloor y)) as [E|Hne].
  - unfold round_half_even. rewrite <- E.
    assert (x - inject_Z (Qfloor x) <= y - inject_Z (Qfloor x))%Q as Hd.
    { unfold Qminus. apply Qplus_le_compat; [done|apply Qle_refl]. }
    destruct (x - inject_Z (Qfloor x) ?= 1 # 2)%Q eqn:Ex;
      destruct (y - inject_Z (Qfloor x) ?= 1 # 2)%Q eqn:Ey;
      try (destruct (Z.even (Qfloor x)); lia); try lia; exfalso.
    + apply Qeq_alt in Ex. apply Qlt_alt in Ey. rewrite Ex in Hd.
      by apply Qlt_not_le in Ey.
    + apply Qgt_alt in Ex. apply Qeq_alt in Ey. rewrite Ey in Hd.
      by apply Qlt_not_le in Ex.
    + apply Qgt_alt in Ex. apply Qlt_alt in Ey.
      apply (Qlt_not_le _ _ Ex). eapply Qle_trans; [exact Hd|by apply Qlt_le_weak].
  - apply (Z.le_trans _ (Qfloor y)).
    + apply round_half_even_le.
      assert (Qfloor x + 1 ≤ Qfloor y) as H1 by lia.
      apply Qlt_le_weak. eapply Qlt_le_trans; [apply Qlt_floor|].
      by rewrite <- Zle_Qle.
    + apply round_half_even_ge. apply Qfloor_le.
Qed.

Lemma ilog2_lt (x : Q) : (0 < x)%Q → (x < 2 ^ (ilog2 x + 1))%Q.
Proof.
  intros Hx. unfold ilog2.
  set (e := Z.log2 (Qnum x) - Z.log2 (Z.pos (Qden x))).
  assert (x < 2 ^ (e + 1))%Q as Hup.
  { destruct x as [n d]. simpl in e.
    assert (0 < n) as Hn.
    { unfold Qlt in Hx. simpl in Hx. lia. }
    pose proof (Z.log2_spec n Hn) as [_ Hn2].
    pose proof (Z.log2_spec (Z.pos d) (Pos2Z.is_pos d)) as [Hd1 _].
    pose proof (Z.log2_nonneg n) as Hln. pose proof (Z.log2_nonneg (Z.pos d)) as Hld.
    replace (e + 1) with (Z.succ (Z.log2 n) - Z.log2 (Z.pos d)) by (subst e; simpl; lia).
    rewrite Qpower_minus by done. change 2%Q with (inject_Z 2).
    rewrite <- !Zpower_Qpower by lia.
    set (A := 2 ^ Z.succ (Z.log2 n)) in *. set (B := 2 ^ Z.log2 (Z.pos d)) in *.
    assert (0 < B) as HB by lia.
    apply Qlt_shift_div_l; [by rewrite <- (Zlt_Qlt 0)|].
    unfold Qlt, Qmult. simpl. nia. }
  destruct (Qle_bool (2 ^ e) x) eqn:T; [done|].
  replace (e - 1 + 1) with e by lia.
  apply Qnot_le_lt. intros H. apply Qle_bool_iff in H. congruence.
Qed.

Lemma ilog2_mono (x y : Q) : (0 < x)%Q → (x <= y)%Q → ilog2 x ≤ ilog2 y.
Proof.
  intros Hx Hxy.
  assert (0 < y)%Q as Hy by (by eapply Qlt_le_trans).
  assert (2 ^ ilog2 x < 2 ^ (ilog2 y + 1))%Q as H.
  { eapply Qle_lt_trans; [by apply ilog2_le|].
    eapply Qle_lt_trans; [exact Hxy|by apply ilog2_lt]. }
  destruct (Z_lt_le_dec (ilog2 y) (ilog2 x)) as [Hlt|]; [|done].
  exfalso. apply (Qlt_not_le _ _ H).
  apply Qpower_le_compat_l; [lia|done].
Qed.

(** Rounding does not fall below the power of two under a normal number. *)
Lemma binary64_ge_pow2 (x : Q) :
  (0 < x)%Q → -1022 ≤ ilog2 x → (2 ^ ilog2 x <= binary64 x)%Q.
Proof.
  intros H0 Hk.
  unfold binary64. apply Qgt_alt in H0 as E. rewrite E.
  rewrite Z.max_l by done.
  set (k := ilog2 x).
  assert (2 ^ k == inject_Z (2 ^ 52) * 2 ^ (k - 52))%Q as Hk2.
  { rewrite Zpower_Qpower by lia. change (inject_Z 2) with 2%Q.
    rewrite <- Qpower_plus by done.
    by replace (52 + (k - 52)) with k by lia. }
  rewrite Hk2 at 1. apply Qmult_le_compat_r; [|apply Qlt_le_weak, pow2_pos].
  rewrite <- Zle_Qle. apply round_half_even_ge.
  apply Qle_shift_div_l; [apply pow2_pos|]. rewrite <- Hk2. by apply ilog2_le.
Qed.

(** Rounding to binary64 keeps the order. *)
Lemma binary64_mono (x y : Q) : (0 <= x)%Q → (x <= y)%Q → (binary64 x <= binary64 y)%Q.
Proof.
  intros H0 Hxy.
  destruct (Qlt_le_dec 0 x) as [Hx|Hx0].
  2:{ rewrite (binary64_zero x) by (by apply Qle_antisym).
      apply binary64_nonneg. by eapply Qle_trans. }
  assert (0 < y)%Q as Hy by (by eapply Qlt_le_trans).
  pose proof (ilog2_mono x y Hx Hxy) as Hlog.
  set (ex := Z.max (ilog2 x) (-1022)). set (ey := Z.max (ilog2 y) (-1022)).
  destruct (Z.eq_dec ex ey) as [E|Hne].
  - unfold binary64. apply Qgt_alt in Hx as ->. apply Qgt_alt in Hy as ->.
    fold ex ey. rewrite <- E.
    apply Qmult_le_compat_r; [|apply Qlt_le_weak, pow2_pos].
    rewrite <- Zle_Qle. apply round_half_even_mono.
    apply Qmult_le_compat_r; [done|].
    apply Qlt_le_weak, Qinv_lt_0_compat, pow2_pos.
  - assert (ex < ey ∧ ey = ilog2 y ∧ ilog2 x + 1 ≤ ey) as (Hlt & Ey & Hs) by lia.
    apply (Qle_trans _ (2 ^ ey)).
    + apply binary64_le_pow2; [done| |lia].
      apply Qlt_le_weak. eapply Qlt_le_trans; [by apply ilog2_lt|].
      apply Qpower_le_compat_l; [lia|done].
    + rewrite Ey. apply binary64_ge_pow2; [done|lia].
Qed.

(** The float of a ratio lies between 0 and 1 as the ratio does. *)
Lemma binary64_unit (x : Q) :
  (0 <= x)%Q → (x <= 1)%Q → (0 <= binary64 x)%Q ∧ (binary64 x <= 1)%Q.
Proof.
  intros H0 H1. split; [by apply binary64_nonneg|].
  by apply (binary64_le_pow2 x 0).
Qed.

(** At the ratio 37/40 the float lies above 0.925 and is rounded up, where
    the exact ratio would go to the even digit below. *)
Example round2_of_a_float :
  (round2 (37 # 40) == binary64 (93 # 100))%Q ∧ (92 # 100 < round2 (37 # 40))%Q.
Proof. split; vm_compute; reflexivity. Qed.

(** ** The candidate scoring loop *)

Lemma Qlt_bool_iff (x y : Q) : Qlt_bool x y = true ↔ (x < y)%Q.
Proof.
  unfold Qlt_bool. rewrite negb_true_iff. split.
  - intros H. apply Qnot_le_lt. intros Hle. apply Qle_bool_iff in Hle. congruence.
  - intros H. destruct (Qle_bool y x) eqn:E; [|done].
    apply Qle_bool_iff in E. by apply Qlt_not_le in H.
Qed.

Lemma Qlt_bool_false (x y : Q) : Qlt_bool x y = false ↔ (y <= x)%Q.
Proof.
  unfold Qlt_bool. rewrite negb_false_iff. apply Qle_bool_iff.
Qed.

Section Select.

(** The loop for any way of scoring an item. *)
Variable sc : SearchItem → Q.

Local Abbreviation bstep :=
  (λ (st : Q * option SearchItem) (item : SearchItem),
     if Qlt_bool st.1 (sc item) then (sc item, Some item) else st).

(** The scoring loop either never updates its state, or stops on the first
    item of strictly highest score. *)
Lemma best_fold_any items (s0 : Q) (v0 : option SearchItem) :
  (fold_left bstep items (s0, v0) = (s0, v0)
   ∧ ∀ x, x ∈ items → (sc x <= s0)%Q)
  ∨ ∃ l1 c l2,
      items = l1 ++ c :: l2
      ∧ fold_left bstep items (s0, v0) = (sc c, Some c)
      ∧ (∀ x, x ∈ l1 → (sc x < sc c)%Q)
      ∧ (∀ x, x ∈ l2 → (sc x <= sc c)%Q)
      ∧ (s0 < sc c)%Q.
Proof.
  revert s0 v0. induction items as [|x items IH]; intros s0 v0; cbn [fold_left fst].
  - left. split; [done|]. intros x Hx. by apply elem_of_nil in Hx.
  - destruct (Qlt_bool s0 (sc x)) eqn:T.
    + apply Qlt_bool_iff in T. right.
      destruct (IH (sc x) (Some x)) as [[-> Hall]|(l1 & c & l2 & -> & -> & H1 & H2 & Hlt)].
      * exists [], x, items. split_and!; [done|done| |done|done].
        intros y Hy. by apply elem_of_nil in Hy.
      * exists (x :: l1), c, l2. split_and!; [done|done| |done|].
        -- intros y [->|Hy]%elem_of_cons; auto.
        -- by eapply Qlt_trans.
    + apply Qlt_bool_false in T.
      destruct (IH s0 v0) as [[-> Hall]|(l1 & c & l2 & -> & -> & H1 & H2 & Hlt)].
      * left. split; [done|]. intros y [->|Hy]%elem_of_cons; auto.
      * right. exists (x :: l1), c, l2. split_and!; [done|done| |done|done].
        intros y [->|Hy]%elem_of_cons; [|auto]. by eapply Qle_lt_trans.
Qed.

(** The position of the first item of strictly highest score is unique. *)
Lemma first_best_unique_any (l1 l2 l1' l2' : list SearchItem) c c' :
  l1 ++ c :: l2 = l1' ++ c' :: l2' →
  (∀ x, x ∈ l1 → (sc x < sc c)%Q) → (∀ x, x ∈ l2 → (sc x <= sc c)%Q) →
  (∀ x, x ∈ l1' → (sc x < sc c')%Q) → (∀ x, x ∈ l2' → (sc x <= sc c')%Q) →
  c = c'.
Proof.
  revert l1'. induction l1 as [|y l1 IH]; intros [|y' l1'] E H1 H2 H1' H2';
    simpl in E; injection E as E1 E2.
  - done.
  - exfalso. assert (sc y' < sc c')%Q as Hlt by (apply H1'; left).
    assert (sc c' <= sc c)%Q as Hle.
    { apply H2. rewrite E2. apply elem_of_app. right. left. }
    rewrite E1 in Hle. by apply Qlt_not_le in Hlt.
  - exfalso. assert (sc y < sc c)%Q as Hlt by (apply H1; left).
    assert (sc c <= sc c')%Q as Hle.
    { apply H2'. rewrite <- E2. apply elem_of_app. right. left. }
    rewrite <- E1 in Hle. by apply Qlt_not_le in Hlt.
  - eapply IH; [exact E2|..]; intros x Hx; auto.
    + apply H1. by right.
    + apply H1'. by right.
Qed.

End Select.

(** The loop of the script is the loop above at [score]. *)
Lemma best_fold (query_title query_artist : string) items (s0 : Q)
    (v0 : option SearchItem) :
  (fold_left (best_step query_title query_artist) items (s0, v0) = (s0, v0)
   ∧ ∀ x, x ∈ items → (score query_title query_artist x <= s0)%Q)
  ∨ ∃ l1 c l2,
      items = l1 ++ c :: l2
      ∧ fold_left (best_step query_title query_artist) items (s0, v0)
        = (score query_title query_artist c, Some c)
      ∧ (∀ x, x ∈ l1 →
           (score query_title query_artist x < score query_title query_artist c)%Q)
      ∧ (∀ x, x ∈ l2 →
           (score query_title query_artist x <= score query_title query_artist c)%Q)
      ∧ (s0 < score query_title query_artist c)%Q.
Proof. exact (best_fold_any (score query_title query_artist) items s0 v0). Qed.

Lemma first_best_unique (query_title query_artist : string)
    (l1 l2 l1' l2' : list SearchItem) c c' :
  l1 ++ c :: l2 = l1' ++ c' :: l2' →
  (∀ x, x ∈ l1 → (score query_title query_artist x < score query_title query_artist c)%Q) →
  (∀ x, x ∈ l2 → (score query_title query_artist x <= score query_title query_artist c)%Q) →
  (∀ x, x ∈ l1' → (score query_title query_artist x < score query_title query_artist c')%Q) →
  (∀ x, x ∈ l2' → (score query_title query_artist x <= score query_title query_artist c')%Q) →
  c = c'.
Proof. apply first_best_unique_any. Qed.

(** C4.  Every candidate is scored with the mean of the title similarity and
    the channel similarity, taken as the code takes it, on floats: the two
    similarities, their sum and its half are each rounded to binary64.
    The selector answers the first candidate whose
    score is strictly above all earlier ones and at least all later ones,
    provided that score is strictly above 0.5; and it answers nothing
    exactly when there is no candidate or no candidate scores above 0.5. *)
Theorem select_best_spec (query_title query_artist : string) (items : list SearchItem) :
  (∀ item, score query_title query_artist item
           = binary64
               (binary64
                  (binary64 (calculate_similarity query_title (title item))
                   + binary64 (calculate_similarity query_artist
                                 (default "" (channelTitle item)))) / 2)%Q)
  ∧ (select_best query_title query_artist items = None
     ↔ items = [] ∨ ∀ x, x ∈ items → (score query_title query_artist x <= 1 # 2)%Q)
  ∧ (∀ c, select_best query_title query_artist items = Some c
          ↔ ∃ l1 l2, items = l1 ++ c :: l2
              ∧ (∀ x, x ∈ l1 → (score query_title query_artist x < score query_title query_artist c)%Q)
              ∧ (∀ x, x ∈ l2 → (score query_title query_artist x <= score query_title query_artist c)%Q)
              ∧ (1 # 2 < score query_title query_artist c)%Q).
Proof.
  split; [done|]. unfold select_best.
  destruct (best_fold query_title query_artist items 0%Q None)
    as [[-> Hall]|(l1 & c & l2 & -> & -> & H1 & H2 & Hlt)].
  - split.
    + split; [|done]. intros _. right. intros x Hx.
      eapply Qle_trans; [by apply Hall|done].
    + intros c. split; [done|]. intros (l1 & l2 & -> & _ & _ & Hhalf). exfalso.
      assert (score query_title query_artist c <= 0)%Q as Hle.
      { apply Hall. apply elem_of_app. right. left. }
      apply (Qlt_not_le _ _ Hhalf). eapply Qle_trans; [exact Hle|done].
  - destruct (Qlt_bool (1 # 2) (score query_title query_artist c)) eqn:T.
    + apply Qlt_bool_iff in T. split.
      * split; [done|]. intros [E|Hall].
        { by destruct l1. }
        exfalso. apply (Qlt_not_le _ _ T). apply Hall.
        apply elem_of_app. right. left.
      * intros c'. split.
        -- intros [= <-]. by exists l1, l2.
        -- intros (l1' & l2' & E & H1' & H2' & _). f_equal.
           by eapply first_best_unique.
    + apply Qlt_bool_false in T. split.
      * split; [|done]. intros _. right. intros x Hx.
        eapply Qle_trans; [|exact T].
        apply elem_of_app in Hx as [Hx|[->|Hx]%elem_of_cons]; auto.
        -- by apply Qlt_le_weak, H1.
        -- apply Qle_refl.
      * intros c'. split; [done|]. intros (l1' & l2' & E & H1' & H2' & Hhalf).
        exfalso. assert (c = c') as <- by by eapply first_best_unique.
        by apply Qlt_not_le in Hhalf.
Qed.

Lemma select_best_spec_witness :
  select_best "Hey Jude" "The Beatles" candidates
  = Some {| videoId := "a2"; title := "hey jude"; channelTitle := Some "the beatles" |}
  ∧ ∃ l1 l2,
      candidates
      = l1 ++ {| videoId := "a2"; title := "hey jude"; channelTitle := Some "the beatles" |} :: l2
      ∧ (∀ x, x ∈ l1 →
           (score "Hey Jude" "The Beatles" x
            < score "Hey Jude" "The Beatles"
                {| videoId := "a2"; title := "hey jude"; channelTitle := Some "the beatles" |})%Q)
      ∧ (∀ x, x ∈ l2 →
           (score "Hey Jude" "The Beatles" x
            <= score "Hey Jude" "The Beatles"
                 {| videoId := "a2"; title := "hey jude"; channelTitle := Some "the beatles" |})%Q)
      ∧ (1 # 2 < score "Hey Jude" "The Beatles"
                   {| videoId := "a2"; title := "hey jude"; channelTitle := Some "the beatles" |})%Q.
Proof.
  assert (select_best "Hey Jude" "The Beatles" candidates
          = Some {| videoId := "a2"; title := "hey jude"; channelTitle := Some "the beatles" |})
    as E by (vm_compute; reflexivity).
  split; [exact E|].
  exact (proj1 (proj2 (proj2 (select_best_spec "Hey Jude" "The Beatles" candidates)) _) E).
Defined.

(** Two candidates of the same exact mean: the floats order them, and the
    second is selected. *)
Example select_best_rounded_means :
  ((calculate_similarity "abc" "a" + calculate_similarity "abcd" "ab") / 2
   == (calculate_similarity "abc" "abc" + calculate_similarity "abcd" "a0123456") / 2)%Q
  ∧ select_best "abc" "abcd" tied_candidates
    = Some {| videoId := "t2"; title := "abc"; channelTitle := Some "a0123456" |}.
Proof. split; vm_compute; reflexivity. Qed.

(** ** Reading the import file *)

Lemma first_seen_elem_of {A : Type} `{EqDecision A} (l : list A) (x : A) :
  x ∈ first_seen l ↔ x ∈ l.
Proof.
  induction l as [|y l IH]; simpl; [done|].
  rewrite !elem_of_cons, list_elem_of_filter, IH.
  destruct (decide (x = y)); naive_solver.
Qed.

Lemma first_seen_NoDup {A : Type} `{EqDecision A} (l : list A) : NoDup (first_seen l).
Proof.
  induction l as [|y l IH]; simpl; constructor.
  - rewrite list_elem_of_filter. naive_solver.
  - by apply NoDup_filter.
Qed.

Lemma filter_all {A : Type} (P : A → Prop) `{∀ x, Decision (P x)} (l : list A) :
  (∀ x, x ∈ l → P x) → filter P l = l.
Proof.
  induction l as [|y l IH]; intros Hall; [done|].
  rewrite filter_cons_True by (apply Hall; left).
  f_equal. apply IH. intros x Hx. apply Hall. by right.
Qed.

(** The reading loop, started with [acc] and a [seen] set that holds the
    pairs of [acc], appends the first occurrences of the new pairs. *)
Lemma csv_fold (rows : list (list string)) (acc : list (string * string)) (seen : gset (string * string)) :
  (∀ key, key ∈ seen ↔ key ∈ acc) →
  (fold_left csv_step rows (acc, seen)).1
  = acc ++ filter (λ key, key ∉ acc) (first_seen (omap row_key rows)).
Proof.
  revert acc seen. induction rows as [|row rows IH]; intros acc seen Hseen; simpl.
  - by rewrite app_nil_r.
  - unfold csv_step at 2. simpl. destruct (row_key row) as [key|] eqn:Hkey; simpl.
    + destruct (bool_decide (key ∉ seen)) eqn:Hfresh.
      * apply bool_decide_eq_true in Hfresh.
        rewrite (IH (acc ++ [key]) (seen ∪ {[key]})).
        2:{ intros k. rewrite elem_of_union, elem_of_singleton, elem_of_app,
              list_elem_of_singleton, Hseen. done. }
        rewrite filter_cons_True by (by rewrite <- Hseen).
        rewrite <- app_assoc. simpl. do 2 f_equal.
        rewrite list_filter_filter. apply list_filter_iff.
        intros k. rewrite elem_of_app, list_elem_of_singleton. tauto.
      * apply bool_decide_eq_false in Hfresh.
        assert (key ∈ acc) as Hin.
        { apply Hseen. by destruct (decide (key ∈ seen)). }
        rewrite (IH acc seen Hseen).
        rewrite filter_cons_False by (intros Hn; by apply Hn).
        f_equal. rewrite list_filter_filter. apply list_filter_iff.
        intros k. split; [|tauto]. intros Hk. split; [done|]. by intros ->.
    + by apply IH.
Qed.

Lemma read_rows_first_seen (rows : list (list string)) :
  read_rows rows = first_seen (omap row_key (tail rows)).
Proof.
  unfold read_rows. rewrite (csv_fold _ [] ∅).
  - simpl. apply filter_all. intros x _ Hx. by apply elem_of_nil in Hx.
  - intros key. rewrite elem_of_empty, elem_of_nil. done.
Qed.

Lemma row_key_Some (row : list string) (t a : string) :
  row_key row = Some (t, a) ↔
  4 ≤ Z.of_nat (length row) ∧ row !! 2%nat = Some t ∧ row !! 3%nat = Some a
  ∧ t ≠ "" ∧ a ≠ ""
  ∧ ¬ (lower (strip t) = "title" ∧ lower (strip a) = "artist").
Proof.
  unfold row_key, truthy. case_bool_decide as Hlen; [|naive_solver].
  destruct (row !! 2%nat) as [t'|] eqn:E2; [|naive_solver].
  destruct (row !! 3%nat) as [a'|] eqn:E3; [|naive_solver].
  repeat case_bool_decide; simpl; naive_solver.
Qed.

(** C7, as the code has it.  Parsing answers the pairs read from the rows of
    the file named at the prompt, and reading starts at the second row.  The
    result lists, each once and in the order of their first occurrence, the
    [(title, artist)] pairs of the rows that have at least four fields, a
    non-empty title and a non-empty artist, and are not header rows: a
    header row is one whose two fields, trimmed and lower-cased, are
    ["title"] and ["artist"].  Pairs are compared exactly, so two spellings
    that differ in case are two pairs.  Rows with fewer than four fields and
    header rows contribute nothing. *)
Theorem read_rows_spec (rows : list (list string)) :
  (∀ answer open_csv,
     strip answer ≠ "" → open_csv (strip answer) = Some rows →
     import_songs_from_csv answer open_csv = read_rows rows)
  ∧ read_rows rows = first_seen (omap row_key (tail rows))
  ∧ NoDup (read_rows rows)
  ∧ (∀ t a, (t, a) ∈ read_rows rows ↔
       ∃ row, row ∈ tail rows
         ∧ 4 ≤ Z.of_nat (length row) ∧ row !! 2%nat = Some t ∧ row !! 3%nat = Some a
         ∧ t ≠ "" ∧ a ≠ ""
         ∧ ¬ (lower (strip t) = "title" ∧ lower (strip a) = "artist"))
  ∧ (∀ first l1 row l2, rows = first :: l1 ++ row :: l2 →
       (Z.of_nat (length row) < 4
        ∨ ∃ t a, row !! 2%nat = Some t ∧ row !! 3%nat = Some a
                 ∧ lower (strip t) = "title" ∧ lower (strip a) = "artist") →
       read_rows rows = read_rows (first :: l1 ++ l2)).
Proof.
  split_and!.
  - intros answer open_csv Hne Hopen. unfold import_songs_from_csv, truthy.
    rewrite bool_decide_eq_false_2 by done. simpl. by rewrite Hopen.
  - apply read_rows_first_seen.
  - rewrite read_rows_first_seen. apply first_seen_NoDup.
  - intros t a. rewrite read_rows_first_seen, first_seen_elem_of, list_elem_of_omap.
    split.
    + intros (row & Hrow & Hk). exists row. split; [done|]. by apply row_key_Some.
    + intros (row & Hrow & Hk). exists row. split; [done|]. by apply row_key_Some.
  - intros first l1 row l2 -> Hskip. rewrite !read_rows_first_seen. simpl.
    rewrite !omap_app. simpl.
    assert (row_key row = None) as ->; [|done].
    destruct (row_key row) as [[t a]|] eqn:Hk; [|done]. exfalso.
    apply row_key_Some in Hk as (Hlen & E2 & E3 & _ & _ & Hh).
    destruct Hskip as [Hshort|(t' & a' & E2' & E3' & Ht & Ha)]; [lia|].
    simplify_eq. by apply Hh.
Qed.

Lemma read_rows_spec_witness :
  read_rows shazam_rows
  = [("Hey Jude", "The Beatles"); ("Imagine", "John Lennon"); ("hey jude", "The Beatles")]
  ∧ strip " library.csv " ≠ ""
  ∧ import_songs_from_csv " library.csv "
      (λ path, if bool_decide (path = "library.csv") then Some shazam_rows else None)
    = read_rows shazam_rows
  ∧ (Z.of_nat (length ["4"; "2024-01-04"; "Broken"]) < 4
     ∨ ∃ t a, ["4"; "2024-01-04"; "Broken"] !! 2%nat = Some t
              ∧ ["4"; "2024-01-04"; "Broken"] !! 3%nat = Some a
              ∧ lower (strip t) = "title" ∧ lower (strip a) = "artist")
  ∧ read_rows shazam_rows
    = read_rows (["Shazam Library"] :: take 4 (tail shazam_rows) ++ drop 5 (tail shazam_rows)).
Proof.
  assert (Z.of_nat (length ["4"; "2024-01-04"; "Broken"]) < 4
     ∨ ∃ t a, ["4"; "2024-01-04"; "Broken"] !! 2%nat = Some t
              ∧ ["4"; "2024-01-04"; "Broken"] !! 3%nat = Some a
              ∧ lower (strip t) = "title" ∧ lower (strip a) = "artist") as Hshort.
  { left. simpl. lia. }
  assert (strip " library.csv " ≠ "") as Hne by (vm_compute; discriminate).
  split_and!.
  - vm_compute. reflexivity.
  - exact Hne.
  - exact (proj1 (read_rows_spec shazam_rows) " library.csv "
             (λ path, if bool_decide (path = "library.csv") then Some shazam_rows else None)
             Hne eq_refl).
  - exact Hshort.
  - exact (proj2 (proj2 (proj2 (proj2 (read_rows_spec shazam_rows))))
             ["Shazam Library"] (take 4 (tail shazam_rows))
             ["4"; "2024-01-04"; "Broken"] (drop 5 (tail shazam_rows)) eq_refl Hshort).
Defined.

(** C7, as stated, fails: a first row that is a song row, and a row with an
    empty artist, have four fields and are not header rows, yet their pairs
    are not returned. *)
Lemma read_rows_drops_rows :
  Forall (λ row, 4 ≤ Z.of_nat (length row)
                 ∧ ¬ ∃ t a, row !! 2%nat = Some t ∧ row !! 3%nat = Some a
                            ∧ lower t = "title" ∧ lower a = "artist") bare_rows
  ∧ (("Hey Jude", "The Beatles") ∉ read_rows bare_rows)
  ∧ (("Untitled", "") ∉ read_rows bare_rows)
  ∧ read_rows bare_rows = [].
Proof.
  assert (read_rows bare_rows = []) as E by (vm_compute; reflexivity).
  rewrite E. split_and!; [|apply not_elem_of_nil..|done].
  repeat constructor; simpl; try lia.
  - intros (t & a & [= <-] & [= <-] & Ht & _). vm_compute in Ht. discriminate.
  - intros (t & a & [= <-] & [= <-] & Ht & _). vm_compute in Ht. discriminate.
Qed.

(** ** Setting up the destination playlist *)

Lemma get_or_create_never_Some_empty_on_failure (yt : YouTube) :
  (∃ msg, client yt = Raises msg) ∨ client yt = Returns false
  ∨ (∃ msg, playlists_list yt = Raises msg) →
  get_or_create_shazam_playlist yt = Returns None
  ∨ ∃ msg, get_or_create_shazam_playlist yt = Raises msg.
Proof.
  unfold get_or_create_shazam_playlist.
  intros [[msg ->]|[->|[msg Hl]]]; [right; by exists msg|by left|].
  destruct (client yt) as [[]|msg']; [|by left|right; by exists msg'].
  rewrite Hl. by left.
Qed.

Lemma playlist_setup_cases (songs : list (string * string)) (yt : YouTube) :
  songs ≠ [] →
  match get_or_create_shazam_playlist yt with
  | Raises _ | Returns None => playlist_setup songs yt = FallbackWritten (fallback_rows songs)
  | Returns (Some playlist_id) =>
    if bool_decide (playlist_id = "")
    then playlist_setup songs yt = ErrorReported ""
    else playlist_setup songs yt = PlaylistReady playlist_id
  end.
Proof.
  intros Hne. unfold playlist_setup. destruct songs as [|s songs]; [done|].
  destruct (get_or_create_shazam_playlist yt) as [[pid|]|msg]; simpl.
  - unfold truthy. case_bool_decide as E; simpl; [by subst|done].
  - done.
  - by rewrite orb_true_r.
Qed.

(** C8, as the code has it.  Whenever the set-up yields no playlist id, by
    returning [None] or by raising, the fallback file with the header row
    and the imported pairs is written, whatever the error message says; in
    particular after a failed listing or a failed client construction.  The
    branch that only reports the error is taken exactly when an empty
    playlist id is returned. *)
Theorem playlist_setup_fallback (songs : list (string * string)) (yt : YouTube) :
  songs ≠ [] →
  (playlist_setup songs yt = FallbackWritten (fallback_rows songs)
   ↔ get_or_create_shazam_playlist yt = Returns None
     ∨ ∃ msg, get_or_create_shazam_playlist yt = Raises msg)
  ∧ (∀ error_str, playlist_setup songs yt = ErrorReported error_str
       ↔ error_str = "" ∧ get_or_create_shazam_playlist yt = Returns (Some ""))
  ∧ (∀ msg, client yt = Raises msg ∨ playlists_list yt = Raises msg →
       playlist_setup songs yt = FallbackWritten (fallback_rows songs)).
Proof.
  intros Hne. pose proof (playlist_setup_cases songs yt Hne) as Hc.
  assert (get_or_create_shazam_playlist yt = Returns None
          ∨ (∃ msg, get_or_create_shazam_playlist yt = Raises msg) →
          playlist_setup songs yt = FallbackWritten (fallback_rows songs)) as Hfail.
  { intros [E|[msg E]]; by rewrite E in Hc. }
  split_and!.
  - split; [|exact Hfail].
    destruct (get_or_create_shazam_playlist yt) as [[pid|]|msg];
      [|by left|right; by exists msg].
    case_bool_decide; rewrite Hc; done.
  - intros e. destruct (get_or_create_shazam_playlist yt) as [[pid|]|msg].
    + case_bool_decide as E; rewrite Hc; [subst|]; naive_solver.
    + rewrite Hc. naive_solver.
    + rewrite Hc. naive_solver.
  - intros msg Hm. apply Hfail.
    apply get_or_create_never_Some_empty_on_failure.
    destruct Hm as [Hm|Hm]; [left|right; right]; by exists msg.
Qed.

Lemma playlist_setup_fallback_witness :
  [("Hey Jude", "The Beatles")] ≠ []
  ∧ (client server_error_service = Raises "HttpError 500: backendError"
     ∨ playlists_list server_error_service = Raises "HttpError 500: backendError")
  ∧ playlist_setup [("Hey Jude", "The Beatles")] server_error_service
    = FallbackWritten (fallback_rows [("Hey Jude", "The Beatles")]).
Proof.
  assert ([("Hey Jude", "The Beatles")] ≠ ([] : list (string * string))) as Hne by discriminate.
  assert (client server_error_service = Raises "HttpError 500: backendError"
     ∨ playlists_list server_error_service = Raises "HttpError 500: backendError") as Hm.
  { right. reflexivity. }
  refine (conj Hne (conj Hm _)).
  exact (proj2 (proj2 (playlist_setup_fallback _ server_error_service Hne)) _ Hm).
Defined.

(** C8, as stated, fails: a listing that fails with a server error, whose
    message passes none of the script's quota tests, still ends with the
    fallback file written and not with the error report. *)
Lemma playlist_setup_writes_without_quota :
  mentions_quota "HttpError 500: backendError" = false
  ∧ playlists_list server_error_service = Raises "HttpError 500: backendError"
  ∧ playlist_setup [("Hey Jude", "The Beatles")] server_error_service
    = FallbackWritten [["Title"; "Artist"]; ["Hey Jude"; "The Beatles"]]
  ∧ ∀ error_str, playlist_setup [("Hey Jude", "The Beatles")] server_error_service
                 ≠ ErrorReported error_str.
Proof.
  split_and!; [reflexivity..|]. intros e. vm_compute. discriminate.
Qed.

(** ** Where an evidence record comes from *)

Lemma interleaved_elem_of_l {A} (l1 l2 l : list A) (x : A) :
  interleaved l1 l2 l → x ∈ l1 → x ∈ l.
Proof.
  induction 1 as [|y ???? IH|y ???? IH]; [done| |].
  - intros [->|?]%elem_of_cons; [left|right; auto].
  - intros ?. right. auto.
Qed.

(** Where an evidence record comes from: the removed song stands in the
    input after the song it resembles, that song stays kept, and the two
    meet both thresholds. *)
Lemma evidence_facts (title_threshold artist_threshold : Q) (songs : list Song)
    (r : Removed) :
  r ∈ (remove_similar_songs songs title_threshold artist_threshold).2 →
  ∃ pre post,
    songs = pre ++ cancion r :: post
    ∧ similar_a r ∈ pre
    ∧ similar_a r ∈ (remove_similar_songs songs title_threshold artist_threshold).1
    ∧ both_meet title_threshold artist_threshold (cancion r) (similar_a r).
Proof.
  intros Hr. unfold remove_similar_songs in Hr.
  apply run_records in Hr as [Hr|(pre & post & E & Hs)].
  { by apply elem_of_nil in Hr. }
  exists pre, post. split; [done|].
  apply scan_Some in Hs as (l1 & k & l2 & Hkept & _ & Hmeet & Hev).
  destruct (run_extends title_threshold artist_threshold pre [] []) as (k' & r' & Hrun & Hil).
  rewrite Hrun in Hkept. simpl in Hkept.
  assert (k ∈ k') as Hk.
  { rewrite Hkept. apply elem_of_app. right. left. }
  assert (similar_a r = k) as Hsim by (by rewrite Hev).
  rewrite Hsim. split_and!.
  - by eapply interleaved_elem_of_l.
  - rewrite E, run_app. unfold remove_similar_songs. rewrite Hrun.
    change ([] ++ k', [] ++ r') with (k', r').
    destruct (run_extends title_threshold artist_threshold (cancion r :: post) k' r')
      as (k'' & r'' & -> & _).
    simpl. apply elem_of_app. by left.
  - done.
Qed.

(** ** Further properties of the deduplication loop *)

(** X1.  No kept song meets both thresholds against a song kept before it. *)
Theorem kept_songs_pairwise_apart (songs : list Song) (title_threshold artist_threshold : Q)
    (l1 : list Song) (e : Song) (l2 : list Song) :
  (remove_similar_songs songs title_threshold artist_threshold).1 = l1 ++ e :: l2 →
  ∀ k, k ∈ l1 → ¬ both_meet title_threshold artist_threshold e k.
Proof.
  intros E. apply scan_None.
  eapply (run_kept_stable _ _ songs ([], [])); [|exact E].
  intros [|??] ?? [=].
Qed.

Lemma kept_songs_pairwise_apart_witness :
  (remove_similar_songs [hey_jude; hey_jude_lc; let_it_be]
     default_title_threshold default_artist_threshold).1 = [hey_jude] ++ let_it_be :: []
  ∧ ∀ k, k ∈ [hey_jude] →
         ¬ both_meet default_title_threshold default_artist_threshold let_it_be k.
Proof.
  assert ((remove_similar_songs [hey_jude; hey_jude_lc; let_it_be]
     default_title_threshold default_artist_threshold).1 = [hey_jude] ++ let_it_be :: []) as E
    by (vm_compute; reflexivity).
  split; [exact E|].
  exact (kept_songs_pairwise_apart _ _ _ _ _ _ E).
Defined.

Lemma Qle_one_of_eq (t q : Q) : (t <= 1)%Q → (q == 1)%Q → (t <= q)%Q.
Proof. intros Ht Hq. by rewrite Hq. Qed.

(** X2.  With thresholds of at most 1, the kept list never holds two songs
    whose titles and artists are both equal up to letter case. *)
Theorem kept_songs_no_case_variants (songs : list Song) (title_threshold artist_threshold : Q)
    (l1 : list Song) (e : Song) (l2 : list Song) (k : Song) :
  (title_threshold <= 1)%Q → (artist_threshold <= 1)%Q →
  (remove_similar_songs songs title_threshold artist_threshold).1 = l1 ++ e :: l2 →
  k ∈ l1 →
  ¬ (lower (titulo e) = lower (titulo k) ∧ lower (artista e) = lower (artista k)).
Proof.
  intros Ht Ha E Hk [Et Ea].
  assert (scan_filtered title_threshold artist_threshold e l1 = None) as Hs.
  { eapply (run_kept_stable _ _ songs ([], [])); [|exact E]. intros [|??] ?? [=]. }
  eapply scan_None in Hs; [|exact Hk]. apply Hs. split.
  - apply Qle_one_of_eq; [done|]. by apply calculate_similarity_one.
  - apply Qle_one_of_eq; [done|]. by apply calculate_similarity_one.
Qed.

Lemma kept_songs_no_case_variants_witness :
  (default_title_threshold <= 1)%Q ∧ (default_artist_threshold <= 1)%Q
  ∧ (remove_similar_songs [hey_jude; hey_jude_lc; let_it_be]
       default_title_threshold default_artist_threshold).1 = [hey_jude] ++ let_it_be :: []
  ∧ hey_jude ∈ [hey_jude]
  ∧ ¬ (lower (titulo let_it_be) = lower (titulo hey_jude)
       ∧ lower (artista let_it_be) = lower (artista hey_jude)).
Proof.
  assert (default_title_threshold <= 1)%Q as Ht by (vm_compute; discriminate).
  assert (default_artist_threshold <= 1)%Q as Ha by (vm_compute; discriminate).
  assert ((remove_similar_songs [hey_jude; hey_jude_lc; let_it_be]
     default_title_threshold default_artist_threshold).1 = [hey_jude] ++ let_it_be :: []) as E
    by (vm_compute; reflexivity).
  assert (hey_jude ∈ [hey_jude]) as Hk by left.
  exact (conj Ht (conj Ha (conj E (conj Hk
           (kept_songs_no_case_variants _ _ _ _ _ _ _ Ht Ha E Hk))))).
Defined.

(** X3.  The loop works incrementally: on a playlist extended at its end,
    the kept songs and the evidence of the shorter playlist come first and
    unchanged, and the added songs are shared out between the two
    extensions. *)
Theorem remove_similar_songs_app (l1 l2 : list Song) (title_threshold artist_threshold : Q) :
  ∃ kept' removed',
    (remove_similar_songs (l1 ++ l2) title_threshold artist_threshold).1
    = (remove_similar_songs l1 title_threshold artist_threshold).1 ++ kept'
    ∧ (remove_similar_songs (l1 ++ l2) title_threshold artist_threshold).2
      = (remove_similar_songs l1 title_threshold artist_threshold).2 ++ removed'
    ∧ interleaved kept' (cancion <$> removed') l2.
Proof.
  rewrite run_app.
  destruct (remove_similar_songs l1 title_threshold artist_threshold) as [kept removed].
  destruct (run_extends title_threshold artist_threshold l2 kept removed)
    as (k' & r' & -> & Hil).
  by exists k', r'.
Qed.

(** X4.  A threshold above 1 switches the deduplication off: every song is
    kept, in the input order, and nothing is removed. *)
Theorem remove_similar_songs_threshold_above_one (songs : list Song)
    (title_threshold artist_threshold : Q) :
  (1 < title_threshold)%Q ∨ (1 < artist_threshold)%Q →
  remove_similar_songs songs title_threshold artist_threshold = (songs, []).
Proof.
  intros Hhigh. unfold remove_similar_songs. rewrite run_stable; [done|].
  intros l1 e l2 _. apply scan_None. intros k _ [Ht Ha].
  destruct Hhigh as [H|H].
  - apply (Qlt_not_le _ _ H). eapply Qle_trans; [exact Ht|].
    apply difflib_facts.ratio_total.
  - apply (Qlt_not_le _ _ H). eapply Qle_trans; [exact Ha|].
    apply difflib_facts.ratio_total.
Qed.

Lemma remove_similar_songs_threshold_above_one_witness :
  ((1 < 11 # 10)%Q ∨ (1 < default_artist_threshold)%Q)
  ∧ remove_similar_songs [hey_jude; hey_jude_lc; let_it_be] (11 # 10) default_artist_threshold
    = ([hey_jude; hey_jude_lc; let_it_be], []).
Proof.
  assert ((1 < 11 # 10)%Q ∨ (1 < default_artist_threshold)%Q) as H by (left; reflexivity).
  split; [exact H|]. exact (remove_similar_songs_threshold_above_one _ _ _ H).
Defined.

Lemma fold_all_duplicates (title_threshold artist_threshold : Q) (s : Song)
    (rest : list Song) (removed : list Removed) :
  (title_threshold <= 0)%Q → (artist_threshold <= 0)%Q →
  fold_left (song_step title_threshold artist_threshold) rest ([s], removed)
  = ([s], removed ++ ((λ r, evidence r s) <$> rest)).
Proof.
  intros Ht Ha. revert removed. induction rest as [|r rest IH]; intros removed.
  - simpl. by rewrite app_nil_r.
  - cbn [fold_left]. unfold song_step at 2. cbn [fst snd].
    assert (scan_filtered title_threshold artist_threshold r [s] = Some (evidence r s)) as ->.
    { apply scan_Some. exists [], s, []. split_and!; [done| |split|done].
      - intros k Hk. by apply elem_of_nil in Hk.
      - eapply Qle_trans; [exact Ht|]. apply difflib_facts.ratio_total.
      - eapply Qle_trans; [exact Ha|]. apply difflib_facts.ratio_total. }
    rewrite IH. by rewrite fmap_cons, <- app_assoc.
Qed.

(** X5.  With both thresholds at or below 0, every song after the first is
    removed as a duplicate of the first one. *)
Theorem remove_similar_songs_thresholds_at_most_zero (s : Song) (rest : list Song)
    (title_threshold artist_threshold : Q) :
  (title_threshold <= 0)%Q → (artist_threshold <= 0)%Q →
  remove_similar_songs (s :: rest) title_threshold artist_threshold
  = ([s], (λ r, evidence r s) <$> rest).
Proof.
  intros Ht Ha. unfold remove_similar_songs. simpl.
  unfold song_step at 2. simpl. by rewrite fold_all_duplicates.
Qed.

Lemma remove_similar_songs_thresholds_at_most_zero_witness :
  (0 <= 0)%Q ∧ (0 <= 0)%Q
  ∧ remove_similar_songs (hey_jude :: [imagine; let_it_be]) 0 0
    = ([hey_jude], (λ r, evidence r hey_jude) <$> [imagine; let_it_be]).
Proof.
  assert (0 <= 0)%Q as H by apply Qle_refl.
  exact (conj H (conj H (remove_similar_songs_thresholds_at_most_zero _ _ _ _ H H))).
Defined.

(** X6.  The song that an evidence record keeps stands before the song it
    removes in the input: of two similar songs the earlier one stays. *)
Theorem evidence_keeps_the_earlier_song (songs : list Song)
    (title_threshold artist_threshold : Q) (r : Removed) :
  r ∈ (remove_similar_songs songs title_threshold artist_threshold).2 →
  ∃ pre post, songs = pre ++ cancion r :: post ∧ similar_a r ∈ pre.
Proof.
  intros Hr. destruct (evidence_facts _ _ _ _ Hr) as (pre & post & E & Hpre & _).
  by exists pre, post.
Qed.

Lemma evidence_keeps_the_earlier_song_witness :
  evidence hey_jude_lc hey_jude
    ∈ (remove_similar_songs [hey_jude; hey_jude_lc; let_it_be]
         default_title_threshold default_artist_threshold).2
  ∧ ∃ pre post, [hey_jude; hey_jude_lc; let_it_be]
                = pre ++ cancion (evidence hey_jude_lc hey_jude) :: post
                ∧ similar_a (evidence hey_jude_lc hey_jude) ∈ pre.
Proof.
  assert (evidence hey_jude_lc hey_jude
    ∈ (remove_similar_songs [hey_jude; hey_jude_lc; let_it_be]
         default_title_threshold default_artist_threshold).2) as H.
  { vm_compute. left. }
  split; [exact H|]. exact (evidence_keeps_the_earlier_song _ _ _ _ H).
Defined.

(** ** Further properties of the similarity *)

Lemma length_chars (s : string) : length (chars s) = String.length s.
Proof. unfold chars. induction s as [|c s IH]; simpl; [done|]. by rewrite IH. Qed.

(** The bound on the exact ratio. *)
Lemma ratio_length_bound (str1 str2 : string) :
  (calculate_similarity str1 str2
   * inject_Z (Z.of_nat (String.length (lower str1))
               + Z.of_nat (String.length (lower str2)))
   <= inject_Z (2 * (Z.of_nat (String.length (lower str1))
                     `min` Z.of_nat (String.length (lower str2)))))%Q.
Proof.
  unfold calculate_similarity.
  destruct (difflib_facts.ratio_matches (chars (lower str1)) (chars (lower str2)))
    as (M & -> & H0 & Ha & Hb & _).
  rewrite !length_chars in *.
  set (la := Z.of_nat (String.length (lower str1))) in *.
  set (lb := Z.of_nat (String.length (lower str2))) in *.
  unfold difflib.calculate_ratio. case_bool_decide as Hn.
  - assert (2 * inject_Z M / inject_Z (la + lb) * inject_Z (la + lb) == inject_Z (2 * M))%Q
      as ->.
    { rewrite inject_Z_mult. field. intros Hz.
      apply (inject_Z_injective (la + lb) 0) in Hz. done. }
    rewrite <- Zle_Qle. lia.
  - assert (la + lb = 0) as -> by lia. rewrite Qmult_0_r, <- (Zle_Qle 0). lia.
Qed.

(** X7.  Two strings whose lower-case forms differ in length cannot be very
    similar: the similarity is at most twice the shorter of the two
    lengths over their sum, the lengths being those of the lower-cased
    strings that the matcher receives.  This holds of the exact ratio and,
    when one of the strings is not empty, of the float that the function
    returns against the float of the quotient. *)
Theorem calculate_similarity_length_bound (str1 str2 : string) :
  let la := Z.of_nat (String.length (lower str1)) in
  let lb := Z.of_nat (String.length (lower str2)) in
  (calculate_similarity str1 str2 * inject_Z (la + lb) <= inject_Z (2 * (la `min` lb)))%Q
  ∧ (0 < la + lb →
     (binary64 (calculate_similarity str1 str2)
      <= binary64 (inject_Z (2 * (la `min` lb)) / inject_Z (la + lb)))%Q).
Proof.
  intros la lb. pose proof (ratio_length_bound str1 str2) as H. fold la lb in H.
  split; [exact H|]. intros Hpos.
  apply binary64_mono; [apply difflib_facts.ratio_total|].
  apply Qle_shift_div_l; [by rewrite <- (Zlt_Qlt 0)|exact H].
Qed.

Lemma calculate_similarity_length_bound_witness :
  (calculate_similarity "ab" "abc" * inject_Z (2 + 3) <= inject_Z (2 * (2 `min` 3)))%Q
  ∧ 0 < 2 + 3
  ∧ (binary64 (calculate_similarity "ab" "abc")
     <= binary64 (inject_Z (2 * (2 `min` 3)) / inject_Z (2 + 3)))%Q.
Proof.
  assert (0 < 2 + 3) as H by lia.
  exact (conj (proj1 (calculate_similarity_length_bound "ab" "abc"))
           (conj H (proj2 (calculate_similarity_length_bound "ab" "abc") H))).
Defined.

(** ** Further properties of the scoring loop *)

Lemma select_best_Some (query_title query_artist : string) (items : list SearchItem)
    (c : SearchItem) :
  select_best query_title query_artist items = Some c →
  c ∈ items ∧ (1 # 2 < score query_title query_artist c)%Q.
Proof.
  unfold select_best.
  destruct (best_fold query_title query_artist items 0%Q None)
    as [[-> _]|(l1 & c' & l2 & -> & -> & _ & _ & _)]; [done|].
  destruct (Qlt_bool (1 # 2) (score query_title query_artist c')) eqn:T; [|done].
  intros [= <-]. apply Qlt_bool_iff in T. split; [|done].
  apply elem_of_app. right. left.
Qed.

(** A rounded mean of two ratios above one half leaves neither at zero:
    with one of them at zero the sum is at most 1, and rounding takes
    neither the sum above 1 nor its half above one half. *)
Lemma half_of_one_ratio (y : Q) :
  (0 <= y)%Q → (y <= 1)%Q →
  (binary64 (binary64 (0 + binary64 y) / 2) <= 1 # 2)%Q
  ∧ (binary64 (binary64 (binary64 y + 0) / 2) <= 1 # 2)%Q.
Proof.
  intros H0 H1. destruct (binary64_unit y H0 H1) as [Hf0 Hf1].
  assert (∀ s, (0 <= s)%Q → (s <= 1)%Q → (binary64 (binary64 s / 2) <= 1 # 2)%Q) as Hhalf.
  { intros s Hs0 Hs1. destruct (binary64_unit s Hs0 Hs1) as [Hu0 Hu1].
    apply (binary64_le_pow2 _ (-1)); [|  |lia].
    - apply Qle_shift_div_l; [reflexivity|]. by rewrite Qmult_0_l.
    - apply Qle_shift_div_r; [reflexivity|].
      apply (Qle_trans _ 1); [exact Hu1|discriminate]. }
  split; apply Hhalf.
  - by rewrite Qplus_0_l.
  - by rewrite Qplus_0_l.
  - by rewrite Qplus_0_r.
  - by rewrite Qplus_0_r.
Qed.

Lemma mean_above_half (x y : Q) :
  (0 <= x)%Q → (x <= 1)%Q → (0 <= y)%Q → (y <= 1)%Q →
  (1 # 2 < binary64 (binary64 (binary64 x + binary64 y) / 2))%Q →
  (0 < x)%Q ∧ (0 < y)%Q.
Proof.
  intros Hx0 Hx1 Hy0 Hy1 H.
  split; apply Qnot_le_lt; intros Hle; apply (Qlt_not_le _ _ H).
  - assert (x == 0)%Q as E by (by apply Qle_antisym).
    rewrite (binary64_zero x E). by apply half_of_one_ratio.
  - assert (y == 0)%Q as E by (by apply Qle_antisym).
    rewrite (binary64_zero y E). by apply half_of_one_ratio.
Qed.

Lemma similarity_positive (str1 str2 : string) :
  (0 < calculate_similarity str1 str2)%Q →
  (str1 = "" ∧ str2 = "") ∨ ∃ c, c ∈ chars (lower str1) ∧ c ∈ chars (lower str2).
Proof.
  unfold calculate_similarity.
  destruct (difflib_facts.ratio_matches (chars (lower str1)) (chars (lower str2)))
    as (M & -> & H0 & Ha & Hb & _ & Hc & _).
  rewrite !length_chars in *.
  intros Hpos. destruct (decide (M = 0)) as [->|Hne].
  - left. unfold difflib.calculate_ratio in Hpos. case_bool_decide as Hn.
    + exfalso. revert Hpos. unfold Qdiv. rewrite Qmult_0_r, Qmult_0_l. apply Qlt_irrefl.
    + split; [destruct str1|destruct str2]; simpl in *; try done; lia.
  - right. apply Hc. lia.
Qed.

(** X8.  A candidate is selected only on evidence for the title and for the
    artist: both similarities are positive.  For a song with a title and an
    artist, the selected video shares a character with the title, and it
    has a channel title, which shares a character with the artist, letter
    case apart. *)
Theorem select_best_needs_title_and_artist (query_title query_artist : string)
    (items : list SearchItem) (c : SearchItem) :
  query_title ≠ "" → query_artist ≠ "" →
  select_best query_title query_artist items = Some c →
  (0 < calculate_similarity query_title (title c))%Q
  ∧ (0 < calculate_similarity query_artist (default "" (channelTitle c)))%Q
  ∧ (∃ x, x ∈ chars (lower query_title) ∧ x ∈ chars (lower (title c)))
  ∧ (∃ channel x, channelTitle c = Some channel
       ∧ x ∈ chars (lower query_artist) ∧ x ∈ chars (lower channel)).
Proof.
  intros Ht Ha [_ Hs]%select_best_Some. unfold score in Hs.
  set (st := calculate_similarity query_title (title c)) in *.
  set (sa := calculate_similarity query_artist (default "" (channelTitle c))) in *.
  assert (0 <= st)%Q as Ht0 by apply difflib_facts.ratio_total.
  assert (st <= 1)%Q as Ht1 by apply difflib_facts.ratio_total.
  assert (0 <= sa)%Q as Ha0 by apply difflib_facts.ratio_total.
  assert (sa <= 1)%Q as Ha1 by apply difflib_facts.ratio_total.
  destruct (mean_above_half st sa Ht0 Ht1 Ha0 Ha1 Hs) as [Hpt Hpa].
  split_and!; [done|done|..].
  - apply similarity_positive in Hpt as [[? _]|H]; done.
  - subst sa. apply similarity_positive in Hpa as [[? _]|(x & Hx1 & Hx2)]; [done|].
    destruct (channelTitle c) as [channel|]; simpl in *.
    + by exists channel, x.
    + by apply elem_of_nil in Hx2.
Qed.

Lemma select_best_needs_title_and_artist_witness :
  "Hey Jude" ≠ "" ∧ "The Beatles" ≠ ""
  ∧ select_best "Hey Jude" "The Beatles" candidates
    = Some {| videoId := "a2"; title := "hey jude"; channelTitle := Some "the beatles" |}
  ∧ ∃ channel x,
      channelTitle {| videoId := "a2"; title := "hey jude"; channelTitle := Some "the beatles" |}
      = Some channel
      ∧ x ∈ chars (lower "The Beatles") ∧ x ∈ chars (lower channel).
Proof.
  assert ("Hey Jude" ≠ "") as Ht by discriminate.
  assert ("The Beatles" ≠ "") as Ha by discriminate.
  assert (select_best "Hey Jude" "The Beatles" candidates
    = Some {| videoId := "a2"; title := "hey jude"; channelTitle := Some "the beatles" |})
    as E by (vm_compute; reflexivity).
  exact (conj Ht (conj Ha (conj E
    (proj2 (proj2 (proj2 (select_best_needs_title_and_artist _ _ _ _ Ht Ha E))))))).
Defined.

(** ** Further properties of the playlist set-up *)

Lemma lower_char_not_capital_S (c : ascii) : lower_char c ≠ "S"%char.
Proof.
  destruct c as [[] [] [] [] [] [] [] []]; vm_compute; discriminate.
Qed.

Lemma lower_not_title (s : string) : lower s ≠ "Shazam Songs".
Proof.
  destruct s as [|c s]; simpl; [discriminate|].
  intros [= H _]. by apply lower_char_not_capital_S in H.
Qed.

(** X9.  The search for an existing playlist never succeeds: the titles are
    lower-cased before they are compared with ["Shazam Songs"].  Whatever
    playlists the account has, the function asks for a new one, and answers
    its id, or nothing when the creation fails. *)
Theorem get_or_create_always_creates (yt : YouTube) (items : list (string * string)) :
  client yt = Returns true → playlists_list yt = Returns items →
  get_or_create_shazam_playlist yt
  = match playlists_insert yt with
    | Returns playlist_id => Returns (Some playlist_id)
    | Raises _ => Returns None
    end.
Proof.
  intros Hc Hl. unfold get_or_create_shazam_playlist. rewrite Hc, Hl.
  assert (find (λ item : string * string,
             bool_decide (lower (strip item.2) = "Shazam Songs")) items = None) as ->.
  { clear Hl. induction items as [|item items IH]; simpl; [done|].
    by rewrite bool_decide_eq_false_2 by apply lower_not_title. }
  by destruct (playlists_insert yt).
Qed.

Lemma get_or_create_always_creates_witness :
  client service_with_playlist = Returns true
  ∧ playlists_list service_with_playlist
    = Returns [("PL7", "Road Trip"); ("PL8", "Shazam Songs")]
  ∧ get_or_create_shazam_playlist service_with_playlist = Returns (Some "PL9").
Proof.
  exact (conj eq_refl (conj eq_refl
    (get_or_create_always_creates service_with_playlist _ eq_refl eq_refl))).
Defined.

(** ** Further properties of the import *)

(** X10.  The file written when the playlist cannot be set up is not an
    import file: its rows have two fields, and the import wants the title
    and the artist in the third and the fourth.  Importing it gives no
    song. *)
Theorem fallback_file_imports_nothing (songs : list (string * string)) (answer : string)
    (open_csv : string → option (list (list string))) :
  open_csv (strip answer) = Some (fallback_rows songs) →
  import_songs_from_csv answer open_csv = [].
Proof.
  intros Hopen. unfold import_songs_from_csv. destruct (truthy (strip answer)); [|done].
  rewrite Hopen, read_rows_first_seen. unfold fallback_rows. simpl.
  assert (omap row_key ((λ ta : string * string, [ta.1; ta.2]) <$> songs) = []) as ->; [|done].
  clear Hopen. induction songs as [|ta songs IH]; simpl; [done|]. exact IH.
Qed.

Lemma fallback_file_imports_nothing_witness :
  (λ _ : string, Some (fallback_rows [("Hey Jude", "The Beatles")])) (strip "deduplicated_songs.csv")
  = Some (fallback_rows [("Hey Jude", "The Beatles")])
  ∧ import_songs_from_csv "deduplicated_songs.csv"
      (λ _, Some (fallback_rows [("Hey Jude", "The Beatles")])) = [].
Proof.
  exact (conj eq_refl
    (fallback_file_imports_nothing [("Hey Jude", "The Beatles")] "deduplicated_songs.csv"
       (λ _, Some (fallback_rows [("Hey Jude", "The Beatles")])) eq_refl)).
Defined.

(** ** The order of the titles *)

Lemma ascii_compare_N (a b : ascii) :
  Ascii.compare a b = N.compare (N_of_ascii a) (N_of_ascii b).
Proof. reflexivity. Qed.

Lemma ascii_compare_Lt_trans (a b c : ascii) :
  Ascii.compare a b = Lt → Ascii.compare b c = Lt → Ascii.compare a c = Lt.
Proof. rewrite !ascii_compare_N, !N.compare_lt_iff. lia. Qed.

Lemma ascii_compare_refl (a : ascii) : Ascii.compare a a = Eq.
Proof. rewrite ascii_compare_N. apply N.compare_refl. Qed.

Lemma string_leb_trans (s1 s2 s3 : string) :
  String.leb s1 s2 = true → String.leb s2 s3 = true → String.leb s1 s3 = true.
Proof.
  unfold String.leb. revert s2 s3.
  induction s1 as [|c1 s1 IH]; intros [|c2 s2] [|c3 s3]; simpl; try done.
  destruct (Ascii.compare c1 c2) eqn:E12; [|clear IH|done].
  - apply Ascii.compare_eq_iff in E12 as ->.
    destruct (Ascii.compare c2 c3) eqn:E23; [|done|done].
    apply IH.
  - intros _. destruct (Ascii.compare c2 c3) eqn:E23; [| |done].
    + apply Ascii.compare_eq_iff in E23 as <-. by rewrite E12.
    + by rewrite (ascii_compare_Lt_trans _ _ _ E12 E23).
Qed.

Lemma string_leb_refl (s : string) : String.leb s s = true.
Proof.
  unfold String.leb. induction s as [|c s IH]; simpl; [done|].
  by rewrite ascii_compare_refl.
Qed.

(** ** [songs.sort(key=...)] *)

Lemma insert_by_key_Permutation (x : Song) (l : list Song) :
  insert_by_key x l ≡ₚ x :: l.
Proof.
  induction l as [|y l IH]; simpl; [done|].
  destruct (String.leb _ _); [done|].
  rewrite IH. apply Permutation_swap.
Qed.

Lemma sort_by_key_Permutation (l : list Song) : sort_by_key l ≡ₚ l.
Proof.
  induction l as [|x l IH]; simpl; [done|].
  by rewrite insert_by_key_Permutation, IH.
Qed.

Lemma insert_by_key_sorted (x : Song) (l : list Song) :
  StronglySorted key_le l → StronglySorted key_le (insert_by_key x l).
Proof.
  induction 1 as [|y l Hs IH Hall]; simpl.
  - repeat constructor.
  - destruct (String.leb (sort_key x) (sort_key y)) eqn:E.
    + constructor; [by constructor|]. constructor; [done|].
      eapply Forall_impl; [exact Hall|]. intros z Hz.
      by eapply string_leb_trans.
    + constructor; [done|].
      rewrite insert_by_key_Permutation. constructor; [|done].
      destruct (String.leb_total (sort_key x) (sort_key y)) as [H|H]; [congruence|done].
Qed.

Lemma sort_by_key_sorted (l : list Song) : StronglySorted key_le (sort_by_key l).
Proof.
  induction l as [|x l IH]; simpl; [constructor|]. by apply insert_by_key_sorted.
Qed.

Lemma insert_by_key_filter (k : string) (x : Song) (l : list Song) :
  StronglySorted key_le l →
  filter (λ s, sort_key s = k) (insert_by_key x l) = filter (λ s, sort_key s = k) (x :: l).
Proof.
  induction 1 as [|y l Hs IH Hall]; simpl; [done|].
  destruct (String.leb (sort_key x) (sort_key y)) eqn:E; [done|].
  rewrite (filter_cons _ y), IH, !(filter_cons _ x), (filter_cons _ y).
  destruct (decide (sort_key x = k)) as [Hx|Hx]; [|done].
  destruct (decide (sort_key y = k)) as [Hy|Hy]; [|done].
  rewrite Hx, Hy, string_leb_refl in E. done.
Qed.

Lemma sort_by_key_stable (k : string) (l : list Song) :
  filter (λ s, sort_key s = k) (sort_by_key l) = filter (λ s, sort_key s = k) l.
Proof.
  induction l as [|x l IH]; simpl; [done|].
  rewrite insert_by_key_filter by apply sort_by_key_sorted.
  by rewrite !(filter_cons _ x), IH.
Qed.

(** ** Loading the playlist *)

Lemma get_playlist_items_loop_pages {St : Type} (w : World St) (playlist_id : string)
    (tok : option string) (σ : St) (pages : list Page) (error : bool) (σ' : St) :
  pages_until w playlist_id tok σ pages error σ' →
  ∀ (fuel : nat) (acc : list PlaylistItem.t),
    (length pages + (if error then 1 else 0) ≤ fuel)%nat →
    get_playlist_items_loop fuel w playlist_id tok acc σ
    = Some (acc ++ concat (items <$> pages), σ').
Proof.
  induction 1 as [tok σ msg σ' E|tok σ p σ' E Hend|tok σ p σ1 ps error σ' E Hgo _ IH];
    intros [|fuel] acc Hfuel; simpl in *; try lia; rewrite E.
  - by rewrite app_nil_r.
  - by rewrite Hend, app_nil_r.
  - rewrite Hgo. simpl. rewrite IH by lia. by rewrite app_assoc.
Qed.

Lemma get_playlist_items_loop_inv {St : Type} (w : World St) (playlist_id : string)
    (fuel : nat) (tok : option string) (acc : list PlaylistItem.t) (σ : St)
    (l : list PlaylistItem.t) (σ' : St) :
  get_playlist_items_loop fuel w playlist_id tok acc σ = Some (l, σ') →
  ∃ pages error,
    pages_until w playlist_id tok σ pages error σ'
    ∧ l = acc ++ concat (items <$> pages) ∧ (length pages + (if error then 1 else 0) ≤ fuel)%nat.
Proof.
  revert tok acc σ. induction fuel as [|fuel IH]; intros tok acc σ; simpl; [done|].
  destruct (playlistItems_list w playlist_id tok σ) as [[p|msg] σ1] eqn:E.
  - destruct (from_option truthy false (nextPageToken p)) eqn:Hgo; simpl.
    + intros (pages & error & Hw & -> & Hlen)%IH.
      exists (p :: pages), error. split_and!.
      * eapply pages_next; [exact E|exact Hgo|exact Hw].
      * simpl. by rewrite app_assoc.
      * simpl. destruct error; lia.
    + intros [= <- <-]. exists [p], false. split_and!.
      * eapply pages_last; [exact E|exact Hgo].
      * simpl. by rewrite app_nil_r.
      * simpl. lia.
  - intros [= <- <-]. exists [], true. split_and!.
    + eapply pages_error; exact E.
    + simpl. by rewrite app_nil_r.
    + simpl. lia.
Qed.

(** X11.  [get_playlist_items] returns the items of the pages it received, in
    their order: the pages up to the first one without a token, or up to
    the first request that raises.  An error is not reported: the list is
    then what a playlist ending before the failed request would give.  The
    call returns as soon as the fuel covers the requests made: one for
    every page, and the one that raised. *)
Theorem get_playlist_items_pages {St : Type} (w : World St) (playlist_id : string)
    (σ : St) (l : list PlaylistItem.t) (σ' : St) :
  (∀ pages error,
     pages_until w playlist_id None σ pages error σ' →
     ∀ fuel, (length pages + (if error then 1 else 0) ≤ fuel)%nat →
       get_playlist_items fuel w playlist_id σ = Some (concat (items <$> pages), σ'))
  ∧ (∀ fuel,
       get_playlist_items fuel w playlist_id σ = Some (l, σ') →
       ∃ pages error,
         pages_until w playlist_id None σ pages error σ'
         ∧ l = concat (items <$> pages) ∧ (length pages + (if error then 1 else 0) ≤ fuel)%nat).
Proof.
  split.
  - intros pages error Hw fuel Hfuel. unfold get_playlist_items.
    by rewrite (get_playlist_items_loop_pages _ _ _ _ _ _ _ Hw).
  - intros fuel Hrun. by apply get_playlist_items_loop_inv in Hrun.
Qed.

(** ** Deleting the duplicates *)

Lemma count_of_snoc (b : bool) (results : list bool) (r : bool) :
  count_of b (results ++ [r]) = count_of b results + (if bool_decide (r = b) then 1 else 0).
Proof.
  unfold count_of. rewrite filter_app, length_app. simpl.
  rewrite filter_cons. case_bool_decide; destruct (decide (r = b)); simpl; try done; lia.
Qed.

Lemma count_of_total (results : list bool) :
  count_of true results + count_of false results = Z.of_nat (length results).
Proof.
  unfold count_of. induction results as [|[] results IH]; simpl; [done|..];
    rewrite !filter_cons; simpl; repeat case_decide; simpl; try done; lia.
Qed.

Lemma delete_steps_logged {St : Type} (w : World St) (ids : list string)
    (s f : Z) (σ : St) (log : Log) :
  ∃ (results : list bool) (σ' : St),
    length results = length ids
    ∧ fold_left (delete_step w) ids (s, f, σ)
      = (s + count_of true results, f + count_of false results, σ')
    ∧ fold_left (delete_step (logged w)) ids (s, f, (σ, log))
      = (s + count_of true results, f + count_of false results,
         (σ', log ++ zip (PlaylistItemsDelete <$> ids) results)).
Proof.
  revert s f σ log. induction ids as [|i ids IH]; intros s f σ log.
  - exists [], σ. simpl. unfold count_of. simpl. rewrite !Z.add_0_r, app_nil_r. done.
  - cbn [fold_left]. unfold delete_step at 2 4. cbn [logged playlistItems_delete].
    unfold recorded. cbn [fst snd].
    destruct (playlistItems_delete w i σ) as [[[]|msg] σ1] eqn:E; cbn [succeeded].
    + destruct (IH (s + 1) f σ1 (log ++ [(PlaylistItemsDelete i, true)]))
        as (results & σ' & Hlen & E1 & E2).
      exists (true :: results), σ'. split_and!.
      * simpl. by rewrite Hlen.
      * rewrite E1. f_equal. f_equal; unfold count_of; rewrite !filter_cons; simpl;
          repeat case_decide; simpl; try done; lia.
      * rewrite E2. f_equal; [f_equal; unfold count_of; rewrite !filter_cons; simpl;
          repeat case_decide; simpl; try done; lia|].
        f_equal. by rewrite <- app_assoc.
    + destruct (IH s (f + 1) σ1 (log ++ [(PlaylistItemsDelete i, false)]))
        as (results & σ' & Hlen & E1 & E2).
      exists (false :: results), σ'. split_and!.
      * simpl. by rewrite Hlen.
      * rewrite E1. f_equal. f_equal; unfold count_of; rewrite !filter_cons; simpl;
          repeat case_decide; simpl; try done; lia.
      * rewrite E2. f_equal; [f_equal; unfold count_of; rewrite !filter_cons; simpl;
          repeat case_decide; simpl; try done; lia|].
        f_equal. by rewrite <- app_assoc.
Qed.

(** X12.  [remove_videos_from_playlist] sends one delete request for every id,
    in the order of the list, whether earlier requests failed or not; the
    two counts it returns are the numbers of requests that succeeded and
    that raised, so they add up to the number of ids. *)
Theorem remove_videos_from_playlist_counts {St : Type} (w : World St)
    (ids : list string) (σ : St) (log : Log) :
  ∃ (results : list bool) (σ' : St),
    length results = length ids
    ∧ remove_videos_from_playlist w ids σ
      = (count_of true results, count_of false results, σ')
    ∧ remove_videos_from_playlist (logged w) ids (σ, log)
      = (count_of true results, count_of false results,
         (σ', log ++ zip (PlaylistItemsDelete <$> ids) results))
    ∧ count_of true results + count_of false results = Z.of_nat (length ids).
Proof.
  destruct (delete_steps_logged w ids 0 0 σ log) as (results & σ' & Hlen & E1 & E2).
  exists results, σ'. split_and!; [done|done|done|].
  by rewrite count_of_total, Hlen.
Qed.

(** ** The songs of the playlist *)

Lemma get_playlist_items_loop_logged {St : Type} (w : World St) (playlist_id : string)
    (fuel : nat) (tok : option string) (acc : list PlaylistItem.t) (σ : St) (log : Log) :
  match get_playlist_items_loop fuel w playlist_id tok acc σ with
  | None => get_playlist_items_loop fuel (logged w) playlist_id tok acc (σ, log) = None
  | Some (l, σ') =>
    ∃ calls,
      get_playlist_items_loop fuel (logged w) playlist_id tok acc (σ, log)
      = Some (l, (σ', log ++ calls))
      ∧ Forall (λ c, loading_call c.1 = true) calls
  end.
Proof.
  revert tok acc σ log. induction fuel as [|fuel IH]; intros tok acc σ log; simpl; [done|].
  unfold recorded. cbn [fst snd].
  destruct (playlistItems_list w playlist_id tok σ) as [[p|msg] σ1] eqn:E; cbn [succeeded].
  - destruct (from_option truthy false (nextPageToken p)) eqn:Hgo; simpl.
    + specialize (IH (nextPageToken p) (acc ++ items p) σ1
                     (log ++ [(PlaylistItemsList playlist_id tok, true)])).
      destruct (get_playlist_items_loop fuel w playlist_id (nextPageToken p)
                  (acc ++ items p) σ1) as [[l σ']|]; [|done].
      destruct IH as (calls & -> & Hall).
      exists ((PlaylistItemsList playlist_id tok, true) :: calls).
      split; [by rewrite <- app_assoc|]. by constructor.
    + exists [(PlaylistItemsList playlist_id tok, true)]. split; [done|]. by repeat constructor.
  - exists [(PlaylistItemsList playlist_id tok, false)]. split; [done|]. by repeat constructor.
Qed.

Lemma get_playlist_songs_logged {St : Type} (w : World St) (playlist_id : string)
    (fuel : nat) (σ : St) (log : Log) :
  match get_playlist_songs fuel playlist_id w σ with
  | None => get_playlist_songs fuel playlist_id (logged w) (σ, log) = None
  | Some (songs, σ') =>
    ∃ calls,
      get_playlist_songs fuel playlist_id (logged w) (σ, log)
      = Some (songs, (σ', log ++ calls))
      ∧ Forall (λ c, loading_call c.1 = true) calls
  end.
Proof.
  unfold get_playlist_songs. cbn [logged playlists_list_id json_dump].
  unfold recorded. cbn [fst snd].
  destruct (playlists_list_id w playlist_id σ) as [[[playlist_title|]|msg] σ1] eqn:E;
    cbn [succeeded].
  - unfold get_playlist_items.
    pose proof (get_playlist_items_loop_logged w playlist_id fuel None [] σ1
                  (log ++ [(PlaylistsList playlist_id, true)])) as H.
    destruct (get_playlist_items_loop fuel w playlist_id None [] σ1) as [[l σ2]|];
      [|rewrite H; reflexivity].
    destruct H as (calls & -> & Hall). simpl.
    destruct (mapM song_info l) as [songs|].
    + cbn [fst snd].
      destruct (json_dump w "playlist_songs.json" _ σ2) as [[[]|msg] σ3]; cbn [succeeded].
      * eexists. split; [by rewrite <- !app_assoc|].
        constructor; [done|]. apply Forall_app_2; [done|]. by repeat constructor.
      * eexists. split; [by rewrite <- !app_assoc|].
        constructor; [done|]. apply Forall_app_2; [done|]. by repeat constructor.
    + eexists. split; [by rewrite <- !app_assoc|]. by constructor.
  - exists [(PlaylistsList playlist_id, true)]. split; [done|]. by repeat constructor.
  - exists [(PlaylistsList playlist_id, false)]. split; [done|]. by repeat constructor.
Qed.

Lemma song_info_Some (item : PlaylistItem.t) (song : Song) :
  song_info item = Some song ↔
  PlaylistItem.videoId item = Some (id song)
  ∧ PlaylistItem.id item = Some (playlistItemId song)
  ∧ PlaylistItem.title item = Some (titulo song)
  ∧ artista song
    = default (default "Unknown" (PlaylistItem.channelTitle item))
              (PlaylistItem.videoOwnerChannelTitle item).
Proof.
  unfold song_info. destruct item as [i v t o c], song as [si sp st sa]; simpl.
  destruct v, i, t; simpl; naive_solver.
Qed.

(** X13.  When [get_playlist_songs] returns songs, every step has succeeded:
    the playlist was found, each item loaded gave one song (its artist is
    the video owner's channel, else the item's channel, else ["Unknown"]),
    and the list returned is the list saved to [playlist_songs.json].  It
    holds the songs of the items, sorted by lower-cased title, songs with
    the same lower-cased title staying in the order of the playlist. *)
Theorem get_playlist_songs_sorted {St : Type} (w : World St) (playlist_id : string)
    (fuel : nat) (σ : St) (songs : list Song) (σ' : St) :
  get_playlist_songs fuel playlist_id w σ = Some (songs, σ') → songs ≠ [] →
  ∃ playlist_title σ1 playlist_items σ2 loaded,
    playlists_list_id w playlist_id σ = (Returns (Some playlist_title), σ1)
    ∧ get_playlist_items fuel w playlist_id σ1 = Some (playlist_items, σ2)
    ∧ Forall2 (λ item song, song_info item = Some song) playlist_items loaded
    ∧ json_dump w "playlist_songs.json"
        (PlaylistSongs playlist_title (Z.of_nat (length songs)) songs) σ2 = (Returns (), σ')
    ∧ songs ≡ₚ loaded
    ∧ StronglySorted key_le songs
    ∧ ∀ k, filter (λ s, sort_key s = k) songs = filter (λ s, sort_key s = k) loaded.
Proof.
  unfold get_playlist_songs. intros Hrun Hne.
  destruct (playlists_list_id w playlist_id σ) as [[[playlist_title|]|msg] σ1] eqn:E;
    [|by simplify_eq|by simplify_eq].
  destruct (get_playlist_items fuel w playlist_id σ1) as [[playlist_items σ2]|] eqn:Hitems;
    simpl in Hrun; [|done].
  destruct (mapM song_info playlist_items) as [loaded|] eqn:Hmap; [|by simplify_eq].
  destruct (json_dump w "playlist_songs.json" _ σ2) as [[[]|msg] σ3] eqn:Hdump;
    [|by simplify_eq].
  injection Hrun as <- <-.
  exists playlist_title, σ1, playlist_items, σ2, loaded. split_and!; try done.
  - by apply mapM_Some.
  - apply sort_by_key_Permutation.
  - apply sort_by_key_sorted.
  - intros k. apply sort_by_key_stable.
Qed.

Lemma get_playlist_songs_sorted_witness :
  get_playlist_songs 2 "PL1" two_pages 0%nat
  = Some ([hey_jude; hey_jude_lc; let_it_be], 4%nat)
  ∧ [hey_jude; hey_jude_lc; let_it_be] ≠ []
  ∧ ∃ playlist_title σ1 playlist_items σ2 loaded,
      playlists_list_id two_pages "PL1" 0%nat = (Returns (Some playlist_title), σ1)
      ∧ get_playlist_items 2 two_pages "PL1" σ1 = Some (playlist_items, σ2)
      ∧ Forall2 (λ item song, song_info item = Some song) playlist_items loaded
      ∧ json_dump two_pages "playlist_songs.json"
          (PlaylistSongs playlist_title
             (Z.of_nat (length [hey_jude; hey_jude_lc; let_it_be]))
             [hey_jude; hey_jude_lc; let_it_be]) σ2 = (Returns (), 4%nat)
      ∧ [hey_jude; hey_jude_lc; let_it_be] ≡ₚ loaded
      ∧ StronglySorted key_le [hey_jude; hey_jude_lc; let_it_be]
      ∧ ∀ k, filter (λ s, sort_key s = k) [hey_jude; hey_jude_lc; let_it_be]
             = filter (λ s, sort_key s = k) loaded.
Proof.
  assert (get_playlist_songs 2 "PL1" two_pages 0%nat
          = Some ([hey_jude; hey_jude_lc; let_it_be], 4%nat)) as E by (vm_compute; reflexivity).
  assert ([hey_jude; hey_jude_lc; let_it_be] ≠ []) as Hne by discriminate.
  exact (conj E (conj Hne (get_playlist_songs_sorted _ _ _ _ _ _ E Hne))).
Defined.

(** X14.  One item without its id, its video id or its title makes the whole
    call answer the empty list, and nothing is saved: the world is left as
    the loading left it. *)
Theorem get_playlist_songs_malformed_item {St : Type} (w : World St) (playlist_id : string)
    (fuel : nat) (σ : St) (playlist_title : string) (σ1 : St)
    (playlist_items : list PlaylistItem.t) (σ2 : St) (item : PlaylistItem.t) :
  playlists_list_id w playlist_id σ = (Returns (Some playlist_title), σ1) →
  get_playlist_items fuel w playlist_id σ1 = Some (playlist_items, σ2) →
  item ∈ playlist_items →
  PlaylistItem.id item = None ∨ PlaylistItem.videoId item = None
  ∨ PlaylistItem.title item = None →
  get_playlist_songs fuel playlist_id w σ = Some ([], σ2).
Proof.
  intros E Hitems Hin Hbad. unfold get_playlist_songs. rewrite E, Hitems. simpl.
  assert (mapM song_info playlist_items = None) as ->; [|done].
  apply mapM_None, Exists_exists. exists item. split; [done|].
  unfold song_info. destruct Hbad as [->|[->| ->]]; simpl; [|done|].
  - by destruct (PlaylistItem.videoId item).
  - by destruct (PlaylistItem.videoId item), (PlaylistItem.id item).
Qed.

Lemma get_playlist_items_pages_witness :
  pages_until second_page_fails "PL1" None 0%nat
    [ {| items := [item_of let_it_be; item_of hey_jude]; nextPageToken := Some "page2" |} ]
    true 2%nat
  ∧ (1 + 1 ≤ 2)%nat
  ∧ get_playlist_items 2 second_page_fails "PL1" 0%nat
    = Some ([item_of let_it_be; item_of hey_jude], 2%nat).
Proof.
  assert (pages_until second_page_fails "PL1" None 0%nat
    [ {| items := [item_of let_it_be; item_of hey_jude]; nextPageToken := Some "page2" |} ]
    true 2%nat) as Hp.
  { eapply pages_next; [reflexivity|reflexivity|]. eapply pages_error; reflexivity. }
  assert (1 + 1 ≤ 2)%nat as Hf by lia.
  exact (conj Hp (conj Hf
    (proj1 (get_playlist_items_pages second_page_fails "PL1" 0%nat [] 2%nat) _ _ Hp 2%nat Hf))).
Defined.

Lemma get_playlist_songs_malformed_item_witness :
  playlists_list_id with_no_video_id "PL1" 0%nat = (Returns (Some "Mix"), 1%nat)
  ∧ get_playlist_items 2 with_no_video_id "PL1" 1%nat
    = Some ([item_of let_it_be; item_of hey_jude; item_of hey_jude_lc; no_video_id], 3%nat)
  ∧ no_video_id ∈ [item_of let_it_be; item_of hey_jude; item_of hey_jude_lc; no_video_id]
  ∧ (PlaylistItem.id no_video_id = None ∨ PlaylistItem.videoId no_video_id = None
     ∨ PlaylistItem.title no_video_id = None)
  ∧ get_playlist_songs 2 "PL1" with_no_video_id 0%nat = Some ([], 3%nat).
Proof.
  assert (no_video_id
          ∈ [item_of let_it_be; item_of hey_jude; item_of hey_jude_lc; no_video_id]) as Hin
    by (apply (list_elem_of_lookup_2 _ 3%nat); reflexivity).
  assert (PlaylistItem.id no_video_id = None ∨ PlaylistItem.videoId no_video_id = None
     ∨ PlaylistItem.title no_video_id = None) as Hbad by (right; left; reflexivity).
  exact (conj eq_refl (conj eq_refl (conj Hin (conj Hbad
    (get_playlist_songs_malformed_item with_no_video_id "PL1" 2 0%nat "Mix" 1%nat
       _ 3%nat no_video_id eq_refl eq_refl Hin Hbad))))).
Defined.

(** ** The program *)

Lemma nonempty_true {A : Type} (l : list A) : nonempty l = true ↔ l ≠ [].
Proof. by destruct l. Qed.

Lemma nonempty_false {A : Type} (l : list A) : nonempty l = false ↔ l = [].
Proof. by destruct l. Qed.

(** What a run of [main] asks of the world: nothing, or the loading of
    the playlist, followed, when duplicates were searched and found, by the
    delete requests (if confirmed) and the saving of the evidence. *)
Lemma main_logged {St : Type} (w : World St) (fuel : nat) (auth : Auth)
    (a1 a2 a3 : string) (σ : St) (log : Log) (res : outcome unit) (σ' : St) (log' : Log) :
  main fuel auth (logged w) a1 a2 a3 (σ, log) = Some (res, (σ', log')) →
  (log' = log
   ∧ ((∀ c, (get_youtube_client auth).2 ≠ Returns (Some c, true)) ∨ strip a1 = ""))
  ∨ ∃ c songs σ1 calls,
      (get_youtube_client auth).2 = Returns (Some c, true) ∧ strip a1 ≠ ""
      ∧ get_playlist_songs fuel (strip a1) (logged w) (σ, log)
        = Some (songs, (σ1, log ++ calls))
      ∧ Forall (λ c, loading_call c.1 = true) calls
      ∧ ((log' = log ++ calls
          ∧ (confirms a2 = false ∨ (remove_similar_songs songs (8 # 10) (9 # 10)).2 = []))
         ∨ ∃ deletes b,
             confirms a2 = true
             ∧ (remove_similar_songs songs (8 # 10) (9 # 10)).2 ≠ []
             ∧ log' = (log ++ calls) ++ deletes
                 ++ [(JsonDump "playlist_songs_removed.json"
                        (RemovedSongs
                           (Z.of_nat (length (remove_similar_songs songs (8 # 10) (9 # 10)).2))
                           (remove_similar_songs songs (8 # 10) (9 # 10)).2), b)]
             ∧ ((confirms a3 = false ∧ deletes = [])
                ∨ (confirms a3 = true
                   ∧ ∃ results,
                       length results
                       = length (remove_similar_songs songs (8 # 10) (9 # 10)).2
                       ∧ deletes
                         = zip (PlaylistItemsDelete
                                  <$> ((λ item, playlistItemId (cancion item))
                                         <$> (remove_similar_songs songs (8 # 10) (9 # 10)).2))
                               results))
             ∧ (res = Returns () ↔ b = true)).
Proof.
  unfold main.
  destruct (get_youtube_client auth).2 as [[client is_authenticated]|msg] eqn:Hclient;
    [|intros [= _ _ <-]; left; split; [done|by left]].
  destruct is_authenticated; simpl; [|intros [= _ _ <-]; left; split; [done|by left]].
  destruct client as [c|]; simpl; [|intros [= _ _ <-]; left; split; [done|by left]].
  rewrite ?bool_decide_eq_true_2 by done. simpl.
  destruct (truthy (strip a1)) eqn:Hpid; simpl.
  2:{ intros [= _ _ <-]. left. split; [done|]. right.
      unfold truthy in Hpid. apply negb_false_iff, bool_decide_eq_true in Hpid. done. }
  assert (strip a1 ≠ "") as Hne.
  { intros Hs. rewrite Hs in Hpid. done. }
  pose proof (get_playlist_songs_logged w (strip a1) fuel σ log) as Hsongs.
  destruct (get_playlist_songs fuel (strip a1) w σ) as [[songs σ1]|]; [|by rewrite Hsongs].
  destruct Hsongs as (calls & Hsongs & Hall). rewrite Hsongs. simpl.
  intros Hrun. right. exists c, songs, σ1, calls. split_and!; [done..|].
  destruct (nonempty songs) eqn:Hsome.
  2:{ left. injection Hrun as _ _ <-. split; [done|]. right.
      apply nonempty_false in Hsome as ->. done. }
  destruct (confirms a2) eqn:Ha2.
  2:{ left. simpl in Hrun. injection Hrun as _ _ <-. by split; [|left]. }
  destruct (remove_similar_songs songs (8 # 10) (9 # 10)) as [kept removed] eqn:Hrss.
  cbn [snd]. destruct (nonempty removed) eqn:Hrem.
  2:{ left. simpl in Hrun. rewrite Hrem in Hrun. injection Hrun as _ _ <-.
      split; [done|]. right. by apply nonempty_false. }
  right. apply nonempty_true in Hrem as Hremne.
  destruct (confirms a3) eqn:Ha3; cbn [andb] in Hrun.
  - destruct (delete_steps_logged w
                ((λ item, playlistItemId (cancion item)) <$> removed) 0 0 σ1 (log ++ calls))
      as (results & σ2 & Hlen & _ & Hdel).
    unfold remove_videos_from_playlist in Hrun. rewrite Hdel, Hrem in Hrun. cbn [logged json_dump] in Hrun.
    unfold recorded in Hrun. cbn [fst snd] in Hrun.
    destruct (json_dump w "playlist_songs_removed.json" _ σ2) as [[[]|msg] σ3];
      cbn [succeeded] in Hrun; injection Hrun as <- <- <-.
    + exists (zip (PlaylistItemsDelete
                      <$> ((λ item, playlistItemId (cancion item)) <$> removed)) results), true.
      split_and!; [done|done|by rewrite <- !app_assoc| |done].
      right. split; [done|]. exists results. by rewrite !length_fmap in Hlen.
    + exists (zip (PlaylistItemsDelete
                      <$> ((λ item, playlistItemId (cancion item)) <$> removed)) results), false.
      split_and!; [done|done|by rewrite <- !app_assoc| |done].
      right. split; [done|]. exists results. by rewrite !length_fmap in Hlen.
  - rewrite Hrem in Hrun. cbn [logged json_dump] in Hrun.
    unfold recorded in Hrun. cbn [fst snd] in Hrun.
    destruct (json_dump w "playlist_songs_removed.json" _ σ1) as [[[]|msg] σ3];
      cbn [succeeded] in Hrun; injection Hrun as <- <- <-.
    + exists [], true. split_and!; [done|done|done| |done]. by left.
    + exists [], false. split_and!; [done|done|done| |done]. by left.
Qed.

Lemma get_playlist_songs_order {St : Type} (w : World St) (playlist_id : string)
    (fuel : nat) (σ : St) (songs : list Song) (σ' : St) :
  get_playlist_songs fuel playlist_id w σ = Some (songs, σ') → StronglySorted key_le songs.
Proof.
  unfold get_playlist_songs.
  destruct (playlists_list_id w playlist_id σ) as [[[playlist_title|]|msg] σ1];
    [|intros [= <- _]; constructor..].
  destruct (get_playlist_items fuel w playlist_id σ1) as [[playlist_items σ2]|]; [|done].
  simpl. destruct (mapM song_info playlist_items) as [loaded|];
    [|intros [= <- _]; constructor].
  destruct (json_dump w "playlist_songs.json" _ σ2) as [[[]|msg] σ3]; intros [= <- _].
  - apply sort_by_key_sorted.
  - constructor.
Qed.

Lemma confirms_true (answer : string) :
  confirms answer = true ↔ lower (strip answer) = "s" ∨ lower (strip answer) = "y".
Proof.
  unfold confirms. rewrite orb_true_iff, !bool_decide_eq_true. done.
Qed.

Lemma elem_of_zip_l {A B : Type} (l : list A) (k : list B) (x : A) (y : B) :
  (x, y) ∈ zip l k → x ∈ l.
Proof.
  revert k. induction l as [|a l IH]; intros [|b k]; simpl; try by intros ?%elem_of_nil.
  intros [[= -> ->]|H]%elem_of_cons; [left|right; eauto].
Qed.

Lemma loading_not_delete (calls : Log) (i : string) (b : bool) :
  Forall (λ c, loading_call c.1 = true) calls → (PlaylistItemsDelete i, b) ∉ calls.
Proof.
  intros Hall Hin. rewrite Forall_forall in Hall. by apply Hall in Hin.
Qed.

(** X15.  [main] sends a delete request only after both questions were
    answered with [s] or [y] (spaces and letter case apart), with a client
    that authenticated and a playlist id that is not blank. *)
Theorem main_deletes_only_when_confirmed {St : Type} (w : World St) (fuel : nat)
    (auth : Auth) (a1 a2 a3 : string) (σ : St) (res : outcome unit) (σ' : St)
    (log' : Log) (i : string) (b : bool) :
  main fuel auth (logged w) a1 a2 a3 (σ, []) = Some (res, (σ', log')) →
  (PlaylistItemsDelete i, b) ∈ log' →
  (lower (strip a2) = "s" ∨ lower (strip a2) = "y")
  ∧ (lower (strip a3) = "s" ∨ lower (strip a3) = "y")
  ∧ strip a1 ≠ ""
  ∧ ∃ c, (get_youtube_client auth).2 = Returns (Some c, true).
Proof.
  intros Hrun Hin.
  apply main_logged in Hrun
    as [[-> _]|(c & songs & σ1 & calls & Hc & Hpid & Hsongs & Hall & Hrest)].
  { by apply elem_of_nil in Hin. }
  destruct Hrest as [[-> _]|(deletes & b' & Ha2 & Hne & -> & Hdel & _)].
  { by apply loading_not_delete in Hin. }
  simpl in Hin. rewrite !elem_of_app in Hin.
  destruct Hin as [Hin|[Hin|Hin]].
  - by apply loading_not_delete in Hin.
  - destruct Hdel as [[_ ->]|[Ha3 _]]; [by apply elem_of_nil in Hin|].
    split_and!; [by apply confirms_true|by apply confirms_true|done|by exists c].
  - apply list_elem_of_singleton in Hin. done.
Qed.

(** X16.  Every entry that [main] asks to delete has a counterpart that
    stays: a loaded song that meets both thresholds (0.8 on the title, 0.9
    on the artist) with the deleted one and that was kept.  When the
    entries of the playlist have distinct ids, the counterpart is never
    deleted. *)
Theorem main_keeps_a_similar_song {St : Type} (w : World St) (fuel : nat)
    (auth : Auth) (a1 a2 a3 : string) (σ : St) (res : outcome unit) (σ' : St)
    (log' : Log) (i : string) (b : bool) :
  main fuel auth (logged w) a1 a2 a3 (σ, []) = Some (res, (σ', log')) →
  (PlaylistItemsDelete i, b) ∈ log' →
  ∃ songs σ1 log1 song kept,
    get_playlist_songs fuel (strip a1) (logged w) (σ, []) = Some (songs, (σ1, log1))
    ∧ song ∈ songs ∧ kept ∈ songs
    ∧ playlistItemId song = i
    ∧ both_meet (8 # 10) (9 # 10) song kept
    ∧ kept ∈ (remove_similar_songs songs (8 # 10) (9 # 10)).1
    ∧ (NoDup (playlistItemId <$> songs) →
       ∀ b', (PlaylistItemsDelete (playlistItemId kept), b') ∉ log').
Proof.
  intros Hrun Hin.
  apply main_logged in Hrun
    as [[-> _]|(c & songs & σ1 & calls & Hc & Hpid & Hsongs & Hall & Hrest)].
  { by apply elem_of_nil in Hin. }
  destruct Hrest as [[-> _]|(deletes & b' & Ha2 & Hne & -> & Hdel & _)].
  { by apply loading_not_delete in Hin. }
  simpl in Hin. rewrite !elem_of_app in Hin.
  destruct Hin as [Hin|[Hin|Hin]];
    [by apply loading_not_delete in Hin| |by apply list_elem_of_singleton in Hin].
  destruct Hdel as [[_ ->]|[Ha3 (results & Hlen & ->)]]; [by apply elem_of_nil in Hin|].
  apply elem_of_zip_l in Hin.
  apply list_elem_of_fmap in Hin as (i' & [= ->] & Hin).
  apply list_elem_of_fmap in Hin as (r & -> & Hr).
  destruct (evidence_facts _ _ _ _ Hr) as (pre & post & E & Hpre & Hkept & Hmeet).
  exists songs, σ1, ([] ++ calls), (cancion r), (similar_a r).
  split_and!; [done| | |done|done|done|].
  - rewrite E. apply elem_of_app. right. left.
  - rewrite E. apply elem_of_app. by left.
  - intros Hnodup b'' Hin. simpl in Hin. rewrite !elem_of_app in Hin.
    destruct Hin as [Hin|[Hin|Hin]];
      [by apply loading_not_delete in Hin| |by apply list_elem_of_singleton in Hin].
    apply elem_of_zip_l in Hin.
    apply list_elem_of_fmap in Hin as (i' & [= Hi'] & Hin).
    apply list_elem_of_fmap in Hin as (r' & -> & Hr').
    destruct (run_extends (8 # 10) (9 # 10) songs [] []) as (k' & rs' & Hrss & Hil).
    unfold remove_similar_songs in Hkept, Hr'. rewrite Hrss in Hkept, Hr'.
    simpl in Hkept, Hr'.
    apply interleaved_Permutation in Hil. rewrite Hil, fmap_app in Hnodup.
    apply NoDup_app in Hnodup as (_ & Hdisj & _).
    apply (Hdisj (playlistItemId (similar_a r))).
    + apply list_elem_of_fmap. by exists (similar_a r).
    + rewrite Hi'. apply list_elem_of_fmap. exists (cancion r'). split; [done|].
      apply list_elem_of_fmap. by exists r'.
Qed.

Lemma main_deletes_only_when_confirmed_witness :
  main 2 valid_token (logged two_pages) "PL1" " Y " "s" (0%nat, [])
  = Some (Returns (), (6%nat, two_pages_log))
  ∧ (PlaylistItemsDelete "p2", true) ∈ two_pages_log
  ∧ (lower (strip " Y ") = "s" ∨ lower (strip " Y ") = "y")
  ∧ (lower (strip "s") = "s" ∨ lower (strip "s") = "y")
  ∧ strip "PL1" ≠ ""
  ∧ ∃ c, (get_youtube_client valid_token).2 = Returns (Some c, true).
Proof.
  assert (main 2 valid_token (logged two_pages) "PL1" " Y " "s" (0%nat, [])
          = Some (Returns (), (6%nat, two_pages_log))) as E by (vm_compute; reflexivity).
  assert ((PlaylistItemsDelete "p2", true) ∈ two_pages_log) as Hin
    by (apply (list_elem_of_lookup_2 _ 4%nat); reflexivity).
  exact (conj E (conj Hin (main_deletes_only_when_confirmed _ _ _ _ _ _ _ _ _ _ _ _ E Hin))).
Defined.

Lemma main_keeps_a_similar_song_witness :
  main 2 valid_token (logged two_pages) "PL1" "y" "y" (0%nat, [])
  = Some (Returns (), (6%nat, two_pages_log))
  ∧ (PlaylistItemsDelete "p2", true) ∈ two_pages_log
  ∧ ∃ songs σ1 log1 song kept,
      get_playlist_songs 2 (strip "PL1") (logged two_pages) (0%nat, [])
      = Some (songs, (σ1, log1))
      ∧ song ∈ songs ∧ kept ∈ songs
      ∧ playlistItemId song = "p2"
      ∧ both_meet (8 # 10) (9 # 10) song kept
      ∧ kept ∈ (remove_similar_songs songs (8 # 10) (9 # 10)).1
      ∧ (NoDup (playlistItemId <$> songs) →
         ∀ b', (PlaylistItemsDelete (playlistItemId kept), b') ∉ two_pages_log).
Proof.
  assert (main 2 valid_token (logged two_pages) "PL1" "y" "y" (0%nat, [])
          = Some (Returns (), (6%nat, two_pages_log))) as E by (vm_compute; reflexivity).
  assert ((PlaylistItemsDelete "p2", true) ∈ two_pages_log) as Hin
    by (apply (list_elem_of_lookup_2 _ 4%nat); reflexivity).
  exact (conj E (conj Hin (main_keeps_a_similar_song _ _ _ _ _ _ _ _ _ _ _ _ E Hin))).
Defined.

(** X17.  When the search for duplicates was confirmed and found some, the
    last thing [main] does is to save the evidence, all of it, to
    [playlist_songs_removed.json], whether or not the deletion was
    confirmed and whatever the delete requests answered; the run ends
    normally exactly when that saving succeeds.  In every other run no
    such file is written. *)
Theorem main_saves_the_evidence {St : Type} (w : World St) (fuel : nat)
    (auth : Auth) (a1 a2 a3 : string) (σ : St) (res : outcome unit) (σ' : St)
    (log' : Log) :
  main fuel auth (logged w) a1 a2 a3 (σ, []) = Some (res, (σ', log')) →
  (∀ c songs s1,
     (get_youtube_client auth).2 = Returns (Some c, true) → strip a1 ≠ "" →
     get_playlist_songs fuel (strip a1) (logged w) (σ, []) = Some (songs, s1) →
     confirms a2 = true →
     (remove_similar_songs songs (8 # 10) (9 # 10)).2 ≠ [] →
     ∃ b, last log'
          = Some (JsonDump "playlist_songs_removed.json"
                    (RemovedSongs
                       (Z.of_nat (length (remove_similar_songs songs (8 # 10) (9 # 10)).2))
                       (remove_similar_songs songs (8 # 10) (9 # 10)).2), b)
          ∧ (res = Returns () ↔ b = true))
  ∧ (∀ doc b, (JsonDump "playlist_songs_removed.json" doc, b) ∈ log' →
       confirms a2 = true
       ∧ ∃ songs s1,
           get_playlist_songs fuel (strip a1) (logged w) (σ, []) = Some (songs, s1)
           ∧ (remove_similar_songs songs (8 # 10) (9 # 10)).2 ≠ []
           ∧ doc = RemovedSongs
                     (Z.of_nat (length (remove_similar_songs songs (8 # 10) (9 # 10)).2))
                     (remove_similar_songs songs (8 # 10) (9 # 10)).2).
Proof.
  intros Hrun.
  apply main_logged in Hrun
    as [[-> Hwhy]|(c & songs & σ1 & calls & Hc & Hpid & Hsongs & Hall & Hrest)].
  { split.
    - intros c songs s1 Hc Hpid _ _ _. exfalso. destruct Hwhy as [Hno|E]; [|done].
      by apply (Hno c).
    - intros doc b Hin. by apply elem_of_nil in Hin. }
  assert (∀ doc b,
    (JsonDump "playlist_songs_removed.json" doc, b) ∉ calls) as Hloading.
  { intros doc b Hin. rewrite Forall_forall in Hall.
    by apply Hall in Hin. }
  destruct Hrest as [[-> Hnone]|(deletes & b' & Ha2 & Hne & -> & Hdel & Hres)].
  - split.
    + intros c' songs' s1 _ _ Hsongs' Ha2 Hne. exfalso.
      rewrite Hsongs in Hsongs'. injection Hsongs' as <- _.
      destruct Hnone as [Hno|Hno]; congruence.
    + intros doc b Hin. by apply Hloading in Hin.
  - split.
    + intros c' songs' s1 _ _ Hsongs' _ _.
      rewrite Hsongs in Hsongs'. injection Hsongs' as <- _.
      exists b'. split; [|done]. by rewrite app_assoc, last_snoc.
    + intros doc b Hin. split; [done|]. exists songs, (σ1, [] ++ calls).
      split; [done|]. split; [done|].
      simpl in Hin. rewrite !elem_of_app in Hin. destruct Hin as [Hin|[Hin|Hin]].
      * by apply Hloading in Hin.
      * exfalso. destruct Hdel as [[_ ->]|[_ (results & _ & ->)]].
        -- by apply elem_of_nil in Hin.
        -- apply elem_of_zip_l, list_elem_of_fmap in Hin as (? & ? & _). done.
      * apply list_elem_of_singleton in Hin. by injection Hin as <- _.
Qed.

Lemma main_saves_the_evidence_witness :
  main 2 valid_token (logged two_pages) "PL1" "y" "n" (0%nat, [])
  = Some (Returns (), (5%nat, take 4 two_pages_log ++ drop 5 two_pages_log))
  ∧ ∀ doc b,
      (JsonDump "playlist_songs_removed.json" doc, b)
        ∈ take 4 two_pages_log ++ drop 5 two_pages_log →
      confirms "y" = true
      ∧ ∃ songs s1,
          get_playlist_songs 2 (strip "PL1") (logged two_pages) (0%nat, [])
          = Some (songs, s1)
          ∧ (remove_similar_songs songs (8 # 10) (9 # 10)).2 ≠ []
          ∧ doc = RemovedSongs
                    (Z.of_nat (length (remove_similar_songs songs (8 # 10) (9 # 10)).2))
                    (remove_similar_songs songs (8 # 10) (9 # 10)).2.
Proof.
  assert (main 2 valid_token (logged two_pages) "PL1" "y" "n" (0%nat, [])
          = Some (Returns (), (5%nat, take 4 two_pages_log ++ drop 5 two_pages_log)))
    as E by (vm_compute; reflexivity).
  exact (conj E (proj2 (main_saves_the_evidence _ _ _ _ _ _ _ _ _ _ E))).
Defined.

(** X18.  Of two similar entries the one that stays is the one whose
    lower-cased title comes first: in every evidence record that [main]
    saves, the title of the kept song is not after the title of the
    removed one, both in lower case and compared by code points. *)
Theorem main_keeps_the_first_title {St : Type} (w : World St) (fuel : nat)
    (auth : Auth) (a1 a2 a3 : string) (σ : St) (res : outcome unit) (σ' : St)
    (log' : Log) (n : Z) (removed : list Removed) (b : bool) (r : Removed) :
  main fuel auth (logged w) a1 a2 a3 (σ, []) = Some (res, (σ', log')) →
  (JsonDump "playlist_songs_removed.json" (RemovedSongs n removed), b) ∈ log' →
  r ∈ removed →
  String.leb (lower (titulo (similar_a r))) (lower (titulo (cancion r))) = true.
Proof.
  intros Hrun Hin Hr.
  apply main_logged in Hrun
    as [[-> _]|(c & songs & σ1 & calls & Hc & Hpid & Hsongs & Hall & Hrest)].
  { by apply elem_of_nil in Hin. }
  assert (∀ doc b,
    (JsonDump "playlist_songs_removed.json" doc, b) ∉ calls) as Hloading.
  { intros doc b0 Hin0. rewrite Forall_forall in Hall.
    by apply Hall in Hin0. }
  destruct Hrest as [[-> _]|(deletes & b' & Ha2 & Hne & -> & Hdel & Hres)].
  { by apply Hloading in Hin. }
  simpl in Hin. rewrite !elem_of_app in Hin. destruct Hin as [Hin|[Hin|Hin]].
  - by apply Hloading in Hin.
  - exfalso. destruct Hdel as [[_ ->]|[_ (results & _ & ->)]].
    + by apply elem_of_nil in Hin.
    + apply elem_of_zip_l, list_elem_of_fmap in Hin as (? & ? & _). done.
  - apply list_elem_of_singleton in Hin. injection Hin as _ -> _.
    apply get_playlist_songs_order in Hsongs.
    destruct (evidence_facts _ _ _ _ Hr) as (pre & post & E & Hpre & _).
    rewrite E in Hsongs.
    apply (StronglySorted_app_1_elem_of _ _ _ _ _ Hsongs Hpre). left.
Qed.

Lemma main_keeps_the_first_title_witness :
  main 2 valid_token (logged two_pages) "PL1" "y" "y" (0%nat, [])
  = Some (Returns (), (6%nat, two_pages_log))
  ∧ (JsonDump "playlist_songs_removed.json"
       (RemovedSongs 1 [evidence hey_jude_lc hey_jude]), true) ∈ two_pages_log
  ∧ evidence hey_jude_lc hey_jude ∈ [evidence hey_jude_lc hey_jude]
  ∧ String.leb (lower (titulo (similar_a (evidence hey_jude_lc hey_jude))))
               (lower (titulo (cancion (evidence hey_jude_lc hey_jude)))) = true.
Proof.
  assert (main 2 valid_token (logged two_pages) "PL1" "y" "y" (0%nat, [])
          = Some (Returns (), (6%nat, two_pages_log))) as E by (vm_compute; reflexivity).
  assert ((JsonDump "playlist_songs_removed.json"
       (RemovedSongs 1 [evidence hey_jude_lc hey_jude]), true) ∈ two_pages_log) as Hin
    by (apply (list_elem_of_lookup_2 _ 5%nat); reflexivity).
  assert (evidence hey_jude_lc hey_jude ∈ [evidence hey_jude_lc hey_jude]) as Hr by left.
  exact (conj E (conj Hin (conj Hr
    (main_keeps_the_first_title _ _ _ _ _ _ _ _ _ _ _ _ _ _ E Hin Hr)))).
Defined.

(** X19.  [main] returns whenever the listing of the playlist comes to an
    end, by a page without a token or by a request that raises, within
    the fuel. *)
Theorem main_returns {St : Type} (w : World St) (fuel : nat) (auth : Auth)
    (a1 a2 a3 : string) (σ : St) (pages : list Page) (error : bool) (σ2 : St) :
  pages_until w (strip a1) None (playlists_list_id w (strip a1) σ).2 pages error σ2 →
  (length pages + (if error then 1 else 0) ≤ fuel)%nat →
  is_Some (main fuel auth w a1 a2 a3 σ).
Proof.
  intros Hpages Hfuel. unfold main.
  destruct (get_youtube_client auth).2 as [[client []]|msg]; simpl; [|done..].
  destruct (bool_decide (is_Some client)); simpl; [|done].
  destruct (truthy (strip a1)); simpl; [|done].
  assert (is_Some (get_playlist_songs fuel (strip a1) w σ)) as [[songs σ1] ->].
  { unfold get_playlist_songs.
    destruct (playlists_list_id w (strip a1) σ) as [[[playlist_title|]|msg] s1]; [|done..].
    unfold get_playlist_items.
    rewrite (get_playlist_items_loop_pages _ _ _ _ _ _ _ Hpages) by done. simpl.
    destruct (mapM song_info _); [|done].
    by destruct (json_dump w _ _ σ2) as [[[]|?] ?]. }
  simpl. destruct (nonempty songs); [|done].
  destruct (confirms a2); [|done].
  destruct (remove_similar_songs songs (8 # 10) (9 # 10)) as [kept removed].
  destruct (nonempty removed) eqn:Hrem; simpl; [|by rewrite Hrem].
  destruct (confirms a3).
  - destruct (remove_videos_from_playlist w _ σ1) as [[s f] σ3]. rewrite Hrem.
    by destruct (json_dump w _ _ σ3) as [[[]|?] ?].
  - rewrite Hrem. by destruct (json_dump w _ _ σ1) as [[[]|?] ?].
Qed.

Lemma main_returns_witness :
  pages_until two_pages (strip "PL1") None (playlists_list_id two_pages (strip "PL1") 0%nat).2
    [ {| items := [item_of let_it_be; item_of hey_jude]; nextPageToken := Some "page2" |};
      {| items := [item_of hey_jude_lc]; nextPageToken := None |} ] false 3%nat
  ∧ (2 + 0 ≤ 2)%nat
  ∧ is_Some (main 2 valid_token two_pages "PL1" "y" "y" 0%nat).
Proof.
  assert (pages_until two_pages (strip "PL1") None
            (playlists_list_id two_pages (strip "PL1") 0%nat).2
    [ {| items := [item_of let_it_be; item_of hey_jude]; nextPageToken := Some "page2" |};
      {| items := [item_of hey_jude_lc]; nextPageToken := None |} ] false 3%nat) as Hp.
  { eapply pages_next; [reflexivity|reflexivity|]. eapply pages_last; reflexivity. }
  assert (2 + 0 ≤ 2)%nat as Hf by lia.
  exact (conj Hp (conj Hf (main_returns two_pages 2 valid_token "PL1" "y" "y" 0%nat _ _ _ Hp Hf))).
Defined.

(** ** The client *)

Lemma refresh_stored_cases (env : Auth) (creds : option Credentials.t)
    (events : list AuthEvent) (creds' : option Credentials.t) :
  refresh_stored env creds = (events, creds') →
  (events = [] ∧ creds' = creds)
  ∨ (∃ c c', creds = Some c ∧ refresh env c = Returns c'
             ∧ events = [Refreshed] ∧ creds' = Some c')
  ∨ (∃ c, creds = Some c ∧ events = [RefreshFailed] ∧ creds' = None).
Proof.
  unfold refresh_stored. destruct creds as [c|]; [|intros [= <- <-]; by left].
  destruct (_ && _); [|intros [= <- <-]; by left].
  destruct (refresh env c) as [c'|msg] eqn:E; intros [= <- <-].
  - right. left. by exists c, c'.
  - right. right. by exists c.
Qed.

Lemma login_from_config_cases (placeholder : string) (env : Auth)
    (events : list AuthEvent) (res : outcome (option Credentials.t)) :
  login_from_config placeholder env = (events, res) →
  (events = [] ∧ ∀ c, res ≠ Returns (Some c))
  ∨ (∃ client_id client_secret,
       events = [LoginStarted client_id client_secret] ∧ res = Returns None)
  ∨ (∃ client_id client_secret c s,
       config_json env = Some (Returns (Some client_id, s))
       ∧ client_id ≠ "" ∧ client_id ≠ placeholder
       ∧ run_local_server env client_id client_secret = Returns c
       ∧ events = [LoginStarted client_id client_secret; TokenSaved c]
       ∧ res = Returns (Some c)).
Proof.
  unfold login_from_config.
  destruct (config_json env) as [[[id secret]|msg]|]; [|intros [= <- <-]; by left..].
  simpl. unfold truthy.
  destruct (decide (default "" id = "")) as [Hid|Hid].
  { rewrite (bool_decide_eq_true_2 _ Hid). simpl. intros [= <- <-]. by left. }
  rewrite (bool_decide_eq_false_2 _ Hid). simpl.
  destruct (bool_decide (default "" secret = "")); simpl; [intros [= <- <-]; by left|].
  case_bool_decide as Hph; [intros [= <- <-]; by left|].
  destruct (run_local_server env (default "" id) (default "" secret)) as [c|msg] eqn:Hrun.
  2:{ intros [= <- <-]. right. left. by eexists _, _. }
  destruct (pickle_dump env c) as [[]|msg]; intros [= <- <-].
  - right. right. exists (default "" id), (default "" secret), c, secret.
    destruct id as [id|]; [|done]. done.
  - right. left. by eexists _, _.
Qed.

(** X20.  The flag that [get_youtube_client] returns is true exactly when it
    returns a client, and a client was built by [build] from the
    credentials it carries.  This holds for both modules. *)
Theorem get_youtube_client_flag (placeholder : string) (env : Auth)
    (events : list AuthEvent) (client : option Credentials.t) (authenticated : bool) :
  get_youtube_client_with placeholder env = (events, Returns (client, authenticated)) →
  (authenticated = true ↔ is_Some client)
  ∧ ∀ c, client = Some c → build env c = Returns ().
Proof.
  unfold get_youtube_client_with.
  assert (∀ ev (r : outcome (option Credentials.t)),
    match r with
    | Raises msg => (ev, Raises msg)
    | Returns None => (ev, Returns (None, false))
    | Returns (Some c) =>
      match build env c with
      | Returns _ => (ev, Returns (Some c, true))
      | Raises _ => (ev, Returns (None, false))
      end
    end = (events, Returns (client, authenticated)) →
    (authenticated = true ↔ is_Some client)
    ∧ ∀ c, client = Some c → build env c = Returns ()) as Hend.
  { intros ev [[c|]|msg]; [|intros [= _ <- <-]|done].
    - destruct (build env c) as [[]|msg] eqn:Hb; intros [= _ <- <-].
      + split; [by split|]. by intros ? [= <-].
      + split; [|done]. split; [done|]. by intros [? ?].
    - split; [|done]. split; [done|]. by intros [? ?]. }
  destruct (token_pickle env) as [[c0|msg]|]; [|done|].
  - cbn -[refresh_stored login_from_config].
    destruct (Credentials.valid c0); cbn -[refresh_stored login_from_config];
      [apply (Hend [] (Returns (Some c0)))|].
    destruct (refresh_stored env (Some c0)) as [ev [c1|]];
      [apply (Hend ev (Returns (Some c1)))|].
    destruct (login_from_config placeholder env) as [ev' r]. apply (Hend (ev ++ ev') r).
  - cbn -[refresh_stored login_from_config].
    destruct (login_from_config placeholder env) as [ev' r]. apply (Hend ev' r).
Qed.

Lemma get_youtube_client_flag_witness :
  get_youtube_client_with "TU_CLIENT_ID_AQUI" first_login
  = ([LoginStarted "id.apps.googleusercontent.com" "secret";
      TokenSaved {| Credentials.valid := true; Credentials.expired := false;
                    Credentials.refresh_token := Some "r2" |}],
     Returns (Some {| Credentials.valid := true; Credentials.expired := false;
                      Credentials.refresh_token := Some "r2" |}, true))
  ∧ (true = true
     ↔ is_Some (Some {| Credentials.valid := true; Credentials.expired := false;
                        Credentials.refresh_token := Some "r2" |})).
Proof.
  assert (get_youtube_client_with "TU_CLIENT_ID_AQUI" first_login
  = ([LoginStarted "id.apps.googleusercontent.com" "secret";
      TokenSaved {| Credentials.valid := true; Credentials.expired := false;
                    Credentials.refresh_token := Some "r2" |}],
     Returns (Some {| Credentials.valid := true; Credentials.expired := false;
                      Credentials.refresh_token := Some "r2" |}, true))) as E
    by (vm_compute; reflexivity).
  exact (conj E (proj1 (get_youtube_client_flag _ _ _ _ _ E))).
Defined.

(** X21.  Stored credentials that are not valid and cannot be refreshed (they
    are not expired, or carry no refresh token) are used as they are: the
    function does not log in, saves nothing, and answers the client that
    [build] makes of them, with the flag set. *)
Theorem get_youtube_client_stale_token (placeholder : string) (env : Auth)
    (c : Credentials.t) :
  token_pickle env = Some (Returns c) →
  Credentials.valid c = false →
  Credentials.expired c = false ∨ Credentials.refresh_token c = None
  ∨ Credentials.refresh_token c = Some "" →
  get_youtube_client_with placeholder env
  = ([], match build env c with
         | Returns _ => Returns (Some c, true)
         | Raises _ => Returns (None, false)
         end).
Proof.
  intros Htok Hvalid Hstale. unfold get_youtube_client_with. rewrite Htok. simpl.
  rewrite Hvalid. simpl.
  assert (Credentials.expired c
          && from_option truthy false (Credentials.refresh_token c) = false) as ->.
  { destruct Hstale as [->|[->| ->]]; [done|..]; by destruct (Credentials.expired c). }
  by destruct (build env c).
Qed.

Lemma get_youtube_client_stale_token_witness :
  token_pickle stale_token
  = Some (Returns {| Credentials.valid := false; Credentials.expired := true;
                     Credentials.refresh_token := None |})
  ∧ get_youtube_client_with "TU_CLIENT_ID_AQUI" stale_token
    = ([], Returns (Some {| Credentials.valid := false; Credentials.expired := true;
                            Credentials.refresh_token := None |}, true)).
Proof.
  exact (conj eq_refl
    (get_youtube_client_stale_token "TU_CLIENT_ID_AQUI" stale_token _ eq_refl eq_refl
       (or_intror (or_introl eq_refl)))).
Defined.

(** X22.  The token file is written only by a login: the credentials saved
    are the ones the login flow returned, for a client id that is neither
    empty nor the placeholder, and no credentials were stored or their
    refresh failed.  Credentials that were refreshed are never saved. *)
Theorem get_youtube_client_saves_logins_only (placeholder : string) (env : Auth)
    (events : list AuthEvent) (res : outcome (option Credentials.t * bool))
    (c : Credentials.t) :
  get_youtube_client_with placeholder env = (events, res) →
  TokenSaved c ∈ events →
(Refreshed ∉ events)
  ∧ (token_pickle env = None ∨ RefreshFailed ∈ events)
  ∧ ∃ client_id client_secret s,
      config_json env = Some (Returns (Some client_id, s))
      ∧ client_id ≠ "" ∧ client_id ≠ placeholder
      ∧ run_local_server env client_id client_secret = Returns c
      ∧ last events = Some (TokenSaved c).
Proof.
  unfold get_youtube_client_with.
  assert (∀ ev (r : outcome (option Credentials.t)),
    match r with
    | Raises msg => (ev, Raises msg)
    | Returns None => (ev, Returns (None, false))
    | Returns (Some c) =>
      match build env c with
      | Returns _ => (ev, Returns (Some c, true))
      | Raises _ => (ev, Returns (None, false))
      end
    end = (events, res) → ev = events) as Hend.
  { intros ev [[c'|]|msg]; [|by intros [= <- _]..].
    by destruct (build env c'); intros [= <- _]. }
  assert (∀ ev0 ev' r,
    login_from_config placeholder env = (ev', r) →
    (ev0 = [] ∧ token_pickle env = None ∨ ev0 = [RefreshFailed]) →
    TokenSaved c ∈ ev0 ++ ev' →
    (Refreshed ∉ ev0 ++ ev')
    ∧ (token_pickle env = None ∨ RefreshFailed ∈ ev0 ++ ev')
    ∧ ∃ client_id client_secret s,
        config_json env = Some (Returns (Some client_id, s))
        ∧ client_id ≠ "" ∧ client_id ≠ placeholder
        ∧ run_local_server env client_id client_secret = Returns c
        ∧ last (ev0 ++ ev') = Some (TokenSaved c)) as Hlogin.
  { intros ev0 ev' r Hl Hev0 Hin.
    assert (TokenSaved c ∉ ev0) as Hnot.
    { destruct Hev0 as [[-> _]| ->]; [apply not_elem_of_nil|].
      by intros ?%list_elem_of_singleton. }
    apply elem_of_app in Hin as [Hin|Hin]; [done|].
    apply login_from_config_cases in Hl
      as [[-> _]|[(id & secret & -> & _)|(id & secret & c' & s & Hcfg & Hid & Hph & Hrun & -> & _)]].
    - by apply elem_of_nil in Hin.
    - by apply list_elem_of_singleton in Hin.
    - apply elem_of_cons in Hin as [Hin|Hin]; [done|].
      apply list_elem_of_singleton in Hin. injection Hin as <-.
      split_and!.
      + destruct Hev0 as [[-> _]| ->]; simpl; intros Hr;
          repeat (apply elem_of_cons in Hr as [Hr|Hr]; [done|]); by apply elem_of_nil in Hr.
      + destruct Hev0 as [[-> ?]| ->]; [by left|right; left].
      + exists id, secret, s. split_and!; try done.
        by destruct Hev0 as [[-> _]| ->]. }
  destruct (token_pickle env) as [[c0|msg]|] eqn:Htok.
  - cbn -[refresh_stored login_from_config].
    destruct (Credentials.valid c0); cbn -[refresh_stored login_from_config].
    { intros <-%(Hend [] (Returns (Some c0))) Hin. by apply elem_of_nil in Hin. }
    destruct (refresh_stored env (Some c0)) as [ev c1] eqn:Hr.
    apply refresh_stored_cases in Hr
      as [[-> ->]|[(? & c' & _ & _ & -> & ->)|(? & _ & -> & ->)]].
    + intros <-%(Hend [] (Returns (Some c0))) Hin. by apply elem_of_nil in Hin.
    + intros <-%(Hend [Refreshed] (Returns (Some c'))) Hin.
      by apply list_elem_of_singleton in Hin.
    + destruct (login_from_config placeholder env) as [ev' r] eqn:Hl.
      intros <-%(Hend ([RefreshFailed] ++ ev') r) Hin.
      eapply Hlogin; [done|by right|done].
  - intros [= <- _] Hin. by apply elem_of_nil in Hin.
  - cbn -[refresh_stored login_from_config].
    destruct (login_from_config placeholder env) as [ev' r] eqn:Hl.
    intros <-%(Hend ev' r) Hin. eapply (Hlogin []); [done|by left|done].
Qed.

Lemma get_youtube_client_saves_logins_only_witness :
  get_youtube_client_with "TU_CLIENT_ID_AQUI" first_login
  = ([LoginStarted "id.apps.googleusercontent.com" "secret";
      TokenSaved {| Credentials.valid := true; Credentials.expired := false;
                    Credentials.refresh_token := Some "r2" |}],
     Returns (Some {| Credentials.valid := true; Credentials.expired := false;
                      Credentials.refresh_token := Some "r2" |}, true))
  ∧ Refreshed ∉ [LoginStarted "id.apps.googleusercontent.com" "secret";
                 TokenSaved {| Credentials.valid := true; Credentials.expired := false;
                               Credentials.refresh_token := Some "r2" |}].
Proof.
  assert (get_youtube_client_with "TU_CLIENT_ID_AQUI" first_login
  = ([LoginStarted "id.apps.googleusercontent.com" "secret";
      TokenSaved {| Credentials.valid := true; Credentials.expired := false;
                    Credentials.refresh_token := Some "r2" |}],
     Returns (Some {| Credentials.valid := true; Credentials.expired := false;
                      Credentials.refresh_token := Some "r2" |}, true))) as E
    by (vm_compute; reflexivity).
  split; [exact E|].
  refine (proj1 (get_youtube_client_saves_logins_only _ _ _ _ _ E _)).
  right. left.
Defined.

(** The function of shazam_import.py, read against the one of index.py:
    the same steps, with its own placeholder. *)
Lemma shazam_import_get_youtube_client_steps (env : Auth) :
  shazam_import.get_youtube_client env
  = get_youtube_client_with "YOUR_CLIENT_ID_HERE" env.
Proof.
  unfold shazam_import.get_youtube_client, get_youtube_client_with,
    refresh_stored, login_from_config.
  destruct (token_pickle env) as [[c|msg]|]; [|done|].
  - destruct c as [valid expired [token|]]; cbn [Credentials.valid Credentials.expired
      Credentials.refresh_token is_Some from_option].
    + rewrite bool_decide_eq_true_2 by eauto.
      destruct valid, expired; cbn [negb orb andb]; [done..| |].
      * destruct (truthy token); [|done].
        destruct (refresh env _) as [c'|msg]; [done|].
        destruct (config_json env) as [[[id secret]|msg']|]; [|done..].
        cbn [fst snd].
        destruct (truthy (default "" id)), (truthy (default "" secret)); [|done..].
        cbn [negb orb]. case_bool_decide; [done|].
        destruct (run_local_server env _ _) as [c'|?]; [|done].
        by destruct (pickle_dump env c').
      * done.
    + rewrite bool_decide_eq_true_2 by eauto.
      by destruct valid, expired.
  - rewrite bool_decide_eq_false_2 by (by intros [? ?]).
    cbn [negb orb].
    destruct (config_json env) as [[[id secret]|msg']|]; [|done..].
    cbn [fst snd].
    destruct (truthy (default "" id)), (truthy (default "" secret)); [|done..].
    cbn [negb orb]. case_bool_decide; [done|].
    destruct (run_local_server env _ _) as [c'|?]; [|done].
    by destruct (pickle_dump env c').
Qed.

(** X23.  The two modules carry the same function but for the client id they
    refuse: on every environment whose configured client id is neither of
    the two placeholders, the function of index.py and the function of
    shazam_import.py, each taken from its own text, do the same and answer
    the same. *)
Theorem get_youtube_client_modules_agree (env : Auth) :
  (∀ client_id s, config_json env = Some (Returns (Some client_id, s)) →
     client_id ≠ "TU_CLIENT_ID_AQUI" ∧ client_id ≠ "YOUR_CLIENT_ID_HERE") →
  get_youtube_client env = shazam_import.get_youtube_client env.
Proof.
  intros Hcfg. rewrite shazam_import_get_youtube_client_steps.
  unfold get_youtube_client.
  assert (login_from_config "TU_CLIENT_ID_AQUI" env
          = login_from_config "YOUR_CLIENT_ID_HERE" env) as Hlogin.
  { unfold login_from_config.
    destruct (config_json env) as [[[[id|] secret]|msg]|]; [|done..].
    destruct (Hcfg id secret eq_refl) as [H1 H2]. simpl.
    by rewrite !(bool_decide_eq_false_2 (id = _)) by done. }
  unfold get_youtube_client_with. by rewrite Hlogin.
Qed.

Lemma get_youtube_client_modules_agree_witness :
  (∀ client_id s, config_json first_login = Some (Returns (Some client_id, s)) →
     client_id ≠ "TU_CLIENT_ID_AQUI" ∧ client_id ≠ "YOUR_CLIENT_ID_HERE")
  ∧ get_youtube_client first_login = shazam_import.get_youtube_client first_login.
Proof.
  assert (∀ client_id s, config_json first_login = Some (Returns (Some client_id, s)) →
     client_id ≠ "TU_CLIENT_ID_AQUI" ∧ client_id ≠ "YOUR_CLIENT_ID_HERE") as H.
  { intros client_id s [= <- _]. split; discriminate. }
  exact (conj H (get_youtube_client_modules_agree first_login H)).
Defined.

(** ** Adding the songs to the playlist *)

Lemma searches_app (l1 l2 : Log) : searches (l1 ++ l2) = searches l1 ++ searches l2.
Proof. apply omap_app. Qed.

Lemma added_app (l1 l2 : Log) : added (l1 ++ l2) = added l1 ++ added l2.
Proof. apply omap_app. Qed.

Lemma inserts_app (l1 l2 : Log) : inserts (l1 ++ l2) = inserts l1 ++ inserts l2.
Proof. apply omap_app. Qed.

(** One round on the logged world: the requests it makes and what it does
    to the variables of the loop. *)
Lemma song_round_logged {St : Type} (w : World St) (playlist_id : string)
    (p : Progress) (σ : St) (log : Log) (title artist : string) :
  ∃ calls p' σ' new,
    song_round (logged w) playlist_id (p, (σ, log)) (title, artist)
    = (p', (σ', log ++ calls))
    ∧ song_round w playlist_id (p, σ) (title, artist) = (p', σ')
    ∧ searches calls = [search_query title artist]
    ∧ playlist_video_ids p' = playlist_video_ids p ∪ list_to_set (added calls)
    ∧ NoDup (added calls)
    ∧ (∀ v, v ∈ added calls → v ∉ playlist_video_ids p)
    ∧ unmatched_songs p' = unmatched_songs p ++ new
    ∧ failed_to_add_songs p' = failed_to_add_songs p ++ omap quota_failure new
    ∧ sublist (fst <$> new) [(title, artist)]
    ∧ (length new + length (inserts calls) ≤ 1)%nat
    ∧ (∀ q, (SearchList q, false) ∈ calls → new ≠ [])
    ∧ (∀ c, c ∈ calls →
         c.1 = SearchList (search_query title artist)
         ∨ ∃ v, c.1 = PlaylistItemsInsert playlist_id v).
Proof.
  unfold song_round. cbn [logged search_list playlistItems_insert fst snd].
  unfold recorded. cbn [fst snd].
  destruct (search_list w (search_query title artist) σ) as [[items|msg] σ1] eqn:Hs;
    cbn [succeeded fst snd].
  - destruct (select_best title artist items) as [best|] eqn:Hbest.
    + case_bool_decide as Hin.
      * exists [(SearchList (search_query title artist), true)], p, σ1, [].
        split_and!;
          [done|done|done|simpl; set_solver|constructor
          |simpl; by intros ? ?%elem_of_nil|by rewrite app_nil_r|by rewrite app_nil_r
          |simpl; by constructor|simpl; lia
          |by intros q [=]%list_elem_of_singleton
          |intros c ->%list_elem_of_singleton; by left].
      * destruct (playlistItems_insert w playlist_id (videoId best) σ1)
          as [[[]|msg] σ2] eqn:Hi; cbn [succeeded fst snd].
        -- eexists [(SearchList (search_query title artist), true);
                    (PlaylistItemsInsert playlist_id (videoId best), true)], _, σ2, [].
           split_and!;
             [by rewrite <- app_assoc|done|done|simpl; set_solver
             |simpl; apply NoDup_singleton
             |simpl; by intros v ->%list_elem_of_singleton
             |simpl; by rewrite app_nil_r|simpl; by rewrite app_nil_r
             |simpl; by constructor|simpl; lia
             |by intros q [[=]|[[=]|[]%elem_of_nil]%elem_of_cons]%elem_of_cons
             |intros c [->|[->|[]%elem_of_nil]%elem_of_cons]%elem_of_cons;
                [by left|right; by eexists]].
        -- eexists [(SearchList (search_query title artist), true);
                    (PlaylistItemsInsert playlist_id (videoId best), false)], p, σ2, [].
           split_and!;
             [by rewrite <- app_assoc|done|done|simpl; set_solver|constructor
             |simpl; by intros ? ?%elem_of_nil
             |by rewrite app_nil_r|by rewrite app_nil_r
             |simpl; by constructor|simpl; lia
             |by intros q [[=]|[[=]|[]%elem_of_nil]%elem_of_cons]%elem_of_cons
             |intros c [->|[->|[]%elem_of_nil]%elem_of_cons]%elem_of_cons;
                [by left|right; by eexists]].
    + eexists [(SearchList (search_query title artist), true)], _, σ1, [(title, artist, None)].
      split_and!;
        [done|done|done|simpl; set_solver|constructor
        |simpl; by intros ? ?%elem_of_nil|done|simpl; by rewrite app_nil_r
        |done|simpl; lia|done
        |intros c ->%list_elem_of_singleton; by left].
  - eexists [(SearchList (search_query title artist), false)], _, σ1,
            [(title, artist, Some msg)].
    split_and!;
      [done|done|done|simpl; set_solver|constructor
      |simpl; by intros ? ?%elem_of_nil|done
      |simpl; unfold quota_failure; simpl;
       by destruct (mentions_quota msg); rewrite ?app_nil_r
      |done|simpl; lia|done
      |intros c ->%list_elem_of_singleton; by left].
Qed.

(** The loop on the logged world. *)
Lemma song_rounds_logged {St : Type} (w : World St) (playlist_id : string)
    (songs : list (string * string)) (p : Progress) (σ : St) (log : Log) :
  ∃ calls p' σ' new,
    fold_left (song_round (logged w) playlist_id) songs (p, (σ, log))
    = (p', (σ', log ++ calls))
    ∧ fold_left (song_round w playlist_id) songs (p, σ) = (p', σ')
    ∧ searches calls = (λ song, search_query song.1 song.2) <$> songs
    ∧ playlist_video_ids p' = playlist_video_ids p ∪ list_to_set (added calls)
    ∧ NoDup (added calls)
    ∧ (∀ v, v ∈ added calls → v ∉ playlist_video_ids p)
    ∧ unmatched_songs p' = unmatched_songs p ++ new
    ∧ failed_to_add_songs p' = failed_to_add_songs p ++ omap quota_failure new
    ∧ sublist (fst <$> new) songs
    ∧ (length new + length (inserts calls) ≤ length songs)%nat
    ∧ (∀ q, (SearchList q, false) ∈ calls → new ≠ [])
    ∧ (∀ c, c ∈ calls →
         (∃ q, c.1 = SearchList q) ∨ ∃ v, c.1 = PlaylistItemsInsert playlist_id v).
Proof.
  revert p σ log. induction songs as [|[title artist] songs IH]; intros p σ log.
  - exists [], p, σ, []. simpl. rewrite !app_nil_r.
    split_and!; try done; try set_solver; try constructor.
  - cbn [fold_left].
    destruct (song_round_logged w playlist_id p σ log title artist)
      as (calls1 & p1 & σ1 & new1 & -> & -> & Hs1 & Hids1 & Hnd1 & Hnew1 & Hu1 & Hf1
          & Hsub1 & Hlen1 & Hfail1 & Hcalls1).
    destruct (IH p1 σ1 (log ++ calls1))
      as (calls2 & p2 & σ2 & new2 & -> & -> & Hs2 & Hids2 & Hnd2 & Hnew2 & Hu2 & Hf2
          & Hsub2 & Hlen2 & Hfail2 & Hcalls2).
    exists (calls1 ++ calls2), p2, σ2, (new1 ++ new2). split_and!.
    + by rewrite app_assoc.
    + done.
    + by rewrite searches_app, Hs1, Hs2.
    + rewrite Hids2, Hids1, added_app, list_to_set_app_L. set_solver.
    + rewrite added_app. apply NoDup_app. split_and!; [done| |done].
      intros v Hv1 Hv2. apply Hnew2 in Hv2. rewrite Hids1 in Hv2. set_solver.
    + intros v. rewrite added_app, elem_of_app. intros [Hv|Hv]; [by apply Hnew1|].
      apply Hnew2 in Hv. rewrite Hids1 in Hv. set_solver.
    + by rewrite Hu2, Hu1, app_assoc.
    + by rewrite Hf2, Hf1, omap_app, app_assoc.
    + rewrite fmap_app. by apply (sublist_app _ [_]).
    + rewrite inserts_app, !length_app. simpl. lia.
    + intros q [Hq|Hq]%elem_of_app.
      * apply Hfail1 in Hq. by destruct new1.
      * apply Hfail2 in Hq. by destruct new1, new2.
    + intros c [Hc|Hc]%elem_of_app; [|by apply Hcalls2].
      destruct (Hcalls1 c Hc) as [->|?]; [left; by eexists|by right].
Qed.

(** X24.  The loop searches once for every song, in the order of the list,
    and an error does not end it: after a search that failed, for want of
    quota or otherwise, every remaining song is still searched.  Beside the
    searches it only asks to insert videos into the playlist. *)
Theorem song_loop_searches_every_song {St : Type} (w : World St) (playlist_id : string)
    (songs : list (string * string)) (p : Progress) (σ : St) (log : Log) :
  ∃ calls p' σ',
    fold_left (song_round (logged w) playlist_id) songs (p, (σ, log))
    = (p', (σ', log ++ calls))
    ∧ fold_left (song_round w playlist_id) songs (p, σ) = (p', σ')
    ∧ searches calls = (λ song, search_query song.1 song.2) <$> songs
    ∧ (∀ c, c ∈ calls →
         (∃ q, c.1 = SearchList q) ∨ ∃ v, c.1 = PlaylistItemsInsert playlist_id v).
Proof.
  destruct (song_rounds_logged w playlist_id songs p σ log)
    as (calls & p' & σ' & new & H1 & H2 & H3 & _ & _ & _ & _ & _ & _ & _ & _ & H4).
  by exists calls, p', σ'.
Qed.

(** X25.  The loop never adds a video that the playlist holds, and never adds
    the same video twice: the videos whose insertion succeeded are pairwise
    distinct, none of them was in the set of ids the loop started with, and
    the set it ends with is the first one and these videos. *)
Theorem song_loop_adds_each_video_once {St : Type} (w : World St) (playlist_id : string)
    (songs : list (string * string)) (p : Progress) (σ : St) (log : Log) :
  ∃ calls p' σ',
    fold_left (song_round (logged w) playlist_id) songs (p, (σ, log))
    = (p', (σ', log ++ calls))
    ∧ playlist_video_ids p' = playlist_video_ids p ∪ list_to_set (added calls)
    ∧ NoDup (added calls)
    ∧ (∀ v, v ∈ added calls → v ∉ playlist_video_ids p).
Proof.
  destruct (song_rounds_logged w playlist_id songs p σ log)
    as (calls & p' & σ' & new & H1 & _ & _ & H2 & H3 & H4 & _).
  by exists calls, p', σ'.
Qed.

(** X26.  The loop extends the list of unmatched songs by songs of the input,
    in their order, and at least by one when a search failed.  The list of
    failures extends by the new unmatched entries whose error message
    mentions the quota (["quota"] in any case, or ["403"]).  The new
    entries and the insert requests together are at most as many as the
    songs: when an insertion was asked for every song, no song is listed
    as unmatched, though insertions may have failed. *)
Theorem song_loop_unmatched {St : Type} (w : World St) (playlist_id : string)
    (songs : list (string * string)) (p : Progress) (σ : St) (log : Log) :
  ∃ calls p' σ' new,
    fold_left (song_round (logged w) playlist_id) songs (p, (σ, log))
    = (p', (σ', log ++ calls))
    ∧ fold_left (song_round w playlist_id) songs (p, σ) = (p', σ')
    ∧ unmatched_songs p' = unmatched_songs p ++ new
    ∧ failed_to_add_songs p' = failed_to_add_songs p ++ omap quota_failure new
    ∧ sublist (fst <$> new) songs
    ∧ (length new + length (inserts calls) ≤ length songs)%nat
    ∧ (∀ q, (SearchList q, false) ∈ calls → new ≠ []).
Proof.
  destruct (song_rounds_logged w playlist_id songs p σ log)
    as (calls & p' & σ' & new & H1 & H2 & _ & _ & _ & _ & H3 & H4 & H5 & H6 & H7 & _).
  by exists calls, p', σ', new.
Qed.

(** ** The videos of the playlist *)

Lemma get_playlist_video_ids_returns {St : Type} (w : World St) (playlist_id : string)
    (tok : option string) (σ : St) (pages : list Page) (error : bool) (σ' : St) :
  pages_until w playlist_id tok σ pages error σ' →
  ∀ (fuel : nat) (acc : gset string),
    (length pages + (if error then 1 else 0) ≤ fuel)%nat →
    is_Some (get_playlist_video_ids fuel w playlist_id tok acc σ).
Proof.
  induction 1 as [tok σ msg σ' E|tok σ p σ' E Hend|tok σ p σ1 ps error σ' E Hgo _ IH];
    intros [|fuel] acc Hfuel; simpl in *; try lia; rewrite E; [done|..].
  - destruct (mapM PlaylistItem.videoId (items p)); [|done]. by rewrite Hend.
  - destruct (mapM PlaylistItem.videoId (items p)); [|done]. rewrite Hgo. simpl.
    apply IH. lia.
Qed.

Lemma mapM_omap {A B : Type} (f : A → option B) (l : list A) :
  Forall (λ x, is_Some (f x)) l → mapM f l = Some (omap f l).
Proof.
  induction 1 as [|x l [y Hy] _ IH]; [done|].
  simpl. rewrite Hy. simpl. by rewrite IH.
Qed.

Lemma get_playlist_video_ids_pages_from {St : Type} (w : World St) (playlist_id : string)
    (tok : option string) (σ : St) (pages : list Page) (error : bool) (σ' : St) :
  pages_until w playlist_id tok σ pages error σ' →
  Forall (λ item, is_Some (PlaylistItem.videoId item)) (concat (items <$> pages)) →
  ∀ (fuel : nat) (acc : gset string),
    (length pages + (if error then 1 else 0) ≤ fuel)%nat →
    if error
    then ∃ msg, get_playlist_video_ids fuel w playlist_id tok acc σ = Some (Raises msg, σ')
    else get_playlist_video_ids fuel w playlist_id tok acc σ
         = Some (Returns (acc ∪ list_to_set
                            (omap PlaylistItem.videoId (concat (items <$> pages)))), σ').
Proof.
  induction 1 as [tok σ msg σ' E|tok σ p σ' E Hend|tok σ p σ1 ps error σ' E Hgo _ IH];
    intros Hall [|fuel] acc Hfuel; simpl in *; try lia; rewrite E.
  - by exists msg.
  - rewrite app_nil_r in *.
    rewrite (mapM_omap _ _ Hall). by rewrite Hend.
  - apply Forall_app in Hall as [Hp Hps].
    rewrite (mapM_omap _ _ Hp). rewrite Hgo. simpl.
    specialize (IH Hps fuel (acc ∪ list_to_set (omap PlaylistItem.videoId (items p)))).
    destruct error.
    + apply IH. lia.
    + rewrite IH by lia. do 2 f_equal. rewrite omap_app, list_to_set_app_L.
      by rewrite (assoc_L (∪)).
Qed.

(** X27.  [get_playlist_video_ids] collects the video ids of all the pages of
    the playlist.  Unlike the listing of index.py it keeps nothing when a
    request raises: the exception leaves the function, and with it the
    import. *)
Theorem get_playlist_video_ids_pages {St : Type} (w : World St) (playlist_id : string)
    (σ : St) (pages : list Page) (error : bool) (σ' : St) (fuel : nat) :
  pages_until w playlist_id None σ pages error σ' →
  Forall (λ item, is_Some (PlaylistItem.videoId item)) (concat (items <$> pages)) →
  (length pages + (if error then 1 else 0) ≤ fuel)%nat →
  if error
  then ∃ msg, get_playlist_video_ids fuel w playlist_id None ∅ σ = Some (Raises msg, σ')
  else get_playlist_video_ids fuel w playlist_id None ∅ σ
       = Some (Returns (list_to_set
                          (omap PlaylistItem.videoId (concat (items <$> pages)))), σ').
Proof.
  intros Hp Hall Hfuel.
  pose proof (get_playlist_video_ids_pages_from _ _ _ _ _ _ _ Hp Hall fuel ∅ Hfuel) as H.
  destruct error; [done|]. by rewrite H, (left_id_L ∅ (∪)).
Qed.

Lemma get_playlist_video_ids_pages_witness :
  pages_until two_pages "PL1" None 0%nat
    [ {| items := [item_of let_it_be; item_of hey_jude]; nextPageToken := Some "page2" |};
      {| items := [item_of hey_jude_lc]; nextPageToken := None |} ] false 2%nat
  ∧ get_playlist_video_ids 2 two_pages "PL1" None ∅ 0%nat
    = Some (Returns (list_to_set ["v3"; "v1"; "v2"]), 2%nat).
Proof.
  assert (pages_until two_pages "PL1" None 0%nat
    [ {| items := [item_of let_it_be; item_of hey_jude]; nextPageToken := Some "page2" |};
      {| items := [item_of hey_jude_lc]; nextPageToken := None |} ] false 2%nat) as Hp.
  { eapply pages_next; [reflexivity|reflexivity|]. eapply pages_last; reflexivity. }
  split; [exact Hp|].
  refine (get_playlist_video_ids_pages two_pages "PL1" 0%nat _ false 2%nat 2 Hp _ _).
  - repeat constructor; by eexists.
  - simpl. lia.
Defined.


(** ** The import as a whole *)




(** X29.  [add_songs_to_shazam_playlist] comes to an end, with a value or an
    exception, whenever the listing of the playlist it set up does, within
    the fuel. *)
Theorem add_songs_returns {St : Type} (w : World St) (fuel : nat)
    (songs : list (string * string)) (yt : YouTube) (client_again : outcome bool)
    (σ : St) :
  (∀ playlist_id, playlist_setup songs yt = PlaylistReady playlist_id →
     ∃ pages error σ',
       pages_until w playlist_id None σ pages error σ'
       ∧ (length pages + (if error then 1 else 0) ≤ fuel)%nat) →
  is_Some (add_songs_to_shazam_playlist fuel songs yt client_again w σ).
Proof.
  intros Hlist. unfold add_songs_to_shazam_playlist.
  destruct (playlist_setup songs yt) as [| | |playlist_id]; [done..|].
  destruct client_again as [[]|msg]; [|done..].
  destruct (Hlist playlist_id eq_refl) as (pages & error & σ' & Hp & Hfuel).
  destruct (get_playlist_video_ids_returns _ _ _ _ _ _ _ Hp fuel ∅ Hfuel) as [[ids σ1] ->].
  simpl. destruct ids as [video_ids|msg]; [|done].
  destruct (fold_left _ songs _) as [p σ2].
  destruct (nonempty (unmatched_songs p)); [|done].
  by destruct (csv_write w _ _ σ2) as [[[]|?] ?].
Qed.

Lemma add_songs_returns_witness :
  (∀ playlist_id, playlist_setup two_songs ready_service = PlaylistReady playlist_id →
     ∃ pages error σ',
       pages_until quota_after_two playlist_id None 0%nat pages error σ'
       ∧ (length pages + (if error then 1 else 0) ≤ 1)%nat)
  ∧ is_Some (add_songs_to_shazam_playlist 1 two_songs ready_service (Returns true)
               quota_after_two 0%nat).
Proof.
  assert (∀ playlist_id, playlist_setup two_songs ready_service = PlaylistReady playlist_id →
     ∃ pages error σ',
       pages_until quota_after_two playlist_id None 0%nat pages error σ'
       ∧ (length pages + (if error then 1 else 0) ≤ 1)%nat) as H.
  { intros playlist_id _.
    exists [ {| items := [item_of let_it_be]; nextPageToken := None |} ], false, 1%nat.
    split; [eapply pages_last; reflexivity|simpl; lia]. }
  exact (conj H (add_songs_returns quota_after_two 1 two_songs ready_service (Returns true)
                   0%nat H)).
Defined.
